(** * FastIntersectCount: the intersection-count engine of
      [fast_intersect_count.h], embedded in Rocq.

    The header computes, for a bundle of equal-length bit vectors, the sum of
    the pairwise intersection cardinalities.  This file embeds its kernels
    (scalar, SSE4.1, AVX2, AVX-512), the sparse positional kernel, the
    all-pairs drivers and the dispatch functions, and proves properties of
    them.

    Conventions of the embedding.
    - A [uint32_t] or [uint64_t] is a [Z]; every C operation that can wrap is
      written with [u32] or [u64].  An [int] loop counter is a [Z] that the
      theorems keep below [INT_MAX].
    - An array of words is a [list Z]; [b.[i]] reads it (0 outside the list,
      where C leaves the read undefined).  A pointer [&vals[k]] into an array
      is the suffix [skipn k vals].
    - A SIMD register is the list of its 64-bit lanes, lane 0 first, which is
      the order in which a [uint64_t*] cast to a register pointer is loaded.
    - A loop whose counter advances by one up to a bound is [for_range], on
      a state that holds the variables the loop updates (for a loop with an
      offset and the total, the pair of them, of which the code after the
      loop keeps the total); a strided loop is [while] with fuel and yields
      [None] when the fuel does not reach the exit.
    - Where C leaves the result of an operation open, the embedding takes
      what the x86-64 code of the header computes: a shift takes its count
      modulo 64 ([shl_long]).  The kernels are modelled for what their
      callers owe them: arrays that hold the words that are read, at
      addresses aligned to the register width of the kernel; theorems about
      the entry points state what this asks of the number of words of a
      vector. *)

From Stdlib Require Import ZArith List Lia Bool Permutation.
Import ListNotations.
Local Open Scope Z_scope.

(** ** Machine integers, arrays and loops *)

Definition u32 (x : Z) : Z := x mod 2 ^ 32.
Definition u64 (x : Z) : Z := x mod 2 ^ 64.
Definition INT_MAX : Z := 2 ^ 31 - 1.
Definition UINT32_MAX : Z := 2 ^ 32 - 1.

(** [b.[i]]: the word [b[i]]. *)
Definition rd (b : list Z) (i : Z) : Z := nth (Z.to_nat i) b 0.
Notation "b .[ i ]" := (rd b i) (at level 1, left associativity, format "b .[ i ]").

(** [&b[k]]: the array seen from its [k]-th word on. *)
Definition ptr (b : list Z) (k : Z) : list Z := skipn (Z.to_nat k) b.

(** [while fuel cond body s]: [for (; cond; ) body], from state [s]; the body
    may itself have no result. *)
Fixpoint while {S : Type} (fuel : nat) (cond : S -> bool) (body : S -> option S)
  (s : S) : option S :=
  match fuel with
  | O => None
  | Datatypes.S k =>
      if cond s then match body s with Some s' => while k cond body s' | None => None end
      else Some s
  end.

Fixpoint iter_from {S : Type} (n : nat) (x : Z) (body : Z -> S -> S) (s : S) : S :=
  match n with
  | O => s
  | Datatypes.S k => iter_from k (x + 1) body (body x s)
  end.

(** [for_range lo hi body s]: [for (x = lo; x < hi; ++x) body], from state [s];
    the counter stays at most [hi], so [++x] never wraps. *)
Definition for_range {S : Type} (lo hi : Z) (body : Z -> S -> S) (s : S) : S :=
  iter_from (Z.to_nat (hi - lo)) lo body s.

(** The sum of a list of integers. *)
Definition sum_list (l : list Z) : Z := fold_right Z.add 0 l.

(** The option monad, for code with a fuel-bounded loop. *)
Definition obind {A B : Type} (m : option A) (k : A -> option B) : option B :=
  match m with Some a => k a | None => None end.
Notation "x <- m ;; k" := (obind m (fun x => k))
  (at level 61, m at next level, right associativity).
Notation "' p <- m ;; k" := (obind m (fun p => k))
  (at level 61, p pattern, m at next level, right associativity).

(** ** Population count *)

Fixpoint popcount_bits (n : nat) (x : Z) : Z :=
  match n with
  | O => 0
  | Datatypes.S k => Z.b2z (Z.testbit x (Z.of_nat k)) + popcount_bits k x
  end.

(** [FIC_POPCOUNT] ([__builtin_popcountll] or [_mm_popcnt_u64]): the number
    of set bits among the 64 bits of the word. *)
Definition FIC_POPCOUNT (x : Z) : Z := popcount_bits 64 x.

(** ** Scalar kernel *)

(** [count += FIC_POPCOUNT(b1[i] & b2[i])] on a [uint64_t] count. *)
Definition and_popcount_step (b1 b2 : list Z) (i : Z) (count : Z) : Z :=
  u64 (count + FIC_POPCOUNT (Z.land b1.[i] b2.[i])).

Definition intersect_bitmaps_scalar (b1 b2 : list Z) (n_ints : Z) : option Z :=
  '(i, count) <-
    while (Datatypes.S (Z.to_nat n_ints))
      (fun '(i, _) => i + 4 <? n_ints)
      (fun '(i, count) =>
         let count := and_popcount_step b1 b2 (i + 0) count in
         let count := and_popcount_step b1 b2 (i + 1) count in
         let count := and_popcount_step b1 b2 (i + 2) count in
         let count := and_popcount_step b1 b2 (i + 3) count in
         Some (i + 4, count))
      (0, 0) ;;
  Some (for_range i n_ints (and_popcount_step b1 b2) count).

(** Specification side: [sum_upto n g] is [g 0 + ... + g (n-1)]. *)
Fixpoint sum_upto (n : nat) (g : Z -> Z) : Z :=
  match n with
  | O => 0
  | Datatypes.S k => sum_upto k g + g (Z.of_nat k)
  end.

(** [popcount(b1[i] & b2[i])], the contribution of word [i]. *)
Definition and_popcount (b1 b2 : list Z) (i : Z) : Z :=
  FIC_POPCOUNT (Z.land b1.[i] b2.[i]).

(** ** SIMD registers and intrinsics *)

(** A register is the list of its 64-bit lanes: 2 for [__m128i], 4 for
    [__m256i], 8 for [__m512i]. *)
Definition reg : Type := list Z.

Fixpoint map2 {A B C : Type} (f : A -> B -> C) (l1 : list A) (l2 : list B) : list C :=
  match l1, l2 with
  | a :: l1, b :: l2 => f a b :: map2 f l1 l2
  | _, _ => []
  end.

Fixpoint map3 {A B C D : Type} (f : A -> B -> C -> D)
  (l1 : list A) (l2 : list B) (l3 : list C) : list D :=
  match l1, l2, l3 with
  | a :: l1, b :: l2, c :: l3 => f a b c :: map3 f l1 l2 l3
  | _, _, _ => []
  end.

(** [data[i]] for [data = (const __mNi* ) b]: the [lanes] words from
    [b[lanes*i]] on.  The header dereferences the register pointer, which
    needs [b] at an address that is a multiple of the register width; the
    embedding has no addresses, and a theorem that lets a driver derive [b]
    from the number of words of a vector states that this number is a
    multiple of [lanes]. *)
Definition load (lanes : nat) (b : list Z) (i : Z) : reg :=
  map (fun k => b.[Z.of_nat lanes * i + Z.of_nat k]) (seq 0 lanes).

Definition setzero (lanes : nat) : reg := repeat 0 lanes.

Definition v_and : reg -> reg -> reg := map2 Z.land.
Definition v_or : reg -> reg -> reg := map2 Z.lor.
Definition v_xor : reg -> reg -> reg := map2 Z.lxor.

(** The [k]-th field of [w] bits of a lane, the list of the first [n] fields,
    and the lane made of a list of fields (field 0 lowest). *)
Definition field (w : Z) (x : Z) (k : nat) : Z :=
  Z.land (Z.shiftr x (w * Z.of_nat k)) (Z.ones w).
Definition split (w : Z) (n : nat) (x : Z) : list Z := map (field w x) (seq 0 n).
Fixpoint join (w : Z) (fs : list Z) : Z :=
  match fs with
  | [] => 0
  | f :: fs => Z.lor f (Z.shiftl (join w fs) w)
  end.

(** The bytes of a register, byte 0 first, and back. *)
Definition reg_bytes (r : reg) : list Z := flat_map (split 8 8) r.
Fixpoint bytes_reg (bs : list Z) : reg :=
  match bs with
  | b0 :: b1 :: b2 :: b3 :: b4 :: b5 :: b6 :: b7 :: bs' =>
      join 8 [b0; b1; b2; b3; b4; b5; b6; b7] :: bytes_reg bs'
  | _ => []
  end.

(** Operations on one lane: on each pair of bytes; the logical right shift
    of each 16-bit element; the sum of the absolute differences of the eight
    bytes; and the byte shuffle, in which a byte of the result is 0 when bit 7
    of the index byte is set and otherwise the byte of [table] that the low
    four bits of the index byte select within the 128-bit half [half]. *)
Definition lane_bytewise (f : Z -> Z -> Z) (x y : Z) : Z :=
  join 8 (map2 f (split 8 8 x) (split 8 8 y)).

Definition lane_srli16 (x n : Z) : Z :=
  join 16 (map (fun e => Z.shiftr e n) (split 16 4 x)).

Definition lane_sad (x y : Z) : Z :=
  sum_list (map2 (fun p q => Z.abs (p - q)) (split 8 8 x) (split 8 8 y)).

Definition lookup_byte (table : list Z) (half : nat) (idx : Z) : Z :=
  if Z.testbit idx 7 then 0
  else nth (half * 16 + Z.to_nat (Z.land idx 15)) table 0.

Definition lane_shuffle (table : list Z) (half : nat) (x : Z) : Z :=
  join 8 (map (lookup_byte table half) (split 8 8 x)).

(** The same on every lane of a register; lane [l] lies in the 128-bit half
    [l / 2]. *)
Definition bytewise2 (f : Z -> Z -> Z) (a b : reg) : reg := map2 (lane_bytewise f) a b.
Definition srli_epi16 (v : reg) (n : Z) : reg := map (fun x => lane_srli16 x n) v.
Definition sad_epu8 (a b : reg) : reg := map2 lane_sad a b.
Definition shuffle_epi8 (a b : reg) : reg :=
  map (fun '(l, x) => lane_shuffle (reg_bytes a) (Nat.div l 2) x)
      (combine (seq 0 (length b)) b).

Definition set1_epi8 (lanes : nat) (c : Z) : reg := repeat (join 8 (repeat c 8)) lanes.

Definition add_epi8 : reg -> reg -> reg := bytewise2 (fun x y => (x + y) mod 256).
Definition sub_epi8 : reg -> reg -> reg := bytewise2 (fun x y => (x - y) mod 256).

Definition add_epi64 : reg -> reg -> reg := map2 (fun x y => u64 (x + y)).
Definition slli_epi64 (a : reg) (n : Z) : reg := map (fun x => u64 (Z.shiftl x n)) a.

(** [cnt64[0] + cnt64[1] + ...] over the lanes, in [uint64_t] arithmetic. *)
Definition hsum (r : reg) : Z := fold_left (fun s x => u64 (s + x)) r 0.

(** One output bit of a three-input logic operation with truth table [imm8]:
    the inputs form the index of the table bit. *)
Definition ternary_bit (imm8 : Z) (a b c : bool) : bool :=
  Z.testbit imm8 (4 * Z.b2z a + 2 * Z.b2z b + Z.b2z c).

Fixpoint bits_upto (n : nat) (g : Z -> bool) : Z :=
  match n with
  | O => 0
  | Datatypes.S k =>
      if g (Z.of_nat k) then Z.setbit (bits_upto k g) (Z.of_nat k) else bits_upto k g
  end.

Definition ternarylogic (a b c : reg) (imm8 : Z) : reg :=
  map3 (fun x y z =>
          bits_upto 64
            (fun i => ternary_bit imm8 (Z.testbit x i) (Z.testbit y i) (Z.testbit z i)))
       a b c.

(** The intrinsics of the three widths, by the names the header uses. *)
Definition _mm_setzero_si128 : reg := setzero 2.
Definition _mm_and_si128 := v_and.
Definition _mm_or_si128 := v_or.
Definition _mm_xor_si128 := v_xor.
Definition _mm_cvtsi128_si64 (n : reg) : Z := nth 0 n 0.
Definition _mm_unpackhi_epi64 (a b : reg) : reg := [nth 1 a 0; nth 1 b 0].
Definition _mm_popcnt_u64 := FIC_POPCOUNT.

Definition _mm256_setzero_si256 : reg := setzero 4.
Definition _mm256_and_si256 := v_and.
Definition _mm256_or_si256 := v_or.
Definition _mm256_xor_si256 := v_xor.
Definition _mm256_setr_epi8 (es : list Z) : reg := bytes_reg es.
Definition _mm256_set1_epi8 := set1_epi8 4.
Definition _mm256_srli_epi16 := srli_epi16.
Definition _mm256_shuffle_epi8 := shuffle_epi8.
Definition _mm256_sad_epu8 := sad_epu8.
Definition _mm256_add_epi64 := add_epi64.
Definition _mm256_slli_epi64 := slli_epi64.

Definition _mm512_setzero_si512 : reg := setzero 8.
Definition _mm512_set1_epi8 := set1_epi8 8.
Definition _mm512_srli_epi16 := srli_epi16.
Definition _mm512_add_epi8 := add_epi8.
Definition _mm512_sub_epi8 := sub_epi8.
Definition _mm512_sad_epu8 := sad_epu8.
Definition _mm512_add_epi64 := add_epi64.
Definition _mm512_slli_epi64 := slli_epi64.
Definition _mm512_ternarylogic_epi32 := ternarylogic.

(** ** Harley-Seal kernels *)

(** The fifteen carry-save additions that the loop body of each of the three
    kernels performs on sixteen blocks; the three bodies differ only in the
    carry-save adder [CSA], which yields the pair [(h, l)], and in the blocks
    [blk k = data1[i+k] & data2[i+k]].  The result is the new
    [(ones, twos, fours, eights)] and [sixteens]. *)
Section Round.
Variable CSA : reg -> reg -> reg -> reg * reg.
Variable blk : Z -> reg.

Definition csa_round (acc : reg * reg * reg * reg) : (reg * reg * reg * reg) * reg :=
  let '(ones, twos, fours, eights) := acc in
  let '(twosA, ones) := CSA ones (blk 0) (blk 1) in
  let '(twosB, ones) := CSA ones (blk 2) (blk 3) in
  let '(foursA, twos) := CSA twos twosA twosB in
  let '(twosA, ones) := CSA ones (blk 4) (blk 5) in
  let '(twosB, ones) := CSA ones (blk 6) (blk 7) in
  let '(foursB, twos) := CSA twos twosA twosB in
  let '(eightsA, fours) := CSA fours foursA foursB in
  let '(twosA, ones) := CSA ones (blk 8) (blk 9) in
  let '(twosB, ones) := CSA ones (blk 10) (blk 11) in
  let '(foursA, twos) := CSA twos twosA twosB in
  let '(twosA, ones) := CSA ones (blk 12) (blk 13) in
  let '(twosB, ones) := CSA ones (blk 14) (blk 15) in
  let '(foursB, twos) := CSA twos twosA twosB in
  let '(eightsB, fours) := CSA fours foursA foursB in
  let '(sixteens, eights) := CSA eights eightsA eightsB in
  ((ones, twos, fours, eights), sixteens).
End Round.

(** *** SSE4.1 *)

Definition FIC_POPCOUNT_SSE (n : reg) : Z :=
  FIC_POPCOUNT (_mm_cvtsi128_si64 n)
  + FIC_POPCOUNT (_mm_cvtsi128_si64 (_mm_unpackhi_epi64 n n)).

Definition CSA128 (a b c : reg) : reg * reg :=
  let u := _mm_xor_si128 a b in
  (_mm_or_si128 (_mm_and_si128 a b) (_mm_and_si128 u c), _mm_xor_si128 u c).

Definition popcnt_sse4_csa_intersect (data1 data2 : list Z) (size : Z) : option Z :=
  let blk i := v_and (load 2 data1 i) (load 2 data2 i) in
  let limit := size - size mod 16 in
  '(i, acc, cnt64) <-
    while (Datatypes.S (Z.to_nat limit))
      (fun '(i, _, _) => i <? limit)
      (fun '(i, acc, cnt64) =>
         let '(acc, sixteens) := csa_round CSA128 (fun k => blk (i + k)) acc in
         Some (i + 16, acc, u64 (cnt64 + FIC_POPCOUNT_SSE sixteens)))
      (0, (_mm_setzero_si128, _mm_setzero_si128, _mm_setzero_si128, _mm_setzero_si128), 0) ;;
  let '(ones, twos, fours, eights) := acc in
  let cnt64 := u64 (Z.shiftl cnt64 4) in
  let cnt64 := u64 (cnt64 + u64 (Z.shiftl (FIC_POPCOUNT_SSE eights) 3)) in
  let cnt64 := u64 (cnt64 + u64 (Z.shiftl (FIC_POPCOUNT_SSE fours) 2)) in
  let cnt64 := u64 (cnt64 + u64 (Z.shiftl (FIC_POPCOUNT_SSE twos) 1)) in
  let cnt64 := u64 (cnt64 + u64 (Z.shiftl (FIC_POPCOUNT_SSE ones) 0)) in
  Some (for_range i size (fun i _ => FIC_POPCOUNT_SSE (blk i)) cnt64).

Definition intersect_bitmaps_sse4 (b1 b2 : list Z) (n_ints : Z) : option Z :=
  let count := 0 in
  let n_cycles := n_ints / 2 in
  c <- popcnt_sse4_csa_intersect b1 b2 n_cycles ;;
  let count := u64 (count + c) in
  Some (for_range (u32 (n_cycles * 2)) n_ints
          (fun i count => u64 (count + _mm_popcnt_u64 (Z.land b1.[i] b2.[i]))) count).

(** *** AVX2 *)

Definition CSA256 (a b c : reg) : reg * reg :=
  let u := _mm256_xor_si256 a b in
  (_mm256_or_si256 (_mm256_and_si256 a b) (_mm256_and_si256 u c), _mm256_xor_si256 u c).

Definition popcnt256 (v : reg) : reg :=
  let lookup1 := _mm256_setr_epi8
    [4; 5; 5; 6; 5; 6; 6; 7;
     5; 6; 6; 7; 6; 7; 7; 8;
     4; 5; 5; 6; 5; 6; 6; 7;
     5; 6; 6; 7; 6; 7; 7; 8] in
  let lookup2 := _mm256_setr_epi8
    [4; 3; 3; 2; 3; 2; 2; 1;
     3; 2; 2; 1; 2; 1; 1; 0;
     4; 3; 3; 2; 3; 2; 2; 1;
     3; 2; 2; 1; 2; 1; 1; 0] in
  let low_mask := _mm256_set1_epi8 0x0f in
  let lo := _mm256_and_si256 v low_mask in
  let hi := _mm256_and_si256 (_mm256_srli_epi16 v 4) low_mask in
  let popcnt1 := _mm256_shuffle_epi8 lookup1 lo in
  let popcnt2 := _mm256_shuffle_epi8 lookup2 hi in
  _mm256_sad_epu8 popcnt1 popcnt2.

Definition popcnt_avx2_csa_intersect (data1 data2 : list Z) (size : Z) : option Z :=
  let blk i := v_and (load 4 data1 i) (load 4 data2 i) in
  let limit := size - size mod 16 in
  '(i, acc, cnt) <-
    while (Datatypes.S (Z.to_nat limit))
      (fun '(i, _, _) => i <? limit)
      (fun '(i, acc, cnt) =>
         let '(acc, sixteens) := csa_round CSA256 (fun k => blk (i + k)) acc in
         Some (i + 16, acc, _mm256_add_epi64 cnt (popcnt256 sixteens)))
      (0, (_mm256_setzero_si256, _mm256_setzero_si256,
           _mm256_setzero_si256, _mm256_setzero_si256), _mm256_setzero_si256) ;;
  let '(ones, twos, fours, eights) := acc in
  let cnt := _mm256_slli_epi64 cnt 4 in
  let cnt := _mm256_add_epi64 cnt (_mm256_slli_epi64 (popcnt256 eights) 3) in
  let cnt := _mm256_add_epi64 cnt (_mm256_slli_epi64 (popcnt256 fours) 2) in
  let cnt := _mm256_add_epi64 cnt (_mm256_slli_epi64 (popcnt256 twos) 1) in
  let cnt := _mm256_add_epi64 cnt (popcnt256 ones) in
  let cnt := for_range i size (fun i cnt => _mm256_add_epi64 cnt (popcnt256 (blk i))) cnt in
  Some (hsum cnt).

Definition intersect_bitmaps_avx2 (b1 b2 : list Z) (n_ints : Z) : option Z :=
  let count := 0 in
  let n_cycles := n_ints / 4 in
  c <- popcnt_avx2_csa_intersect b1 b2 n_cycles ;;
  let count := u64 (count + c) in
  Some (for_range (u32 (n_cycles * 4)) n_ints
          (fun i count => u64 (count + _mm_popcnt_u64 (Z.land b1.[i] b2.[i]))) count).

(** *** AVX-512BW *)

Definition popcnt512 (v : reg) : reg :=
  let m1 := _mm512_set1_epi8 0x55 in
  let m2 := _mm512_set1_epi8 0x33 in
  let m4 := _mm512_set1_epi8 0x0F in
  let t1 := _mm512_sub_epi8 v (v_and (_mm512_srli_epi16 v 1) m1) in
  let t2 := _mm512_add_epi8 (v_and t1 m2) (v_and (_mm512_srli_epi16 t1 2) m2) in
  let t3 := v_and (_mm512_add_epi8 t2 (_mm512_srli_epi16 t2 4)) m4 in
  _mm512_sad_epu8 t3 _mm512_setzero_si512.

Definition CSA512 (a b c : reg) : reg * reg :=
  let l := _mm512_ternarylogic_epi32 c b a 0x96 in
  let h := _mm512_ternarylogic_epi32 c b a 0xe8 in
  (h, l).

Definition popcnt_avx512_csa_intersect (data1 data2 : list Z) (size : Z) : option Z :=
  let blk i := v_and (load 8 data1 i) (load 8 data2 i) in
  let limit := size - size mod 16 in
  '(i, acc, cnt) <-
    while (Datatypes.S (Z.to_nat limit))
      (fun '(i, _, _) => i <? limit)
      (fun '(i, acc, cnt) =>
         let '(acc, sixteens) := csa_round CSA512 (fun k => blk (i + k)) acc in
         Some (i + 16, acc, _mm512_add_epi64 cnt (popcnt512 sixteens)))
      (0, (_mm512_setzero_si512, _mm512_setzero_si512,
           _mm512_setzero_si512, _mm512_setzero_si512), _mm512_setzero_si512) ;;
  let '(ones, twos, fours, eights) := acc in
  let cnt := _mm512_slli_epi64 cnt 4 in
  let cnt := _mm512_add_epi64 cnt (_mm512_slli_epi64 (popcnt512 eights) 3) in
  let cnt := _mm512_add_epi64 cnt (_mm512_slli_epi64 (popcnt512 fours) 2) in
  let cnt := _mm512_add_epi64 cnt (_mm512_slli_epi64 (popcnt512 twos) 1) in
  let cnt := _mm512_add_epi64 cnt (popcnt512 ones) in
  let cnt := for_range i size (fun i cnt => _mm512_add_epi64 cnt (popcnt512 (blk i))) cnt in
  Some (hsum cnt).

Definition intersect_bitmaps_avx512_csa (b1 b2 : list Z) (n_ints : Z) : option Z :=
  let count := 0 in
  let n_cycles := n_ints / 8 in
  c <- popcnt_avx512_csa_intersect b1 b2 n_cycles ;;
  let count := u64 (count + c) in
  Some (for_range (u32 (n_cycles * 8)) n_ints
          (fun i count => u64 (count + _mm_popcnt_u64 (Z.land b1.[i] b2.[i]))) count).


(** ** Sparse positional kernel *)

(** The macro [MOD(x)], [((x) * 64) >> 6], on a [uint32_t]. *)
Definition MOD (x : Z) : Z := Z.shiftr (u32 (x * 64)) 6.

(** [x << n] on a 64-bit [long], as the shift instructions of x86-64
    compute it: the count is taken modulo 64 and the result is the 64-bit
    pattern.  C itself leaves the shift open from the count 64 on, and for
    [1L] at the count 63. *)
Definition shl_long (x n : Z) : Z := u64 (Z.shiftl x (Z.land n 63)).

(** [(b[p >> 6] & (1L << MOD(p))) != 0], as the 0 or 1 that is added. *)
Definition probe (b : list Z) (p : Z) : Z :=
  if Z.land b.[Z.shiftr p 6] (shl_long 1 (MOD p)) =? 0 then 0 else 1.

(** [count += probe] on a [uint64_t] count. *)
Definition probe_step (b l : list Z) (i : Z) (count : Z) : Z :=
  u64 (count + probe b l.[i]).

Definition intersect_bitmaps_scalar_list (b1 b2 l1 l2 : list Z) (n1 n2 : Z) : option Z :=
  let count := 0 in
  if n1 <? n2 then Some (for_range 0 n1 (probe_step b2 l1) count)
  else Some (for_range 0 n2 (probe_step b1 l2) count).

(** ** All-pairs drivers *)

Definition ftype : Type := list Z -> list Z -> Z -> option Z.
Definition fltype : Type := list Z -> list Z -> list Z -> list Z -> Z -> Z -> option Z.

(** A kernel call of a driver, by the offsets of its pointer arguments:
    [f(&vals[left], &vals[right], n_ints)] through the pointer [f], or
    [fl(&vals[left], &vals[right], &alt_positions[p1], &alt_positions[p2],
    n1, n2)] through the pointer [fl]. *)
Inductive kernel_call : Type :=
| DenseCall (f : ftype) (left right n_ints : Z)
| SparseCall (fl : fltype) (left right p1 p2 n1 n2 : Z).

Definition run_call (vals alt_positions : list Z) (c : kernel_call) : option Z :=
  match c with
  | DenseCall f lft rgt n_ints => f (ptr vals lft) (ptr vals rgt) n_ints
  | SparseCall fl lft rgt p1 p2 n1 n2 =>
      fl (ptr vals lft) (ptr vals rgt) (ptr alt_positions p1) (ptr alt_positions p2) n1 n2
  end.

(** [total += r] on a [uint64_t] total, where the kernel result [r] or the
    total so far may be missing. *)
Definition tally (total r : option Z) : option Z :=
  total <- total ;; r <- r ;; Some (u64 (total + r)).

(** [total += call] over the arrays of the caller: the statement that the
    drivers execute for every kernel call. *)
Definition run (vals alt_positions : list Z) (c : kernel_call) (total : option Z)
  : option Z :=
  tally total (run_call vals alt_positions c).

(** The same statement for an instrumented run, which only records the
    call. *)
Definition record (c : kernel_call) (trace : list kernel_call) : list kernel_call :=
  trace ++ [c].

(** The loops of the drivers, over the statement [site a b left right] that
    they execute for the vectors number [a] and [b], whose words start at
    [left] and [right] (here [lft] and [rgt]).  A driver is its loop nest
    with its own statement at the site.  [T] is the type of what the statement
    updates. *)
Section Loops.
Context {T : Type}.
Variable site : Z -> Z -> Z -> Z -> T -> T.
Variables n_vectors n_ints : Z.

(** The loop nest of [c_fwrapper] and [c_flwrapper]. *)
Definition direct_loops (total : T) : T :=
  snd (for_range 0 n_vectors
         (fun i '(offset, total) =>
            let inner_offset := u32 (offset + n_ints) in
            (u32 (offset + n_ints),
             snd (for_range (i + 1) n_vectors
                    (fun j '(inner_offset, total) =>
                       (u32 (inner_offset + n_ints),
                        site i j offset inner_offset total))
                    (inner_offset, total))))
         (0, total)).

(** The loop nest of [c_fwrapper_blocked] and [c_flwrapper_blocked], after
    [block_size] has been remapped. *)
Section Strip.
Variable block_size : Z.

Definition diagonal (i : Z) (total : T) : T :=
  let lft := u32 (i * n_ints) in
  snd (for_range 0 block_size
         (fun j '(lft, total) =>
            let rgt := u32 (lft + n_ints) in
            (u32 (lft + n_ints),
             snd (for_range (j + 1) block_size
                    (fun jj '(rgt, total) =>
                       (u32 (rgt + n_ints),
                        site (u32 (i + j)) (u32 (i + jj)) lft rgt total))
                    (rgt, total))))
         (lft, total)).

Definition square (curi j : Z) (total : T) : T :=
  let lft := u32 (curi * n_ints) in
  snd (for_range 0 block_size
         (fun ii '(lft, total) =>
            let rgt := u32 (j * n_ints) in
            (u32 (lft + n_ints),
             snd (for_range 0 block_size
                    (fun jj '(rgt, total) =>
                       (u32 (rgt + n_ints),
                        site (u32 (curi + ii)) (u32 (j + jj)) lft rgt total))
                    (rgt, total))))
         (lft, total)).

Definition squares (curi : Z) (total : T) : option (Z * T) :=
  while (Datatypes.S (Z.to_nat n_vectors))
    (fun '(j, _) => u32 (j + block_size) <=? n_vectors)
    (fun '(j, total) => Some (u32 (j + block_size), square curi j total))
    (u32 (curi + block_size), total).

Definition residual (curi j : Z) (total : T) : T :=
  let rgt := u32 (j * n_ints) in
  snd (for_range j n_vectors
         (fun j '(rgt, total) =>
            let lft := u32 (curi * n_ints) in
            (u32 (rgt + n_ints),
             snd (for_range 0 block_size
                    (fun jj '(lft, total) =>
                       (u32 (lft + n_ints),
                        site (u32 (curi + jj)) j lft rgt total))
                    (lft, total))))
         (rgt, total)).

Definition strips (total : T) : option (Z * T) :=
  while (Datatypes.S (Z.to_nat n_vectors))
    (fun '(i, _) => u32 (i + block_size) <=? n_vectors)
    (fun '(i, total) =>
       let total := diagonal i total in
       let curi := i in
       '(j, total) <- squares curi total ;;
       let total := residual curi j total in
       Some (u32 (i + block_size), total))
    (0, total).

Definition residual_tail (i : Z) (total : T) : T :=
  let lft := u32 (i * n_ints) in
  snd (for_range i n_vectors
         (fun i '(lft, total) =>
            let rgt := u32 (lft + n_ints) in
            (u32 (lft + n_ints),
             snd (for_range (i + 1) n_vectors
                    (fun j '(rgt, total) =>
                       (u32 (rgt + n_ints), site i j lft rgt total))
                    (rgt, total))))
         (lft, total)).
End Strip.

Definition blocked_loops (block_size : Z) (total : T) : option T :=
  let block_size := if block_size =? 0 then 3 else block_size in
  '(i, total) <- strips block_size total ;;
  Some (residual_tail i total).
End Loops.

(** ** Drivers and entry points

    They are written over [exec], the statement [total += call] executed for
    a kernel call, and [zero], the initial total: [run] and [Some 0] give the
    functions of the header, [record] and [[]] the sequence of their kernel
    calls. *)

(** CPUID and XGETBV bits. *)
Definition bit_POPCNT : Z := Z.shiftl 1 23.
Definition bit_SSE41 : Z := Z.shiftl 1 19.
Definition bit_SSE42 : Z := Z.shiftl 1 20.
Definition bit_AVX2 : Z := Z.shiftl 1 5.
Definition bit_AVX512BW : Z := Z.shiftl 1 30.
Definition XSTATE_SSE : Z := Z.shiftl 1 1.
Definition XSTATE_YMM : Z := Z.shiftl 1 2.
Definition XSTATE_ZMM : Z := Z.shiftl 7 5.

Definition FIC_SSE_ALIGNMENT : Z := 16.
Definition FIC_AVX2_ALIGNMENT : Z := 32.
Definition FIC_AVX512_ALIGNMENT : Z := 64.

(** Which instruction sets the header was compiled with. *)
Record build : Type := {
  HAVE_SSE41 : bool;
  HAVE_AVX2 : bool;
  HAVE_AVX512 : bool
}.

(** The host: the registers [abcd] that [run_cpuid(eax, ecx, abcd)] fills,
    and the value of [get_xcr0()]. *)
Record host : Type := {
  run_cpuid : Z -> Z -> list Z;
  get_xcr0 : Z
}.

Definition get_cpuid (cfg : build) (hw : host) : Z :=
  let flags := 0 in
  let abcd := run_cpuid hw 1 0 in
  let flags :=
    if Z.land abcd.[2] bit_POPCNT =? bit_POPCNT then Z.lor flags bit_POPCNT else flags in
  let flags :=
    if Z.land abcd.[2] bit_SSE41 =? bit_SSE41 then Z.lor flags bit_SSE41 else flags in
  let flags :=
    if Z.land abcd.[2] bit_SSE42 =? bit_SSE42 then Z.lor flags bit_SSE42 else flags in
  if HAVE_AVX2 cfg || HAVE_AVX512 cfg then
    let osxsave_mask := Z.shiftl 1 27 in
    if negb (Z.land abcd.[2] osxsave_mask =? osxsave_mask) then 0
    else
      let ymm_mask := Z.lor XSTATE_SSE XSTATE_YMM in
      let zmm_mask := Z.lor (Z.lor XSTATE_SSE XSTATE_YMM) XSTATE_ZMM in
      let xcr0 := get_xcr0 hw in
      if Z.land xcr0 ymm_mask =? ymm_mask then
        let abcd := run_cpuid hw 7 0 in
        let flags :=
          if Z.land abcd.[1] bit_AVX2 =? bit_AVX2 then Z.lor flags bit_AVX2 else flags in
        if Z.land xcr0 zmm_mask =? zmm_mask then
          if Z.land abcd.[1] bit_AVX512BW =? bit_AVX512BW
          then Z.lor flags bit_AVX512BW else flags
        else flags
      else flags
  else flags.

(** The feature mask of a call, and the new value of the function's static
    [cpuid_], which is -1 until the first call has stored the mask. *)
Definition cached_cpuid (cfg : build) (hw : host) (cpuid_ : Z) : Z * Z :=
  if cpuid_ =? -1 then let cpuid := get_cpuid cfg hw in (cpuid, cpuid)
  else (cpuid_, cpuid_).

(** [(uint32_t)(FIC_DEFAULT_BLOCK/(n_bitmaps_vector*8))] with the default
    [FIC_DEFAULT_BLOCK], the [double] 256e3.  The product is a [uint32_t];
    when it is 0 the quotient is infinite and its conversion yields an
    unspecified value (C11, F.4): [inf_block] stands for that value.
    Otherwise the conversion truncates the quotient, and rounding cannot
    carry a quotient of a number below 2^18 by one below 2^32 to the next
    integer. *)
Definition default_block (inf_block : Z) (n_bitmaps_vector : Z) : Z :=
  let d := u32 (n_bitmaps_vector * 8) in
  if d =? 0 then inf_block else 256000 / d.

Section Engine.
Context {T : Type}.
Variable exec : kernel_call -> T -> T.
Variable zero : T.

Definition c_fwrapper_on (n_vectors n_ints : Z) (f : ftype) : T :=
  direct_loops
    (fun _ _ offset inner_offset total =>
       exec (DenseCall f offset inner_offset n_ints) total)
    n_vectors n_ints zero.

Definition c_fwrapper_blocked_on (n_vectors n_ints : Z) (f : ftype) (block_size : Z)
  : option T :=
  blocked_loops
    (fun _ _ left right total => exec (DenseCall f left right n_ints) total)
    n_vectors n_ints block_size zero.

(** The statement at every site of [c_flwrapper_blocked]. *)
Definition cutoff_site (n_ints : Z) (n_alts alt_offsets : list Z) (f : ftype)
  (fl : fltype) (cutoff : Z) (a b left right : Z) (total : T) : T :=
  if (n_alts.[a] <? cutoff) || (n_alts.[b] <? cutoff)
  then exec (SparseCall fl left right alt_offsets.[a] alt_offsets.[b]
               n_alts.[a] n_alts.[b]) total
  else exec (DenseCall f left right n_ints) total.

Definition c_flwrapper_blocked_on (n_vectors n_ints : Z) (n_alts alt_offsets : list Z)
  (f : ftype) (fl : fltype) (cutoff block_size : Z) : option T :=
  blocked_loops (cutoff_site n_ints n_alts alt_offsets f fl cutoff)
    n_vectors n_ints block_size zero.

Definition intersect_on (cfg : build) (inf_block cpuid : Z)
  (n_vectors n_bitmaps_vector : Z) : option T :=
  let block := default_block inf_block n_bitmaps_vector in
  if HAVE_AVX512 cfg && negb (Z.land cpuid bit_AVX512BW =? 0)
     && (128 <=? n_bitmaps_vector)
  then c_fwrapper_blocked_on n_vectors n_bitmaps_vector intersect_bitmaps_avx512_csa block
  else if HAVE_AVX2 cfg && negb (Z.land cpuid bit_AVX2 =? 0)
          && (64 <=? n_bitmaps_vector)
  then c_fwrapper_blocked_on n_vectors n_bitmaps_vector intersect_bitmaps_avx2 block
  else if HAVE_SSE41 cfg && negb (Z.land cpuid bit_SSE41 =? 0)
          && (32 <=? n_bitmaps_vector)
  then c_fwrapper_blocked_on n_vectors n_bitmaps_vector intersect_bitmaps_sse4 block
  else c_fwrapper_blocked_on n_vectors n_bitmaps_vector intersect_bitmaps_scalar block.

Definition intersect_list_on (cfg : build) (inf_block cpuid : Z)
  (n_vectors n_bitmaps_vector : Z) (n_alts alt_offsets : list Z) (cutoff : Z)
  : option T :=
  let block := default_block inf_block n_bitmaps_vector in
  if HAVE_AVX512 cfg && negb (Z.land cpuid bit_AVX512BW =? 0)
     && (128 <=? n_bitmaps_vector)
  then c_flwrapper_blocked_on n_vectors n_bitmaps_vector n_alts alt_offsets
         intersect_bitmaps_avx512_csa intersect_bitmaps_scalar_list 50 block
  else if HAVE_AVX2 cfg && negb (Z.land cpuid bit_AVX2 =? 0)
          && (64 <=? n_bitmaps_vector)
  then c_flwrapper_blocked_on n_vectors n_bitmaps_vector n_alts alt_offsets
         intersect_bitmaps_avx2 intersect_bitmaps_scalar_list 50 block
  else if HAVE_SSE41 cfg && negb (Z.land cpuid bit_SSE41 =? 0)
          && (32 <=? n_bitmaps_vector)
  then c_flwrapper_blocked_on n_vectors n_bitmaps_vector n_alts alt_offsets
         intersect_bitmaps_sse4 intersect_bitmaps_scalar_list 50 block
  else c_flwrapper_blocked_on n_vectors n_bitmaps_vector n_alts alt_offsets
         intersect_bitmaps_scalar intersect_bitmaps_scalar_list 50 block.
End Engine.

(** The functions of the header. *)

Definition c_fwrapper (n_vectors : Z) (vals : list Z) (n_ints : Z) (f : ftype) : option Z :=
  c_fwrapper_on (run vals []) (Some 0) n_vectors n_ints f.

Definition c_fwrapper_blocked (n_vectors : Z) (vals : list Z) (n_ints : Z) (f : ftype)
  (block_size : Z) : option Z :=
  total <- c_fwrapper_blocked_on (run vals []) (Some 0) n_vectors n_ints f block_size ;;
  total.

Definition c_flwrapper_blocked (n_vectors : Z) (vals : list Z) (n_ints : Z)
  (n_alts alt_positions alt_offsets : list Z) (f : ftype) (fl : fltype)
  (cutoff block_size : Z) : option Z :=
  total <- c_flwrapper_blocked_on (run vals alt_positions) (Some 0)
             n_vectors n_ints n_alts alt_offsets f fl cutoff block_size ;;
  total.

(** [intersect] and [intersect_list] return their result and the new value
    of their static [cpuid_]. *)
Definition intersect (cfg : build) (hw : host) (inf_block : Z) (cpuid_ : Z)
  (data : list Z) (n_vectors n_bitmaps_vector : Z) : option Z * Z :=
  let '(cpuid, cpuid_) := cached_cpuid cfg hw cpuid_ in
  (total <- intersect_on (run data []) (Some 0) cfg inf_block cpuid
              n_vectors n_bitmaps_vector ;; total,
   cpuid_).

Definition get_alignment (cfg : build) (hw : host) (cpuid_ : Z) : Z * Z :=
  let '(cpuid, cpuid_) := cached_cpuid cfg hw cpuid_ in
  let alignment := 0 in
  let alignment :=
    if HAVE_AVX512 cfg && negb (Z.land cpuid bit_AVX512BW =? 0)
    then FIC_AVX512_ALIGNMENT else alignment in
  let alignment :=
    if HAVE_AVX2 cfg && negb (Z.land cpuid bit_AVX2 =? 0) && (alignment =? 0)
    then FIC_AVX2_ALIGNMENT else alignment in
  let alignment :=
    if HAVE_SSE41 cfg && negb (Z.land cpuid bit_SSE41 =? 0) && (alignment =? 0)
    then FIC_SSE_ALIGNMENT else alignment in
  let alignment := if alignment =? 0 then 8 else alignment in
  (alignment, cpuid_).

Definition intersect_list (cfg : build) (hw : host) (inf_block : Z) (cpuid_ : Z)
  (data : list Z) (n_vectors n_bitmaps_vector : Z) (n_alts alt_pos alt_offsets : list Z)
  (cutoff : Z) : option Z * Z :=
  let '(cpuid, cpuid_) := cached_cpuid cfg hw cpuid_ in
  (total <- intersect_list_on (run data alt_pos) (Some 0) cfg inf_block cpuid
              n_vectors n_bitmaps_vector n_alts alt_offsets cutoff ;; total,
   cpuid_).

(** The kernel calls of [intersect_list], in order. *)
Definition intersect_list_calls (cfg : build) (hw : host) (inf_block : Z) (cpuid_ : Z)
  (n_vectors n_bitmaps_vector : Z) (n_alts alt_offsets : list Z) (cutoff : Z)
  : option (list kernel_call) :=
  intersect_list_on record [] cfg inf_block (fst (cached_cpuid cfg hw cpuid_))
    n_vectors n_bitmaps_vector n_alts alt_offsets cutoff.

(** ** Specification vocabulary *)

(** Bit [i] of a register: bit [i mod 64] of lane [i / 64]. *)
Definition reg_bit (r : reg) (i : Z) : bool :=
  Z.testbit (nth (Z.to_nat (i / 64)) r 0) (i mod 64).

(** The two output bits of a carry-save adder, from the three input bits. *)
Definition csa_low (a b c : bool) : bool := xorb (xorb a b) c.
Definition csa_high (a b c : bool) : bool := (a && b) || (xorb a b && c).

(** [csa_spec lanes CSA]: on registers of [lanes] lanes, every bit of the
    [l] output of [CSA] is [a xor b xor c] and every bit of its [h] output is
    [(a and b) or ((a xor b) and c)], of the same bits of the inputs. *)
Definition csa_spec (lanes : nat) (CSA : reg -> reg -> reg -> reg * reg) : Prop :=
  forall a b c : reg,
    length a = lanes -> length b = lanes -> length c = lanes ->
    forall i, 0 <= i < 64 * Z.of_nat lanes ->
      reg_bit (snd (CSA a b c)) i = csa_low (reg_bit a i) (reg_bit b i) (reg_bit c i) /\
      reg_bit (fst (CSA a b c)) i = csa_high (reg_bit a i) (reg_bit b i) (reg_bit c i).


(** The integers [lo, lo+1, ..., hi-1]. *)
Definition range (lo hi : Z) : list Z :=
  map (fun k => lo + Z.of_nat k) (seq 0 (Z.to_nat (hi - lo))).

(** Pairs of vector numbers: a rectangle row by row or column by column, and
    the pairs [(a, b)] with [lo <= a < b < hi] row by row. *)
Definition rect_rows (rows cols : list Z) : list (Z * Z) :=
  flat_map (fun a => map (fun b => (a, b)) cols) rows.
Definition rect_cols (rows cols : list Z) : list (Z * Z) :=
  flat_map (fun b => map (fun a => (a, b)) rows) cols.
Definition triangle (lo hi : Z) : list (Z * Z) :=
  flat_map (fun a => map (fun b => (a, b)) (range (a + 1) hi)) (range lo hi).

(** The unordered pairs of [n_vectors] vectors, each once as [(i, j)] with
    [i < j]. *)
Definition all_pairs (n_vectors : Z) : list (Z * Z) := triangle 0 n_vectors.

Definition pair_eq_dec (p q : Z * Z) : {p = q} + {p <> q}.
Proof. decide equality; apply Z.eq_dec. Defined.

(** The site statement executed for a list of pairs, in order, each with the
    offsets of its two vectors in a bundle of [n_ints] words per vector. *)
Definition fold_pairs {T : Type} (site : Z -> Z -> Z -> Z -> T -> T) (n_ints : Z)
  (ps : list (Z * Z)) (total : T) : T :=
  fold_left
    (fun total '(a, b) => site a b (u32 (a * n_ints)) (u32 (b * n_ints)) total)
    ps total.

(** The block size after the remapping of 0. *)
Definition remap_block (block_size : Z) : Z := if block_size =? 0 then 3 else block_size.

(** The counters of the strip loops do not wrap: a block that fits in
    [n_vectors] at all leaves [n_vectors + block_size] representable. *)
Definition strips_in_range (n_vectors block_size : Z) : Prop :=
  remap_block block_size <= n_vectors -> n_vectors + remap_block block_size <= UINT32_MAX.


(** 1 when [b] holds and 0 otherwise, for counting occurrences. *)
Definition ind (b : bool) : nat := if b then 1%nat else 0%nat.

(** [visited site W t0 F total]: [total] is what the site statement makes of
    [t0] when it is executed for some sequence of pairs in which every pair
    [(a, b)] occurs [F a b] times. *)
Definition visited {T : Type} (site : Z -> Z -> Z -> Z -> T -> T) (W : Z) (t0 : T)
  (F : Z -> Z -> nat) (total : T) : Prop :=
  exists vs : list (Z * Z),
    total = fold_pairs site W vs t0 /\
    forall a b, count_occ pair_eq_dec vs (a, b) = F a b.


(** How often the blocked loop nest has visited the pair [(a, b)] before the
    strip that starts at [i], and once the strip at [i] has reached column
    [j]. *)
Definition before (N i a b : Z) : nat :=
  ind ((0 <=? a) && (a <? i) && (a <? b) && (b <? N)).
Definition within (N B i j a b : Z) : nat :=
  (before N i a b
   + ind ((Z.leb i a) && (Z.ltb a b) && (Z.ltb b (i + B)))
   + ind ((Z.leb i a) && (Z.ltb a (i + B)) && (Z.leb (i + B) b) && (Z.ltb b j)))%nat.


(** Vector [i] of a bundle of [n_ints] words per vector, and the sum of a
    kernel over the unordered pairs of the [n_vectors] vectors of a bundle,
    accumulated as the drivers accumulate it. *)
Definition vector (vals : list Z) (n_ints i : Z) : list Z := ptr vals (i * n_ints).
Definition pair_sum (f : ftype) (vals : list Z) (n_vectors n_ints : Z) : option Z :=
  fold_left
    (fun total '(i, j) => tally total (f (vector vals n_ints i) (vector vals n_ints j) n_ints))
    (all_pairs n_vectors) (Some 0).

(** The dense kernel call for the pair [(i, j)]. *)
Definition dense_call_of (f : ftype) (n_ints : Z) (p : Z * Z) : kernel_call :=
  DenseCall f (u32 (fst p * n_ints)) (u32 (snd p * n_ints)) n_ints.


(** Whether the pair [(a, b)] counts as sparse for a cutoff. *)
Definition sparse_pair (n_alts : list Z) (cutoff : Z) (p : Z * Z) : bool :=
  (n_alts.[fst p] <? cutoff) || (n_alts.[snd p] <? cutoff).

(** The sparse kernel call for the pair [(a, b)]. *)
Definition sparse_call_of (fl : fltype) (n_ints : Z) (n_alts alt_offsets : list Z)
  (p : Z * Z) : kernel_call :=
  SparseCall fl (u32 (fst p * n_ints)) (u32 (snd p * n_ints))
    alt_offsets.[fst p] alt_offsets.[snd p] n_alts.[fst p] n_alts.[snd p].

Definition is_sparse_call (c : kernel_call) : bool :=
  match c with SparseCall _ _ _ _ _ _ _ => true | DenseCall _ _ _ _ => false end.

(** A build with every instruction set, and a host that reports none. *)
Definition full_build : build :=
  {| HAVE_SSE41 := true; HAVE_AVX2 := true; HAVE_AVX512 := true |}.
Definition plain_host : host :=
  {| run_cpuid := fun _ _ => [0; 0; 0; 0]; get_xcr0 := 0 |}.


(** ** Bitmaps and position lists, as the specification words them *)

(** Bit [p] of a bitmap: bit [p mod 64] of word [p / 64]. *)
Definition bitmap_bit (b : list Z) (p : Z) : bool := Z.testbit b.[p / 64] (p mod 64).

(** The ascending list of the set-bit positions of a bitmap of [W] words. *)
Definition set_bits (b : list Z) (W : Z) : list Z := filter (bitmap_bit b) (range 0 (64 * W)).

(** Membership of position [p] as the specification states it:
    [(word[p >> 6] >> (p & 63)) & 1]. *)
Definition member_spec (b : list Z) (p : Z) : Z :=
  Z.land (Z.shiftr b.[Z.shiftr p 6] (Z.land p 63)) 1.

(** The sparse kernel as the specification states it: the positions of the
    operand with fewer set bits (the first one on a tie) are tested for
    membership in the other bitmap. *)
Definition sparse_kernel_spec (b1 b2 l1 l2 : list Z) (n1 n2 : Z) : Z :=
  if n1 <=? n2
  then for_range 0 n1 (fun i count => u64 (count + member_spec b2 l1.[i])) 0
  else for_range 0 n2 (fun i count => u64 (count + member_spec b1 l2.[i])) 0.

(** The number of set bits of the first [n] words of an array. *)
Definition popcount_words (b : list Z) (n : Z) : Z :=
  sum_upto (Z.to_nat n) (fun i => FIC_POPCOUNT b.[i]).



(** ** Vocabulary for the Harley-Seal kernels *)

(** The number of set bits of a register. *)
Definition reg_popcount (r : reg) : Z := sum_list (map FIC_POPCOUNT r).

(** Equality modulo 2^64, the arithmetic of the [uint64_t] accumulators. *)
Definition cong64 (a b : Z) : Prop := exists q, a = b + 2 ^ 64 * q.

(** The weight of the four carry-save accumulators. *)
Definition weight (acc : reg * reg * reg * reg) : Z :=
  let '(ones, twos, fours, eights) := acc in
  8 * reg_popcount eights + 4 * reg_popcount fours
  + 2 * reg_popcount twos + reg_popcount ones.

(** The common shape of [popcnt_avx2_csa_intersect] and
    [popcnt_avx512_csa_intersect], over the number of lanes, the carry-save
    adder and the lane popcount of the width. *)
Section Shape.
Variable lanes : nat.
Variable CSA : reg -> reg -> reg -> reg * reg.
Variable popcnt : reg -> reg.

Definition harley_seal (data1 data2 : list Z) (size : Z) : option Z :=
  let blk i := v_and (load lanes data1 i) (load lanes data2 i) in
  let limit := size - size mod 16 in
  '(i, acc, cnt) <-
    while (Datatypes.S (Z.to_nat limit))
      (fun '(i, _, _) => i <? limit)
      (fun '(i, acc, cnt) =>
         let '(acc, sixteens) := csa_round CSA (fun k => blk (i + k)) acc in
         Some (i + 16, acc, add_epi64 cnt (popcnt sixteens)))
      (0, (setzero lanes, setzero lanes, setzero lanes, setzero lanes), setzero lanes) ;;
  let '(ones, twos, fours, eights) := acc in
  let cnt := slli_epi64 cnt 4 in
  let cnt := add_epi64 cnt (slli_epi64 (popcnt eights) 3) in
  let cnt := add_epi64 cnt (slli_epi64 (popcnt fours) 2) in
  let cnt := add_epi64 cnt (slli_epi64 (popcnt twos) 1) in
  let cnt := add_epi64 cnt (popcnt ones) in
  let cnt := for_range i size (fun i cnt => add_epi64 cnt (popcnt (blk i))) cnt in
  Some (hsum cnt).
End Shape.

(** The sum of [popcount(b1[w] & b2[w])] over the words before word [m]. *)
Definition words_sum (b1 b2 : list Z) (m : Z) : Z :=
  sum_upto (Z.to_nat m) (and_popcount b1 b2).

(** What [intersect_bitmaps_sse4] returns for [n_ints] words: the sum over
    all words when the number of 128-bit blocks is a multiple of 16, and
    otherwise only the words of the last block and the odd word after it. *)
Definition sse4_result (b1 b2 : list Z) (n_ints : Z) : Z :=
  let size := n_ints / 2 in
  if size mod 16 =? 0 then words_sum b1 b2 n_ints
  else words_sum b1 b2 n_ints - words_sum b1 b2 (2 * (size - 1)).


(** ** The byte view of the lane popcounts

    What the operations of [popcnt256] and [popcnt512] do to the list of the
    eight bytes of a lane, for the proofs that they count the set bits. *)

(** The bytes of a lane whose 16-bit elements are shifted right by [n]. *)
Fixpoint srl_bytes (n : Z) (bs : list Z) : list Z :=
  match bs with
  | b :: b' :: rest => split 8 2 (Z.shiftr (join 8 [b; b']) n) ++ srl_bytes n rest
  | _ => []
  end.

Definition popcnt_table1 : list Z :=
  [4; 5; 5; 6; 5; 6; 6; 7; 5; 6; 6; 7; 6; 7; 7; 8;
   4; 5; 5; 6; 5; 6; 6; 7; 5; 6; 6; 7; 6; 7; 7; 8].
Definition popcnt_table2 : list Z :=
  [4; 3; 3; 2; 3; 2; 2; 1; 3; 2; 2; 1; 2; 1; 1; 0;
   4; 3; 3; 2; 3; 2; 2; 1; 3; 2; 2; 1; 2; 1; 1; 0].

Definition popcnt256_bytes (half : nat) (bs : list Z) : list Z :=
  map2 (fun p q => Z.abs (p - q))
    (map (lookup_byte popcnt_table1 half) (map (fun b => Z.land b 0x0f) bs))
    (map (lookup_byte popcnt_table2 half) (map (fun b => Z.land b 0x0f) (srl_bytes 4 bs))).

Definition popcnt512_bytes (bs : list Z) : list Z :=
  let t1 := map2 (fun x y => (x - y) mod 256) bs
              (map (fun b => Z.land b 0x55) (srl_bytes 1 bs)) in
  let t2 := map2 (fun x y => (x + y) mod 256)
              (map (fun b => Z.land b 0x33) t1)
              (map (fun b => Z.land b 0x33) (srl_bytes 2 t1)) in
  map2 (fun p q => Z.abs (p - q))
    (map (fun b => Z.land b 0x0F) (map2 (fun x y => (x + y) mod 256) t2 (srl_bytes 4 t2)))
    (repeat 0 (length bs)).

(** All byte values. *)
Definition all_bytes : list Z := range 0 256.


(** ** Further functions of the header *)

(** [(uint32_t)(((uint64_t)word * (uint64_t)p) >> 32)]. *)
Definition fastrange32 (word p : Z) : Z := u32 (Z.shiftr (u64 (word * p)) 32).

(** The two [uint64_t] halves of a 128-bit value, counted one by one. *)
Definition builtin_popcnt_unrolled (val : reg) : Z :=
  FIC_POPCOUNT (nth 0 val 0) + FIC_POPCOUNT (nth 1 val 0).

(** [cnt += FIC_POPCOUNT(data[i])] on a [uint64_t] count. *)
Definition popcount_step (data : list Z) (i : Z) (cnt : Z) : Z :=
  u64 (cnt + FIC_POPCOUNT data.[i]).

Definition popcount64_unrolled (data : list Z) (size : Z) : option Z :=
  let limit := size - size mod 4 in
  '(i, cnt) <-
    while (Datatypes.S (Z.to_nat limit))
      (fun '(i, _) => i <? limit)
      (fun '(i, cnt) =>
         let cnt := popcount_step data (i + 0) cnt in
         let cnt := popcount_step data (i + 1) cnt in
         let cnt := popcount_step data (i + 2) cnt in
         let cnt := popcount_step data (i + 3) cnt in
         Some (i + 4, cnt))
      (0, 0) ;;
  Some (for_range i size (popcount_step data) cnt).

(** [c_flwrapper], over the statement [exec] and the initial count [zero] as
    the drivers above; its two offsets are [uint64_t]. *)
Section Direct.
Context {T : Type}.
Variable exec : kernel_call -> T -> T.
Variable zero : T.

Definition c_flwrapper_on (n_vectors n_ints : Z) (n_alts alt_offsets : list Z)
  (f : ftype) (fl : fltype) (cutoff : Z) : T :=
  snd (for_range 0 n_vectors
         (fun i '(offset1, count) =>
            let offset2 := u64 (offset1 + n_ints) in
            (u64 (offset1 + n_ints),
             snd (for_range (i + 1) n_vectors
                    (fun j '(offset2, count) =>
                       (u64 (offset2 + n_ints),
                        cutoff_site exec n_ints n_alts alt_offsets f fl cutoff
                          i j offset1 offset2 count))
                    (offset2, count))))
         (0, zero)).
End Direct.

Definition c_flwrapper (n_vectors : Z) (vals : list Z) (n_ints : Z)
  (n_alts alt_positions alt_offsets : list Z) (f : ftype) (fl : fltype) (cutoff : Z)
  : option Z :=
  c_flwrapper_on (run vals alt_positions) (Some 0)
    n_vectors n_ints n_alts alt_offsets f fl cutoff.

(** ** Vocabulary for the further properties *)

(** The kernel call of the sparse-aware drivers for the pair [p], with the
    word offsets [u32 (i * n_ints)] of the blocked driver, and with the
    offsets [i * n_ints] that the [uint64_t] offsets of [c_flwrapper]
    hold. *)
Definition cutoff_call_of (f : ftype) (fl : fltype) (n_ints : Z)
  (n_alts alt_offsets : list Z) (cutoff : Z) (p : Z * Z) : kernel_call :=
  if sparse_pair n_alts cutoff p
  then sparse_call_of fl n_ints n_alts alt_offsets p
  else dense_call_of f n_ints p.

Definition cutoff_call_at (f : ftype) (fl : fltype) (n_ints : Z)
  (n_alts alt_offsets : list Z) (cutoff : Z) (p : Z * Z) : kernel_call :=
  if sparse_pair n_alts cutoff p
  then SparseCall fl (fst p * n_ints) (snd p * n_ints)
         alt_offsets.[fst p] alt_offsets.[snd p] n_alts.[fst p] n_alts.[snd p]
  else DenseCall f (fst p * n_ints) (snd p * n_ints) n_ints.

(** The number of common set bits of the vectors [fst p] and [snd p] of a
    bundle, and its sum over the unordered pairs of the bundle. *)
Definition pair_count (data : list Z) (n_ints : Z) (p : Z * Z) : Z :=
  words_sum (vector data n_ints (fst p)) (vector data n_ints (snd p)) n_ints.
Definition intersect_count (data : list Z) (n_vectors n_ints : Z) : Z :=
  sum_list (map (pair_count data n_ints) (all_pairs n_vectors)).

(** A host with AVX2: CPUID reports OSXSAVE, SSE4.1, POPCNT and AVX2, and
    XCR0 enables the SSE and YMM state. *)
Definition avx2_host : host :=
  {| run_cpuid := fun eax _ =>
       if eax =? 1 then [0; 0; Z.lor (Z.shiftl 1 27) (Z.lor bit_SSE41 bit_POPCNT); 0]
       else [0; bit_AVX2; 0; 0];
     get_xcr0 := Z.lor XSTATE_SSE XSTATE_YMM |}.

(** The side tables of a bundle of one-word vectors: for every vector the
    number of its set bits and, from its offset on, their positions in
    ascending order. *)
Definition side_tables (data : list Z) (N : Z) (n_alts alt_pos alt_offsets : list Z) : Prop :=
  forall i, 0 <= i < N ->
    n_alts.[i] = Z.of_nat (length (set_bits (vector data 1 i) 1)) /\
    forall k, 0 <= k < n_alts.[i] ->
      (ptr alt_pos alt_offsets.[i]).[k] = (set_bits (vector data 1 i) 1).[k].

(** * Properties *)

(** ** Loops *)

Lemma while_inv {S : Type} (P : S -> Prop) (m : S -> nat) (cond : S -> bool)
  (body : S -> option S) :
  (forall s, P s -> cond s = true ->
             exists s', body s = Some s' /\ P s' /\ (m s' < m s)%nat) ->
  forall fuel s, P s -> (m s < fuel)%nat ->
  exists s', while fuel cond body s = Some s' /\ P s' /\ cond s' = false.
Proof.
  intros Hstep fuel.
  induction fuel as [|fuel IH]; intros s Hs Hm; [lia|].
  simpl. destruct (cond s) eqn:Hc.
  - destruct (Hstep s Hs Hc) as (s' & -> & Hs' & Hlt).
    apply IH; [assumption|lia].
  - exists s. auto.
Qed.

Lemma iter_from_app {S : Type} (body : Z -> S -> S) :
  forall n m x s,
    iter_from (n + m) x body s = iter_from m (x + Z.of_nat n) body (iter_from n x body s).
Proof.
  induction n as [|n IH]; intros m x s; simpl.
  - f_equal. lia.
  - rewrite IH. f_equal. lia.
Qed.

Lemma iter_from_ext {S : Type} (f g : Z -> S -> S) :
  forall n x s,
    (forall y t, x <= y < x + Z.of_nat n -> f y t = g y t) ->
    iter_from n x f s = iter_from n x g s.
Proof.
  induction n as [|n IH]; intros x s H; simpl; [reflexivity|].
  rewrite H by lia. apply IH. intros; apply H; lia.
Qed.

Lemma for_range_empty {S : Type} (body : Z -> S -> S) lo hi s :
  hi <= lo -> for_range lo hi body s = s.
Proof.
  intros H. unfold for_range. replace (Z.to_nat (hi - lo)) with O by lia. reflexivity.
Qed.

Lemma for_range_first {S : Type} (body : Z -> S -> S) lo hi s :
  lo < hi -> for_range lo hi body s = for_range (lo + 1) hi body (body lo s).
Proof.
  intros H. unfold for_range.
  replace (Z.to_nat (hi - lo)) with (Datatypes.S (Z.to_nat (hi - (lo + 1)))) by lia.
  reflexivity.
Qed.

Lemma for_range_split {S : Type} (body : Z -> S -> S) lo mid hi s :
  lo <= mid <= hi ->
  for_range lo hi body s = for_range mid hi body (for_range lo mid body s).
Proof.
  intros H. unfold for_range.
  replace (Z.to_nat (hi - lo)) with (Z.to_nat (mid - lo) + Z.to_nat (hi - mid))%nat by lia.
  rewrite iter_from_app. f_equal. lia.
Qed.

Lemma for_range_last {S : Type} (body : Z -> S -> S) lo hi s :
  lo <= hi -> for_range lo (hi + 1) body s = body hi (for_range lo hi body s).
Proof.
  intros H. rewrite (for_range_split body lo hi (hi + 1)) by lia.
  rewrite (for_range_first body hi) by lia. apply for_range_empty. lia.
Qed.

Lemma for_range_final {S : Type} (body : Z -> S -> S) lo hi s :
  lo < hi -> for_range lo hi body s = body (hi - 1) (for_range lo (hi - 1) body s).
Proof.
  intros H. rewrite <- for_range_last by lia. f_equal. lia.
Qed.

Lemma for_range_ext {S : Type} (f g : Z -> S -> S) lo hi s :
  (forall y t, lo <= y < hi -> f y t = g y t) ->
  for_range lo hi f s = for_range lo hi g s.
Proof.
  intros H. unfold for_range. apply iter_from_ext. intros; apply H; lia.
Qed.

(** ** Population count and sums *)

Lemma popcount_bits_bounds n x : 0 <= popcount_bits n x <= Z.of_nat n.
Proof.
  induction n as [|n IH]; simpl popcount_bits; [lia|].
  destruct (Z.testbit x (Z.of_nat n)); simpl Z.b2z; lia.
Qed.

Lemma FIC_POPCOUNT_bounds x : 0 <= FIC_POPCOUNT x <= 64.
Proof. apply (popcount_bits_bounds 64). Qed.

Lemma sum_upto_ext n g h :
  (forall k, 0 <= k < Z.of_nat n -> g k = h k) -> sum_upto n g = sum_upto n h.
Proof.
  induction n as [|n IH]; intros H; simpl; [reflexivity|].
  rewrite IH, H by (try intros; try apply H; lia). reflexivity.
Qed.

Lemma sum_upto_bounds n g c :
  (forall k, 0 <= k < Z.of_nat n -> 0 <= g k <= c) ->
  0 <= sum_upto n g <= c * Z.of_nat n.
Proof.
  induction n as [|n IH]; intros H; simpl; [lia|].
  assert (0 <= g (Z.of_nat n) <= c) by (apply H; lia).
  assert (0 <= sum_upto n g <= c * Z.of_nat n) by (apply IH; intros; apply H; lia).
  lia.
Qed.

Lemma sum_upto_and_popcount_bounds b1 b2 n :
  0 <= sum_upto n (and_popcount b1 b2) <= 64 * Z.of_nat n.
Proof.
  apply sum_upto_bounds. intros. apply FIC_POPCOUNT_bounds.
Qed.

Lemma u64_small x : 0 <= x < 2 ^ 64 -> u64 x = x.
Proof. intros. unfold u64. apply Z.mod_small. assumption. Qed.

Lemma u32_small x : 0 <= x < 2 ^ 32 -> u32 x = x.
Proof. intros. unfold u32. apply Z.mod_small. assumption. Qed.

(** ** The scalar kernel *)

(** One step of the scalar accumulation extends the sum by one word. *)
Lemma and_popcount_step_sum b1 b2 i :
  0 <= i < 2 ^ 32 ->
  and_popcount_step b1 b2 i (sum_upto (Z.to_nat i) (and_popcount b1 b2))
  = sum_upto (Z.to_nat (i + 1)) (and_popcount b1 b2).
Proof.
  intros Hi. unfold and_popcount_step.
  change (FIC_POPCOUNT (Z.land b1.[i] b2.[i])) with (and_popcount b1 b2 i).
  replace (Z.to_nat (i + 1)) with (Datatypes.S (Z.to_nat i)) by lia.
  simpl sum_upto. rewrite Z2Nat.id by lia.
  pose proof (sum_upto_and_popcount_bounds b1 b2 (Z.to_nat i)) as Hs.
  rewrite Z2Nat.id in Hs by lia.
  pose proof (FIC_POPCOUNT_bounds (Z.land b1.[i] b2.[i])) as Hp.
  change (FIC_POPCOUNT (Z.land b1.[i] b2.[i])) with (and_popcount b1 b2 i) in Hp.
  apply u64_small.
  change (2 ^ 64) with 18446744073709551616. change (2 ^ 32) with 4294967296 in Hi. lia.
Qed.

(** The word-at-a-time tail loop, started on the sum of the words before
    [lo], ends on the sum of the words before [hi]. *)
Lemma for_range_and_popcount b1 b2 lo hi :
  0 <= lo <= hi -> hi < 2 ^ 32 ->
  for_range lo hi (and_popcount_step b1 b2) (sum_upto (Z.to_nat lo) (and_popcount b1 b2))
  = sum_upto (Z.to_nat hi) (and_popcount b1 b2).
Proof.
  intros Hlo Hhi.
  assert (H : forall k, (k <= Z.to_nat (hi - lo))%nat ->
            iter_from k lo (and_popcount_step b1 b2)
              (sum_upto (Z.to_nat lo) (and_popcount b1 b2))
            = sum_upto (Z.to_nat lo + k) (and_popcount b1 b2)).
  { induction k as [|k IH]; intros Hk.
    - simpl. rewrite Nat.add_0_r. reflexivity.
    - replace (Datatypes.S k) with (k + 1)%nat by lia.
      rewrite iter_from_app, IH by lia. simpl iter_from.
      replace (Z.to_nat lo + k)%nat with (Z.to_nat (lo + Z.of_nat k)) by lia.
      rewrite and_popcount_step_sum by lia. f_equal. lia. }
  unfold for_range. rewrite H by lia. f_equal. lia.
Qed.

(** The unrolled loop and the tail of the scalar kernel together add the
    terms of all the words. *)
Lemma intersect_bitmaps_scalar_words (b1 b2 : list Z) (n_ints : Z) :
  0 <= n_ints <= INT_MAX ->
  intersect_bitmaps_scalar b1 b2 n_ints
  = Some (sum_upto (Z.to_nat n_ints) (and_popcount b1 b2)).
Proof.
  intros Hn. unfold INT_MAX in Hn. unfold intersect_bitmaps_scalar.
  set (inv := fun s : Z * Z =>
                0 <= fst s <= n_ints /\
                snd s = sum_upto (Z.to_nat (fst s)) (and_popcount b1 b2)).
  match goal with
  | |- context [while ?k ?cond ?body ?s0] =>
      destruct (fun H => while_inv inv (fun s => Z.to_nat (n_ints - fst s)) cond body H k s0)
        as ((i, count) & -> & (Hi & Hc) & _)
  end.
  - intros (i, count) (Hi & Hc) Hcond. simpl in Hi, Hc.
    apply Z.ltb_lt in Hcond.
    eexists; split; [reflexivity|]. unfold inv; simpl. repeat split; try lia.
    subst count. rewrite Z.add_0_r.
    rewrite and_popcount_step_sum by lia.
    rewrite and_popcount_step_sum by lia.
    replace (i + 2) with (i + 1 + 1) by lia. rewrite and_popcount_step_sum by lia.
    replace (i + 3) with (i + 1 + 1 + 1) by lia. rewrite and_popcount_step_sum by lia.
    f_equal. lia.
  - unfold inv; simpl. split; [lia|reflexivity].
  - simpl. lia.
  - simpl in Hi, Hc. simpl obind. subst count.
    rewrite for_range_and_popcount by lia. reflexivity.
Qed.

(** C5. For every pair of word arrays and every word count [n_ints] that the
    [int] counter of the kernel can reach (0 and counts that are not a
    multiple of 4 included), [intersect_bitmaps_scalar] returns exactly the
    sum over [i < n_ints] of [popcount(b1[i] & b2[i])]. *)
Theorem intersect_bitmaps_scalar_sum (b1 b2 : list Z) (n_ints : Z) :
  0 <= n_ints <= INT_MAX ->
  intersect_bitmaps_scalar b1 b2 n_ints
  = Some (sum_upto (Z.to_nat n_ints) (and_popcount b1 b2)).
Proof. exact (intersect_bitmaps_scalar_words b1 b2 n_ints). Qed.

Lemma intersect_bitmaps_scalar_sum_witness :
  0 <= 5 <= INT_MAX /\
  intersect_bitmaps_scalar [7; 5; 3; 1; 15] [6; 4; 1; 0; 255] 5
  = Some (sum_upto 5 (and_popcount [7; 5; 3; 1; 15] [6; 4; 1; 0; 255])).
Proof.
  assert (H : 0 <= 5 <= INT_MAX) by (unfold INT_MAX; lia).
  split; [exact H|].
  exact (intersect_bitmaps_scalar_sum [7; 5; 3; 1; 15] [6; 4; 1; 0; 255] 5 H).
Defined.

(** ** Carry-save adders *)

Lemma map2_length {A B C : Type} (f : A -> B -> C) :
  forall l1 l2, length l1 = length l2 -> length (map2 f l1 l2) = length l1.
Proof.
  induction l1 as [|a l1 IH]; destruct l2 as [|b l2]; simpl; intros H; try congruence.
  f_equal. apply IH. congruence.
Qed.

Lemma map2_nth {A B C : Type} (f : A -> B -> C) (da : A) (db : B) (dc : C) :
  forall l1 l2 k,
    (k < length l1)%nat -> (k < length l2)%nat ->
    nth k (map2 f l1 l2) dc = f (nth k l1 da) (nth k l2 db).
Proof.
  induction l1 as [|a l1 IH]; destruct l2 as [|b l2]; simpl; intros k H1 H2; try lia.
  destruct k as [|k]; [reflexivity|]. apply IH; lia.
Qed.

Lemma map3_nth {A B C D : Type} (f : A -> B -> C -> D) (da : A) (db : B) (dc : C) (dd : D) :
  forall l1 l2 l3 k,
    (k < length l1)%nat -> (k < length l2)%nat -> (k < length l3)%nat ->
    nth k (map3 f l1 l2 l3) dd = f (nth k l1 da) (nth k l2 db) (nth k l3 dc).
Proof.
  induction l1 as [|a l1 IH]; destruct l2 as [|b l2]; destruct l3 as [|c l3];
    simpl; intros k H1 H2 H3; try lia.
  destruct k as [|k]; [reflexivity|]. apply IH; lia.
Qed.

Lemma bits_upto_testbit n g i :
  0 <= i -> Z.testbit (bits_upto n g) i = (i <? Z.of_nat n) && g i.
Proof.
  intros Hi. induction n as [|n IH].
  - cbn [bits_upto]. rewrite Z.testbit_0_l.
    destruct (Z.ltb_spec i (Z.of_nat 0)); [lia|reflexivity].
  - cbn [bits_upto]. rewrite Nat2Z.inj_succ.
    destruct (g (Z.of_nat n)) eqn:Hg.
    + rewrite Z.setbit_eqb by lia. rewrite IH.
      destruct (Z.eqb_spec (Z.of_nat n) i) as [E|Hne],
               (Z.ltb_spec i (Z.of_nat n)), (Z.ltb_spec i (Z.succ (Z.of_nat n)));
        cbn [orb andb]; try lia; try reflexivity.
      rewrite <- E, Hg. reflexivity.
    + rewrite IH.
      destruct (Z.ltb_spec i (Z.of_nat n)), (Z.ltb_spec i (Z.succ (Z.of_nat n)));
        cbn [andb]; try lia; try reflexivity.
      replace i with (Z.of_nat n) by lia. rewrite Hg. reflexivity.
Qed.

Lemma reg_bit_map2 (f : Z -> Z -> Z) (g : bool -> bool -> bool) (a b : reg) i :
  (forall x y j, Z.testbit (f x y) j = g (Z.testbit x j) (Z.testbit y j)) ->
  0 <= i < 64 * Z.of_nat (length a) -> length a = length b ->
  reg_bit (map2 f a b) i = g (reg_bit a i) (reg_bit b i).
Proof.
  intros Hf Hi Hlen. unfold reg_bit.
  rewrite (map2_nth f 0 0 0) by (try rewrite <- Hlen; apply Nat2Z.inj_lt;
    rewrite Z2Nat.id by (apply Z.div_pos; lia); apply Z.div_lt_upper_bound; lia).
  apply Hf.
Qed.

Lemma reg_bit_and a b i :
  0 <= i < 64 * Z.of_nat (length a) -> length a = length b ->
  reg_bit (v_and a b) i = reg_bit a i && reg_bit b i.
Proof. apply reg_bit_map2. intros. apply Z.land_spec. Qed.

Lemma reg_bit_or a b i :
  0 <= i < 64 * Z.of_nat (length a) -> length a = length b ->
  reg_bit (v_or a b) i = reg_bit a i || reg_bit b i.
Proof. apply reg_bit_map2. intros. apply Z.lor_spec. Qed.

Lemma reg_bit_xor a b i :
  0 <= i < 64 * Z.of_nat (length a) -> length a = length b ->
  reg_bit (v_xor a b) i = xorb (reg_bit a i) (reg_bit b i).
Proof. apply reg_bit_map2. intros. apply Z.lxor_spec. Qed.

Lemma reg_bit_ternarylogic a b c imm8 i :
  0 <= i < 64 * Z.of_nat (length a) -> length a = length b -> length a = length c ->
  reg_bit (ternarylogic a b c imm8) i
  = ternary_bit imm8 (reg_bit a i) (reg_bit b i) (reg_bit c i).
Proof.
  intros Hi Hb Hc. unfold reg_bit, ternarylogic.
  assert (Hk : (Z.to_nat (i / 64) < length a)%nat).
  { apply Nat2Z.inj_lt. rewrite Z2Nat.id by (apply Z.div_pos; lia).
    apply Z.div_lt_upper_bound; lia. }
  rewrite (map3_nth _ 0 0 0 0) by (try rewrite <- Hb; try rewrite <- Hc; exact Hk).
  assert (0 <= i mod 64 < 64) by (apply Z.mod_pos_bound; lia).
  rewrite bits_upto_testbit by lia.
  destruct (Z.ltb_spec (i mod 64) (Z.of_nat 64)); [reflexivity|lia].
Qed.

(** The adder written with and, or and xor, at any number of lanes. *)
Lemma csa_bitwise_spec lanes :
  csa_spec lanes (fun a b c =>
                    let u := v_xor a b in (v_or (v_and a b) (v_and u c), v_xor u c)).
Proof.
  intros a b c Ha Hb Hc i Hi. cbn [fst snd].
  assert (Hu : length (v_xor a b) = lanes)
    by (unfold v_xor; rewrite map2_length; congruence).
  assert (Hab : length (v_and a b) = lanes)
    by (unfold v_and; rewrite map2_length; congruence).
  assert (Huc : length (v_and (v_xor a b) c) = lanes)
    by (unfold v_and at 1; rewrite map2_length; congruence).
  split.
  - rewrite reg_bit_xor, reg_bit_xor by (try rewrite Hu; try rewrite Ha; congruence || lia).
    reflexivity.
  - rewrite reg_bit_or, reg_bit_and, reg_bit_and, reg_bit_xor
      by (try rewrite Hab; try rewrite Hu; try rewrite Ha; congruence || lia).
    reflexivity.
Qed.

Lemma CSA128_spec : csa_spec 2 CSA128.
Proof. exact (csa_bitwise_spec 2). Qed.

Lemma CSA256_spec : csa_spec 4 CSA256.
Proof. exact (csa_bitwise_spec 4). Qed.

(** The truth tables 0x96 and 0xe8 are those of the sum and of the carry. *)
Lemma ternary_0x96 a b c : ternary_bit 0x96 c b a = csa_low a b c.
Proof. destruct a, b, c; reflexivity. Qed.

Lemma ternary_0xe8 a b c : ternary_bit 0xe8 c b a = csa_high a b c.
Proof. destruct a, b, c; reflexivity. Qed.

Lemma CSA512_spec : csa_spec 8 CSA512.
Proof.
  intros a b c Ha Hb Hc i Hi. unfold CSA512, _mm512_ternarylogic_epi32. cbn [fst snd].
  rewrite !reg_bit_ternarylogic by (try rewrite Hc; congruence || lia).
  rewrite ternary_0x96, ternary_0xe8. split; reflexivity.
Qed.

(** C6. At every lane width the carry-save adder yields [l = a xor b xor c]
    and [h = (a and b) or ((a xor b) and c)], bit by bit; for the 512-bit
    adder these are the two ternary-logic operations with the truth tables
    0x96 and 0xe8 on the operands [(c, b, a)]. *)
Theorem CSA_all_widths :
  csa_spec 2 CSA128 /\ csa_spec 4 CSA256 /\ csa_spec 8 CSA512 /\
  (forall a b c : reg,
      CSA512 a b c = (ternarylogic c b a 0xe8, ternarylogic c b a 0x96)) /\
  (forall a b c : bool,
      ternary_bit 0x96 c b a = csa_low a b c /\ ternary_bit 0xe8 c b a = csa_high a b c).
Proof.
  split; [exact CSA128_spec|]. split; [exact CSA256_spec|]. split; [exact CSA512_spec|].
  split; [reflexivity|]. intros a b c. split; [apply ternary_0x96|apply ternary_0xe8].
Qed.

Lemma CSA_all_widths_witness :
  0 <= 449 < 64 * Z.of_nat 8 /\
  reg_bit (snd (CSA512 [5; 0; 0; 0; 0; 0; 0; 9] [3; 0; 0; 0; 0; 0; 0; 10] [1; 0; 0; 0; 0; 0; 0; 12])) 449
  = csa_low (reg_bit [5; 0; 0; 0; 0; 0; 0; 9] 449) (reg_bit [3; 0; 0; 0; 0; 0; 0; 10] 449) (reg_bit [1; 0; 0; 0; 0; 0; 0; 12] 449) /\
  reg_bit (fst (CSA512 [5; 0; 0; 0; 0; 0; 0; 9] [3; 0; 0; 0; 0; 0; 0; 10] [1; 0; 0; 0; 0; 0; 0; 12])) 449
  = csa_high (reg_bit [5; 0; 0; 0; 0; 0; 0; 9] 449) (reg_bit [3; 0; 0; 0; 0; 0; 0; 10] 449) (reg_bit [1; 0; 0; 0; 0; 0; 0; 12] 449).
Proof.
  assert (Hi : 0 <= 449 < 64 * Z.of_nat 8) by (cbn; lia).
  split; [exact Hi|].
  exact (proj1 (proj2 (proj2 CSA_all_widths)) [5; 0; 0; 0; 0; 0; 0; 9] [3; 0; 0; 0; 0; 0; 0; 10] [1; 0; 0; 0; 0; 0; 0; 12]
           eq_refl eq_refl eq_refl 449 Hi).
Defined.

(** ** The loop nests of the drivers *)

Lemma u32_add_l a b : u32 (u32 a + b) = u32 (a + b).
Proof. unfold u32. apply Zplus_mod_idemp_l. Qed.

Lemma range_empty lo hi : hi <= lo -> range lo hi = [].
Proof. intros H. unfold range. replace (Z.to_nat (hi - lo)) with O by lia. reflexivity. Qed.

Lemma range_first lo hi : lo < hi -> range lo hi = lo :: range (lo + 1) hi.
Proof.
  intros H. unfold range.
  replace (Z.to_nat (hi - lo)) with (Datatypes.S (Z.to_nat (hi - (lo + 1)))) by lia.
  cbn [seq map]. f_equal; [lia|].
  rewrite <- seq_shift, map_map. apply map_ext. intros k. lia.
Qed.

Lemma range_In lo hi x : In x (range lo hi) <-> lo <= x < hi.
Proof.
  unfold range. rewrite in_map_iff. split.
  - intros (k & <- & Hk). apply in_seq in Hk. lia.
  - intros H. exists (Z.to_nat (x - lo)). split; [lia|]. apply in_seq. lia.
Qed.

Lemma range_app lo mid hi : lo <= mid <= hi -> range lo hi = range lo mid ++ range mid hi.
Proof.
  intros H. remember (Z.to_nat (mid - lo)) as n eqn:Hn.
  revert lo Hn H. induction n as [|n IH]; intros lo Hn H.
  - replace mid with lo by lia. rewrite (range_empty lo lo) by lia. reflexivity.
  - rewrite (range_first lo hi), (range_first lo mid) by lia.
    cbn [app]. f_equal. apply IH; lia.
Qed.

Lemma range_shift d lo hi : map (fun x => d + x) (range lo hi) = range (d + lo) (d + hi).
Proof.
  unfold range. rewrite map_map.
  replace (d + hi - (d + lo)) with (hi - lo) by lia.
  apply map_ext. intros k. lia.
Qed.

Lemma fold_left_ext_in {A B : Type} (f g : A -> B -> A) (l : list B) :
  (forall a x, In x l -> f a x = g a x) ->
  forall a, fold_left f l a = fold_left g l a.
Proof.
  induction l as [|x l IH]; intros H a; cbn [fold_left]; [reflexivity|].
  rewrite H by (left; reflexivity). apply IH. intros; apply H; right; assumption.
Qed.

Lemma fold_left_map {A B C : Type} (f : A -> C -> A) (h : B -> C) (l : list B) :
  forall a, fold_left f (map h l) a = fold_left (fun a x => f a (h x)) l a.
Proof. induction l as [|x l IH]; intros a; cbn [map fold_left]; [reflexivity|apply IH]. Qed.

Lemma fold_left_flat_map {A B C : Type} (f : A -> C -> A) (h : B -> list C) (l : list B) :
  forall a, fold_left f (flat_map h l) a = fold_left (fun a x => fold_left f (h x) a) l a.
Proof.
  induction l as [|x l IH]; intros a; cbn [flat_map fold_left]; [reflexivity|].
  rewrite fold_left_app. apply IH.
Qed.

(** A loop that advances an offset by [W] words per step: the offset at step
    [x] is known, and the loop is a fold over the range of its counter. *)
Lemma for_range_offsets {T : Type} (W : Z) (g : Z -> Z -> T -> T) (lo hi o : Z) (t : T) :
  lo <= hi ->
  for_range lo hi (fun x '(ofs, t) => (u32 (ofs + W), g x ofs t)) (u32 o, t)
  = (u32 (o + (hi - lo) * W),
     fold_left (fun t x => g x (u32 (o + (x - lo) * W)) t) (range lo hi) t).
Proof.
  intros H. remember (Z.to_nat (hi - lo)) as n eqn:Hn.
  revert lo o t Hn H. induction n as [|n IH]; intros lo o t Hn H.
  - rewrite for_range_empty, range_empty by lia. cbn [fold_left].
    replace hi with lo by lia. do 2 f_equal. ring.
  - rewrite for_range_first, range_first by lia. cbn [fold_left].
    rewrite u32_add_l. rewrite IH by lia. f_equal.
    + f_equal. ring.
    + replace (o + (lo - lo) * W) with o by ring.
      apply fold_left_ext_in. intros a x _. do 2 f_equal. ring.
Qed.

Lemma fold_pairs_app {T : Type} (site : Z -> Z -> Z -> Z -> T -> T) W ps qs t :
  fold_pairs site W (ps ++ qs) t = fold_pairs site W qs (fold_pairs site W ps t).
Proof. unfold fold_pairs. apply fold_left_app. Qed.

Section LoopNests.
Context {T : Type}.
Variable site : Z -> Z -> Z -> Z -> T -> T.
Variables N W : Z.

Lemma fold_pairs_row a cols t :
  fold_pairs site W (map (fun b => (a, b)) cols) t
  = fold_left (fun t b => site a b (u32 (a * W)) (u32 (b * W)) t) cols t.
Proof. unfold fold_pairs. rewrite fold_left_map. reflexivity. Qed.

Lemma fold_pairs_column b rows t :
  fold_pairs site W (map (fun a => (a, b)) rows) t
  = fold_left (fun t a => site a b (u32 (a * W)) (u32 (b * W)) t) rows t.
Proof. unfold fold_pairs. rewrite fold_left_map. reflexivity. Qed.

Lemma fold_pairs_triangle lo hi t :
  fold_pairs site W (triangle lo hi) t
  = fold_left
      (fun t a =>
         fold_left (fun t b => site a b (u32 (a * W)) (u32 (b * W)) t) (range (a + 1) hi) t)
      (range lo hi) t.
Proof.
  unfold triangle. unfold fold_pairs at 1. rewrite fold_left_flat_map.
  apply fold_left_ext_in. intros t' a _. apply fold_pairs_row.
Qed.

Lemma residual_tail_pairs i t :
  0 <= i <= N ->
  residual_tail site N W i t = fold_pairs site W (triangle i N) t.
Proof.
  intros Hi. unfold residual_tail. rewrite fold_pairs_triangle.
  rewrite for_range_offsets by lia. cbn [snd].
  apply fold_left_ext_in. intros t' a Ha. apply range_In in Ha.
  rewrite u32_add_l.
  destruct (Z.le_gt_cases (a + 1) N) as [Hle|Hgt].
  - rewrite for_range_offsets by lia. cbn [snd].
    apply fold_left_ext_in. intros t'' b Hb. f_equal; f_equal; ring.
  - lia.
Qed.

Lemma direct_loops_pairs t :
  0 <= N -> direct_loops site N W t = fold_pairs site W (all_pairs N) t.
Proof.
  intros HN. unfold direct_loops, all_pairs. rewrite fold_pairs_triangle.
  replace (0, t) with (u32 0, t) by reflexivity.
  rewrite for_range_offsets by lia. cbn [snd].
  apply fold_left_ext_in. intros t' a Ha. apply range_In in Ha.
  rewrite u32_add_l.
  rewrite for_range_offsets by lia. cbn [snd].
  apply fold_left_ext_in. intros t'' b Hb. f_equal; f_equal; ring.
Qed.

Lemma fold_left_range_shift {A : Type} (f : A -> Z -> A) d lo hi t :
  fold_left f (range (d + lo) (d + hi)) t
  = fold_left (fun t x => f t (d + x)) (range lo hi) t.
Proof. rewrite <- range_shift, fold_left_map. reflexivity. Qed.

Lemma diagonal_pairs B i t :
  0 <= i -> 0 <= B -> i + B <= UINT32_MAX + 1 ->
  diagonal site W B i t = fold_pairs site W (triangle i (i + B)) t.
Proof.
  unfold UINT32_MAX. intros Hi HB Hmax. unfold diagonal. rewrite fold_pairs_triangle.
  rewrite for_range_offsets by lia. cbn [snd].
  replace (range i (i + B)) with (range (i + 0) (i + B)) by (f_equal; lia).
  rewrite fold_left_range_shift.
  apply fold_left_ext_in. intros t' j Hj. apply range_In in Hj.
  rewrite u32_add_l.
  rewrite for_range_offsets by lia. cbn [snd].
  replace (i + j + 1) with (i + (j + 1)) by ring. rewrite fold_left_range_shift.
  apply fold_left_ext_in. intros t'' jj Hjj. apply range_In in Hjj.
  rewrite !u32_small by lia.
  f_equal; f_equal; ring.
Qed.

Lemma square_pairs B curi j t :
  0 <= curi -> 0 <= j -> 0 <= B ->
  curi + B <= UINT32_MAX + 1 -> j + B <= UINT32_MAX + 1 ->
  square site W B curi j t
  = fold_pairs site W (rect_rows (range curi (curi + B)) (range j (j + B))) t.
Proof.
  unfold UINT32_MAX. intros Hc Hj HB Hcmax Hjmax. unfold square, rect_rows.
  unfold fold_pairs at 1. rewrite fold_left_flat_map.
  rewrite for_range_offsets by lia. cbn [snd].
  replace (range curi (curi + B)) with (range (curi + 0) (curi + B)) by (f_equal; lia).
  rewrite fold_left_range_shift.
  apply fold_left_ext_in. intros t' ii Hii. apply range_In in Hii.
  rewrite for_range_offsets by lia. cbn [snd].
  fold (fold_pairs site W (map (fun b => (curi + ii, b)) (range j (j + B))) t').
  rewrite fold_pairs_row.
  replace (range j (j + B)) with (range (j + 0) (j + B)) by (f_equal; lia).
  rewrite fold_left_range_shift.
  apply fold_left_ext_in. intros t'' jj Hjj. apply range_In in Hjj.
  rewrite !u32_small by lia.
  f_equal; f_equal; ring.
Qed.

Lemma residual_pairs B curi j t :
  0 <= curi -> 0 <= j <= N -> 0 <= B -> curi + B <= UINT32_MAX + 1 ->
  residual site N W B curi j t
  = fold_pairs site W (rect_cols (range curi (curi + B)) (range j N)) t.
Proof.
  unfold UINT32_MAX. intros Hc Hj HB Hcmax. unfold residual, rect_cols.
  unfold fold_pairs at 1. rewrite fold_left_flat_map.
  rewrite for_range_offsets by lia. cbn [snd].
  apply fold_left_ext_in. intros t' b Hb. apply range_In in Hb.
  rewrite for_range_offsets by lia. cbn [snd].
  fold (fold_pairs site W (map (fun a => (a, b)) (range curi (curi + B))) t').
  rewrite fold_pairs_column.
  replace (range curi (curi + B)) with (range (curi + 0) (curi + B)) by (f_equal; lia).
  rewrite fold_left_range_shift.
  apply fold_left_ext_in. intros t'' jj Hjj. apply range_In in Hjj.
  rewrite !u32_small by lia.
  f_equal; f_equal; ring.
Qed.
End LoopNests.

(** ** Counting the visited pairs *)

Ltac ind_cases :=
  repeat match goal with
    | |- context [Z.leb ?x ?y] => destruct (Z.leb_spec x y)
    | |- context [Z.ltb ?x ?y] => destruct (Z.ltb_spec x y)
    | |- context [Z.eqb ?x ?y] => destruct (Z.eqb_spec x y)
    end;
  cbn [ind andb orb negb Nat.add Nat.mul]; try reflexivity; try lia.

Lemma count_range lo hi x :
  count_occ Z.eq_dec (range lo hi) x = ind ((lo <=? x) && (x <? hi)).
Proof.
  remember (Z.to_nat (hi - lo)) as n eqn:Hn.
  revert lo Hn. induction n as [|n IH]; intros lo Hn.
  - rewrite range_empty by lia. cbn [count_occ]. ind_cases.
  - rewrite range_first by lia. cbn [count_occ].
    destruct (Z.eq_dec lo x) as [E|E]; rewrite IH by lia; ind_cases.
Qed.

Lemma count_row a cols a' b' :
  count_occ pair_eq_dec (map (fun b => (a, b)) cols) (a', b')
  = (ind (Z.eqb a a') * count_occ Z.eq_dec cols b')%nat.
Proof.
  induction cols as [|c cols IH]; cbn [map count_occ]; [lia|].
  rewrite IH.
  destruct (pair_eq_dec (a, c) (a', b')) as [E|E], (Z.eq_dec c b') as [E'|E'];
    destruct (Z.eqb_spec a a'); cbn [ind]; try lia; try congruence.
Qed.

Lemma count_column b rows a' b' :
  count_occ pair_eq_dec (map (fun a => (a, b)) rows) (a', b')
  = (count_occ Z.eq_dec rows a' * ind (Z.eqb b b'))%nat.
Proof.
  induction rows as [|c rows IH]; cbn [map count_occ]; [lia|].
  rewrite IH.
  destruct (pair_eq_dec (c, b) (a', b')) as [E|E], (Z.eq_dec c a') as [E'|E'];
    destruct (Z.eqb_spec b b'); cbn [ind]; try lia; try congruence.
Qed.

Lemma count_rect_rows rows cols a b :
  count_occ pair_eq_dec (rect_rows rows cols) (a, b)
  = (count_occ Z.eq_dec rows a * count_occ Z.eq_dec cols b)%nat.
Proof.
  unfold rect_rows. induction rows as [|r rows IH]; cbn [flat_map count_occ]; [lia|].
  rewrite count_occ_app, IH, count_row.
  destruct (Z.eq_dec r a), (Z.eqb_spec r a); cbn [ind]; try lia; congruence.
Qed.

Lemma count_rect_cols rows cols a b :
  count_occ pair_eq_dec (rect_cols rows cols) (a, b)
  = (count_occ Z.eq_dec rows a * count_occ Z.eq_dec cols b)%nat.
Proof.
  unfold rect_cols. induction cols as [|c cols IH]; cbn [flat_map count_occ]; [lia|].
  rewrite count_occ_app, IH, count_column.
  destruct (Z.eq_dec c b), (Z.eqb_spec c b); cbn [ind]; try lia; congruence.
Qed.

Lemma triangle_first lo hi :
  lo < hi ->
  triangle lo hi = map (fun b => (lo, b)) (range (lo + 1) hi) ++ triangle (lo + 1) hi.
Proof. intros H. unfold triangle. rewrite (range_first lo hi) by lia. reflexivity. Qed.

Lemma count_triangle lo hi a b :
  count_occ pair_eq_dec (triangle lo hi) (a, b) = ind ((lo <=? a) && (a <? b) && (b <? hi)).
Proof.
  remember (Z.to_nat (hi - lo)) as n eqn:Hn.
  revert lo Hn. induction n as [|n IH]; intros lo Hn.
  - unfold triangle. rewrite range_empty by lia. cbn [flat_map count_occ]. ind_cases.
  - rewrite triangle_first by lia.
    rewrite count_occ_app, count_row, count_range, IH by lia. ind_cases.
Qed.

(** The pairs of [all_pairs N] are the pairs [(a, b)] with [0 <= a < b < N],
    each once. *)
Lemma count_all_pairs N a b :
  count_occ pair_eq_dec (all_pairs N) (a, b) = ind ((0 <=? a) && (a <? b) && (b <? N)).
Proof. apply count_triangle. Qed.

Section Visits.
Context {T : Type}.
Variable site : Z -> Z -> Z -> Z -> T -> T.
Variables (N W B : Z) (t0 : T).
Hypothesis HN : 0 <= N <= UINT32_MAX.
Hypothesis HB : 1 <= B <= UINT32_MAX.
Hypothesis Hwrap : B <= N -> N + B <= UINT32_MAX.

Lemma visited_more F G ps total :
  visited site W t0 F total ->
  (forall a b, (F a b + count_occ pair_eq_dec ps (a, b))%nat = G a b) ->
  visited site W t0 G (fold_pairs site W ps total).
Proof.
  intros (vs & -> & Hvs) HG. exists (vs ++ ps). split.
  - symmetry. apply fold_pairs_app.
  - intros a b. rewrite count_occ_app, Hvs. apply HG.
Qed.

Lemma squares_visited i total :
  0 <= i -> i + B <= N ->
  visited site W t0 (within N B i (i + B)) total ->
  exists j total',
    squares site N W B i total = Some (j, total') /\
    i + B <= j <= N /\ N < j + B /\
    visited site W t0 (within N B i j) total'.
Proof.
  unfold UINT32_MAX in *. intros Hi HiB Hv. unfold squares.
  rewrite (u32_small (i + B)) by lia.
  match goal with
  | |- context [while ?k ?cond ?body ?s0] =>
      destruct (fun H =>
                  while_inv
                    (fun s => i + B <= fst s <= N /\
                              visited site W t0 (within N B i (fst s)) (snd s))
                    (fun s => Z.to_nat (N - fst s)) cond body H k s0)
        as ((j, total') & Hw & (Hj & Hv') & Hc)
  end.
  - intros (j, t) (Hj & Hv') Hc. cbn [fst snd] in *.
    rewrite (u32_small (j + B)) in * by lia. apply Z.leb_le in Hc.
    eexists; split; [reflexivity|]. cbn [fst snd]. repeat split; try lia.
    rewrite square_pairs by (unfold UINT32_MAX; lia).
    apply (visited_more _ _ _ _ Hv'). intros a b.
    rewrite count_rect_rows, !count_range. unfold within, before. ind_cases.
  - cbn [fst snd]. split; [lia|exact Hv].
  - cbn [fst]. lia.
  - cbn [fst snd] in *. exists j, total'. rewrite Hw.
    rewrite (u32_small (j + B)) in Hc by lia. apply Z.leb_gt in Hc.
    repeat split; try lia. exact Hv'.
Qed.

Lemma strips_visited :
  exists i total,
    strips site N W B t0 = Some (i, total) /\
    0 <= i <= N /\ visited site W t0 (before N i) total.
Proof.
  unfold UINT32_MAX in *. unfold strips.
  match goal with
  | |- context [while ?k ?cond ?body ?s0] =>
      destruct (fun H =>
                  while_inv
                    (fun s => 0 <= fst s <= N /\ (fst s = 0 \/ B <= N) /\
                              visited site W t0 (before N (fst s)) (snd s))
                    (fun s => Z.to_nat (N - fst s)) cond body H k s0)
        as ((i, total) & Hw & (Hi & _ & Hv) & _)
  end.
  - intros (i, t) (Hi & HB' & Hv) Hc. cbn [fst snd] in *.
    assert (HiB : i + B <= N).
    { destruct HB' as [->|HB'].
      - rewrite Z.add_0_l, (u32_small B) in Hc by lia. apply Z.leb_le in Hc. lia.
      - rewrite (u32_small (i + B)) in Hc by lia. apply Z.leb_le in Hc. lia. }
    assert (Hd : visited site W t0 (within N B i (i + B)) (diagonal site W B i t)).
    { rewrite diagonal_pairs by (unfold UINT32_MAX; lia).
      apply (visited_more _ _ _ _ Hv). intros a b.
      rewrite count_triangle. unfold within, before. ind_cases. }
    destruct (squares_visited i _ (proj1 Hi) HiB Hd) as (j & t' & -> & Hj & HjB & Hv').
    cbn [obind]. eexists; split; [reflexivity|]. cbn [fst snd].
    rewrite (u32_small (i + B)) by lia. repeat split; try lia.
    rewrite residual_pairs by (unfold UINT32_MAX; lia).
    apply (visited_more _ _ _ _ Hv'). intros a b.
    rewrite count_rect_cols, !count_range. unfold within, before. ind_cases.
  - cbn [fst snd]. repeat split; try lia.
    exists []. split; [reflexivity|]. intros a b. unfold before. cbn [count_occ]. ind_cases.
  - cbn [fst]. lia.
  - cbn [fst snd] in *. exists i, total. auto.
Qed.
End Visits.

Lemma remap_block_range B : 0 <= B <= UINT32_MAX -> 1 <= remap_block B <= UINT32_MAX.
Proof.
  unfold remap_block, UINT32_MAX. intros H.
  destruct (Z.eqb_spec B 0); lia.
Qed.

(** The blocked loop nest executes its site statement for a sequence of pairs
    that is a rearrangement of the unordered pairs. *)
Lemma blocked_loops_visits {T : Type} (site : Z -> Z -> Z -> Z -> T -> T) (N W B : Z) (t0 : T) :
  0 <= N <= UINT32_MAX -> 0 <= B <= UINT32_MAX -> strips_in_range N B ->
  exists vs,
    blocked_loops site N W B t0 = Some (fold_pairs site W vs t0) /\
    (forall a b,
        count_occ pair_eq_dec vs (a, b) = ind ((0 <=? a) && (a <? b) && (b <? N))) /\
    Permutation vs (all_pairs N).
Proof.
  intros HN HB Hwrap. unfold blocked_loops.
  fold (remap_block B).
  destruct (strips_visited site N W (remap_block B) t0 HN (remap_block_range B HB) Hwrap)
    as (i & total & -> & Hi & Hv).
  cbn [obind]. rewrite residual_tail_pairs by lia.
  destruct (visited_more site W t0 _
              (fun a b => ind ((0 <=? a) && (a <? b) && (b <? N))) (triangle i N) total Hv)
    as (vs & -> & Hvs).
  - intros a b. rewrite count_triangle. unfold before. ind_cases.
  - exists vs. split; [reflexivity|]. split; [exact Hvs|].
    apply (Permutation_count_occ pair_eq_dec). intros (a, b).
    rewrite Hvs, count_all_pairs. reflexivity.
Qed.

Lemma fold_left_Permutation {A B : Type} (f : A -> B -> A) :
  (forall a x y, f (f a x) y = f (f a y) x) ->
  forall l l', Permutation l l' -> forall a, fold_left f l a = fold_left f l' a.
Proof.
  intros Hf l l' HP. induction HP as [|x l l' HP IH|x y l|l l' l'' HP1 IH1 HP2 IH2];
    intros a; cbn [fold_left].
  - reflexivity.
  - apply IH.
  - rewrite Hf. reflexivity.
  - rewrite IH1. apply IH2.
Qed.

Lemma tally_swap t x y : tally (tally t x) y = tally (tally t y) x.
Proof.
  destruct t as [t|], x as [x|], y as [y|]; cbn; try reflexivity.
  f_equal. unfold u64.
  rewrite !Zplus_mod_idemp_l. f_equal. lia.
Qed.

Lemma fold_pairs_record (f : ftype) W vs trace :
  fold_pairs (fun _ _ l r t => record (DenseCall f l r W) t) W vs trace
  = trace ++ map (dense_call_of f W) vs.
Proof.
  revert trace. induction vs as [|(a, b) vs IH]; intros trace; cbn [fold_pairs fold_left map].
  - rewrite app_nil_r. reflexivity.
  - unfold fold_pairs in IH. rewrite IH. unfold record.
    rewrite <- app_assoc. reflexivity.
Qed.

(** Where the [uint32_t] counters and offsets of the blocked driver do not
    wrap.  For every kernel [f], vector count, word count and block size (0
    being remapped to 3) for which the counters of the strip loops do not
    wrap, the blocked driver calls [f] exactly on the unordered pairs
    [i < j], each pair once, none twice and no pair [(i, i)]; its total is
    the sum of [f] over these pairs, as long as the word offsets fit in a
    [uint32_t], and equals the total of the direct double loop [c_fwrapper],
    whose [int] counters reach every count up to [INT_MAX]. *)
Theorem c_fwrapper_blocked_pairs (f : ftype) (vals : list Z) (N W B : Z) :
  0 <= N <= UINT32_MAX -> 0 <= B <= UINT32_MAX -> strips_in_range N B ->
  (exists visits,
      c_fwrapper_blocked_on record [] N W f B = Some (map (dense_call_of f W) visits) /\
      forall i j,
        count_occ pair_eq_dec visits (i, j) = ind ((0 <=? i) && (i <? j) && (j <? N))) /\
  (N <= INT_MAX -> c_fwrapper_blocked N vals W f B = c_fwrapper N vals W f) /\
  (0 <= W -> N * W <= UINT32_MAX + 1 ->
   c_fwrapper_blocked N vals W f B = pair_sum f vals N W).
Proof.
  intros HN HB Hwrap.
  assert (Hdirect :
            c_fwrapper N vals W f
            = fold_pairs (fun _ _ l r t => run vals [] (DenseCall f l r W) t) W
                (all_pairs N) (Some 0)).
  { unfold c_fwrapper, c_fwrapper_on. apply direct_loops_pairs. lia. }
  assert (Hblocked : c_fwrapper_blocked N vals W f B = c_fwrapper N vals W f).
  { unfold c_fwrapper_blocked, c_fwrapper_blocked_on.
    destruct (blocked_loops_visits
                (fun _ _ l r t => run vals [] (DenseCall f l r W) t) N W B (Some 0)
                HN HB Hwrap) as (vs & -> & _ & HP).
    cbn [obind]. rewrite Hdirect. unfold fold_pairs.
    apply fold_left_Permutation; [|exact HP].
    intros a (x1, x2) (y1, y2). unfold run. apply tally_swap. }
  split; [|split].
  - unfold c_fwrapper_blocked_on.
    destruct (blocked_loops_visits
                (fun _ _ l r t => record (DenseCall f l r W) t) N W B []
                HN HB Hwrap) as (vs & -> & Hvs & _).
    exists vs. split; [|exact Hvs].
    rewrite fold_pairs_record. reflexivity.
  - intros _. exact Hblocked.
  - intros HW HNW. rewrite Hblocked, Hdirect. unfold pair_sum, fold_pairs.
    apply fold_left_ext_in. intros t (a, b) Hin.
    assert (Hc := count_all_pairs N a b).
    assert (Hpos : (count_occ pair_eq_dec (all_pairs N) (a, b) > 0)%nat)
      by (apply count_occ_In; exact Hin).
    rewrite Hc in Hpos. unfold UINT32_MAX in *.
    destruct (Z.leb_spec 0 a), (Z.ltb_spec a b), (Z.ltb_spec b N);
      cbn [ind andb] in Hpos; try lia.
    unfold run, run_call, vector. rewrite !u32_small by nia. reflexivity.
Qed.

Lemma c_fwrapper_blocked_pairs_witness :
  (0 <= 5 <= UINT32_MAX /\ 0 <= 2 <= UINT32_MAX /\ strips_in_range 5 2 /\ 5 <= INT_MAX) /\
  c_fwrapper_blocked 5 [1; 3; 7; 15; 31] 1 intersect_bitmaps_scalar 2
  = c_fwrapper 5 [1; 3; 7; 15; 31] 1 intersect_bitmaps_scalar.
Proof.
  assert (H1 : 0 <= 5 <= UINT32_MAX) by (unfold UINT32_MAX; lia).
  assert (H2 : 0 <= 2 <= UINT32_MAX) by (unfold UINT32_MAX; lia).
  assert (H3 : strips_in_range 5 2) by (unfold strips_in_range, UINT32_MAX; simpl; lia).
  assert (H4 : 5 <= INT_MAX) by (unfold INT_MAX; lia).
  split; [auto|].
  exact (proj1 (proj2 (c_fwrapper_blocked_pairs intersect_bitmaps_scalar
                         [1; 3; 7; 15; 31] 5 1 2 H1 H2 H3)) H4).
Defined.

(** The blocked loop nest on 3 vectors of 2^31 words, for any statement at
    its site: the offset of vector 2 has wrapped to 0. *)
Lemma blocked_loops_wrapped {T : Type} (exec : kernel_call -> T -> T) (zero : T) (f : ftype)
  (B : Z) :
  In B [0; 1; 2; 3] ->
  c_fwrapper_blocked_on exec zero 3 (2 ^ 31) f B
  = Some (exec (DenseCall f (2 ^ 31) 0 (2 ^ 31))
            (exec (DenseCall f 0 0 (2 ^ 31))
               (exec (DenseCall f 0 (2 ^ 31) (2 ^ 31)) zero))).
Proof.
  intros HB. cbn [In] in HB. destruct HB as [<-|[<-|[<-|[<-|[]]]]]; vm_compute; reflexivity.
Qed.

(** C4, on a bundle of 3 vectors of 2^31 words.  The driver keeps the word
    offsets of the vectors in [uint32_t] variables, and the offset
    [2 * 2^31] of vector 2 wraps to 0: for the pair (0, 2) the kernel is
    called on vector 0 twice, for the pair (1, 2) on vector 1 and vector 0,
    whatever the block size, and the total is the one of these calls, where
    the sum over the pairs has the calls on vector 2 at offset 2^32. *)
Theorem c_fwrapper_blocked_offsets_wrap (f : ftype) (vals : list Z) :
  c_fwrapper_blocked_on record [] 3 (2 ^ 31) f 0
  = Some [DenseCall f 0 (2 ^ 31) (2 ^ 31); DenseCall f 0 0 (2 ^ 31);
          DenseCall f (2 ^ 31) 0 (2 ^ 31)] /\
  c_fwrapper_blocked_on record [] 3 (2 ^ 31) f 1
  = Some [DenseCall f 0 (2 ^ 31) (2 ^ 31); DenseCall f 0 0 (2 ^ 31);
          DenseCall f (2 ^ 31) 0 (2 ^ 31)] /\
  c_fwrapper_blocked 3 vals (2 ^ 31) f 0
  = tally (tally (tally (Some 0)
                    (f (ptr vals 0) (ptr vals (2 ^ 31)) (2 ^ 31)))
             (f (ptr vals 0) (ptr vals 0) (2 ^ 31)))
      (f (ptr vals (2 ^ 31)) (ptr vals 0) (2 ^ 31)) /\
  pair_sum f vals 3 (2 ^ 31)
  = tally (tally (tally (Some 0)
                    (f (ptr vals 0) (ptr vals (2 ^ 31)) (2 ^ 31)))
             (f (ptr vals 0) (ptr vals (2 ^ 32)) (2 ^ 31)))
      (f (ptr vals (2 ^ 31)) (ptr vals (2 ^ 32)) (2 ^ 31)) /\
  u32 (2 * 2 ^ 31) = 0.
Proof.
  split; [|split; [|split; [|split]]].
  - rewrite blocked_loops_wrapped by (cbn [In]; tauto). reflexivity.
  - rewrite blocked_loops_wrapped by (cbn [In]; tauto). reflexivity.
  - unfold c_fwrapper_blocked. rewrite blocked_loops_wrapped by (cbn [In]; tauto).
    cbv [obind run run_call]. reflexivity.
  - unfold pair_sum. replace (all_pairs 3) with [(0, 1); (0, 2); (1, 2)] by reflexivity.
    cbv [fold_left vector]. reflexivity.
  - reflexivity.
Qed.

(** ** The sparse-aware driver and [intersect_list] *)

Lemma fold_pairs_cutoff_record (f : ftype) (fl : fltype) W n_alts alt_offsets cutoff vs trace :
  fold_pairs (cutoff_site record W n_alts alt_offsets f fl cutoff) W vs trace
  = trace ++ map (fun p => if sparse_pair n_alts cutoff p
                           then sparse_call_of fl W n_alts alt_offsets p
                           else dense_call_of f W p) vs.
Proof.
  revert trace. induction vs as [|(a, b) vs IH]; intros trace; cbn [fold_pairs fold_left map].
  - rewrite app_nil_r. reflexivity.
  - unfold fold_pairs in IH. rewrite IH. unfold cutoff_site, sparse_pair. cbn [fst snd].
    destruct ((n_alts.[a] <? cutoff) || (n_alts.[b] <? cutoff));
      unfold record; rewrite <- app_assoc; reflexivity.
Qed.

(** The blocked sparse-aware driver visits every unordered pair once and
    calls the sparse kernel for a pair exactly when one of its two popcounts
    is below the driver's [cutoff] parameter. *)
Lemma c_flwrapper_blocked_dispatch (f : ftype) (fl : fltype) N W n_alts alt_offsets cutoff B :
  0 <= N <= UINT32_MAX -> 0 <= B <= UINT32_MAX -> strips_in_range N B ->
  exists visits,
    c_flwrapper_blocked_on record [] N W n_alts alt_offsets f fl cutoff B
    = Some (map (fun p => if sparse_pair n_alts cutoff p
                          then sparse_call_of fl W n_alts alt_offsets p
                          else dense_call_of f W p) visits) /\
    Permutation visits (all_pairs N).
Proof.
  intros HN HB Hwrap. unfold c_flwrapper_blocked_on.
  destruct (blocked_loops_visits (cutoff_site record W n_alts alt_offsets f fl cutoff)
              N W B [] HN HB Hwrap) as (vs & -> & _ & HP).
  exists vs. split; [|exact HP]. rewrite fold_pairs_cutoff_record. reflexivity.
Qed.

(** C3, on a bundle of two one-word vectors of one set bit each and the
    cutoff 0: no popcount is below the cutoff of the caller, and
    [intersect_list] calls the sparse kernel for the pair. *)
Theorem intersect_list_ignores_cutoff (cfg : build) (hw : host) (inf_block cpuid_ : Z) :
  intersect_list_calls cfg hw inf_block cpuid_ 2 1 [1; 1] [0; 1] 0
  = Some [SparseCall intersect_bitmaps_scalar_list 0 1 0 1 1 1] /\
  sparse_pair [1; 1] 0 (0, 1) = false /\
  sparse_pair [1; 1] 50 (0, 1) = true.
Proof.
  split; [|split; reflexivity].
  unfold intersect_list_calls, intersect_list_on.
  replace (128 <=? 1) with false by reflexivity.
  replace (64 <=? 1) with false by reflexivity.
  replace (32 <=? 1) with false by reflexivity.
  rewrite !andb_false_r. reflexivity.
Qed.

(** C10. The result of [intersect_list], and the kernel calls it makes, do
    not depend on the [cutoff] argument: every dispatch path passes the
    constant 50 to the blocked driver. *)
Theorem intersect_list_cutoff_irrelevant (cfg : build) (hw : host) (inf_block cpuid_ : Z)
  (data : list Z) (n_vectors n_bitmaps_vector : Z) (n_alts alt_pos alt_offsets : list Z)
  (c1 c2 : Z) :
  intersect_list cfg hw inf_block cpuid_ data n_vectors n_bitmaps_vector
    n_alts alt_pos alt_offsets c1
  = intersect_list cfg hw inf_block cpuid_ data n_vectors n_bitmaps_vector
      n_alts alt_pos alt_offsets c2 /\
  intersect_list_calls cfg hw inf_block cpuid_ n_vectors n_bitmaps_vector
    n_alts alt_offsets c1
  = intersect_list_calls cfg hw inf_block cpuid_ n_vectors n_bitmaps_vector
      n_alts alt_offsets c2.
Proof. split; reflexivity. Qed.

(** [intersect_list] calls the sparse kernel for a pair exactly when one of
    its two popcounts is below 50, whatever its [cutoff] argument. *)
Lemma intersect_list_dispatch_50 (cfg : build) (hw : host) (inf_block cpuid_ : Z)
  (N W : Z) (n_alts alt_offsets : list Z) (cutoff : Z) :
  0 <= N <= UINT32_MAX -> 0 <= default_block inf_block W <= UINT32_MAX ->
  strips_in_range N (default_block inf_block W) ->
  exists visits calls,
    intersect_list_calls cfg hw inf_block cpuid_ N W n_alts alt_offsets cutoff = Some calls /\
    Permutation visits (all_pairs N) /\
    map is_sparse_call calls = map (sparse_pair n_alts 50) visits.
Proof.
  intros HN HB Hwrap. unfold intersect_list_calls, intersect_list_on.
  repeat match goal with |- context [if ?c then _ else _] => destruct c end;
    match goal with
    | |- context [c_flwrapper_blocked_on record [] N W n_alts alt_offsets ?f ?fl 50 ?B] =>
        destruct (c_flwrapper_blocked_dispatch f fl N W n_alts alt_offsets 50 B HN HB Hwrap)
          as (vs & -> & HP)
    end;
    (exists vs; eexists; split; [reflexivity|]; split; [exact HP|];
     rewrite map_map; apply map_ext; intros p;
     destruct (sparse_pair n_alts 50 p); reflexivity).
Qed.

(** ** [intersect] on vectors of no words *)

Lemma intersect_bitmaps_scalar_0 b1 b2 : intersect_bitmaps_scalar b1 b2 0 = Some 0.
Proof. reflexivity. Qed.

Lemma fold_pairs_scalar_0 vals vs :
  fold_pairs (fun _ _ l r t => run vals [] (DenseCall intersect_bitmaps_scalar l r 0) t)
    0 vs (Some 0) = Some 0.
Proof.
  induction vs as [|(a, b) vs IH]; cbn [fold_pairs fold_left]; [reflexivity|].
  unfold fold_pairs in IH. exact IH.
Qed.

(** C8. [intersect] on [n_vectors] vectors of 0 words returns 0, for
    [n_vectors > 1] as for any other count, whatever block size the
    conversion of the infinite quotient yields, as long as the counters of
    the strip loops do not wrap for it. *)
Theorem intersect_no_words (cfg : build) (hw : host) (inf_block cpuid_ : Z)
  (data : list Z) (n_vectors : Z) :
  0 <= n_vectors <= UINT32_MAX -> 0 <= inf_block <= UINT32_MAX ->
  strips_in_range n_vectors inf_block ->
  fst (intersect cfg hw inf_block cpuid_ data n_vectors 0) = Some 0.
Proof.
  intros HN HB Hwrap. unfold intersect.
  destruct (cached_cpuid cfg hw cpuid_) as (cpuid, cpuid_'). cbn [fst].
  unfold intersect_on.
  replace (128 <=? 0) with false by reflexivity.
  replace (64 <=? 0) with false by reflexivity.
  replace (32 <=? 0) with false by reflexivity.
  rewrite !andb_false_r.
  replace (default_block inf_block 0) with inf_block by reflexivity.
  unfold c_fwrapper_blocked_on.
  destruct (blocked_loops_visits
              (fun _ _ l r t => run data [] (DenseCall intersect_bitmaps_scalar l r 0) t)
              n_vectors 0 inf_block (Some 0) HN HB Hwrap) as (vs & -> & _).
  cbn [obind]. apply fold_pairs_scalar_0.
Qed.

Lemma intersect_no_words_witness :
  (0 <= 4 <= UINT32_MAX /\ 0 <= 0 <= UINT32_MAX /\ strips_in_range 4 0) /\
  fst (intersect full_build plain_host 0 (-1) [] 4 0) = Some 0.
Proof.
  assert (H1 : 0 <= 4 <= UINT32_MAX) by (unfold UINT32_MAX; lia).
  assert (H2 : 0 <= 0 <= UINT32_MAX) by (unfold UINT32_MAX; lia).
  assert (H3 : strips_in_range 4 0) by (unfold strips_in_range, UINT32_MAX; simpl; lia).
  split; [auto|].
  exact (intersect_no_words full_build plain_host 0 (-1) [] 4 H1 H2 H3).
Defined.

(** ** [get_alignment] *)

(** C9. [get_alignment] returns 8, 16, 32 or 64, each a power of two,
    whatever the build, the feature bits of the host and the cached mask. *)
Theorem get_alignment_values (cfg : build) (hw : host) (cpuid_ : Z) :
  In (fst (get_alignment cfg hw cpuid_)) [8; 16; 32; 64] /\
  exists k, 0 <= k /\ fst (get_alignment cfg hw cpuid_) = 2 ^ k.
Proof.
  unfold get_alignment. destruct (cached_cpuid cfg hw cpuid_) as (cpuid, cpuid_').
  unfold FIC_AVX512_ALIGNMENT, FIC_AVX2_ALIGNMENT, FIC_SSE_ALIGNMENT.
  destruct (HAVE_AVX512 cfg && negb (Z.land cpuid bit_AVX512BW =? 0)),
           (HAVE_AVX2 cfg && negb (Z.land cpuid bit_AVX2 =? 0)),
           (HAVE_SSE41 cfg && negb (Z.land cpuid bit_SSE41 =? 0));
    cbn; (split; [tauto|]);
    first [exists 6; split; [lia|reflexivity] | exists 5; split; [lia|reflexivity]
          | exists 4; split; [lia|reflexivity] | exists 3; split; [lia|reflexivity]].
Qed.

(** ** The SSE4.1 kernel *)

(** C1, on two arrays of four words of one set bit each: the AVX2 and
    AVX-512 kernels return the 4 of the scalar kernel, the SSE4.1 kernel
    returns 2, the count of the last 128-bit block alone. *)
Theorem intersect_bitmaps_sse4_tail_overwrites :
  intersect_bitmaps_scalar [1; 1; 1; 1] [1; 1; 1; 1] 4 = Some 4 /\
  intersect_bitmaps_avx2 [1; 1; 1; 1] [1; 1; 1; 1] 4 = Some 4 /\
  intersect_bitmaps_avx512_csa [1; 1; 1; 1] [1; 1; 1; 1] 4 = Some 4 /\
  intersect_bitmaps_sse4 [1; 1; 1; 1] [1; 1; 1; 1] 4 = Some 2.
Proof. repeat split; vm_compute; reflexivity. Qed.

(** C7, on an array [A] of four words of one set bit each: the SSE4.1 kernel
    returns 2 for [(A, A)], not the 4 set bits of [A]. *)
Theorem intersect_bitmaps_sse4_identity_fails :
  popcount_words [1; 1; 1; 1] 4 = 4 /\
  intersect_bitmaps_sse4 [1; 1; 1; 1] [1; 1; 1; 1] 4 = Some 2.
Proof. split; vm_compute; reflexivity. Qed.

(** ** The sparse positional kernel *)

Lemma sum_list_app l1 l2 : sum_list (l1 ++ l2) = sum_list l1 + sum_list l2.
Proof. induction l1 as [|x l1 IH]; cbn [app sum_list fold_right] in *; [reflexivity|]. unfold sum_list in *. lia. Qed.

Lemma sum_list_map_filter (g : Z -> Z) (h : Z -> bool) l :
  sum_list (map g (filter h l)) = sum_list (map (fun p => if h p then g p else 0) l).
Proof.
  induction l as [|x l IH]; [reflexivity|].
  cbn [filter map]. destruct (h x); cbn [map sum_list fold_right]; unfold sum_list in *; lia.
Qed.

Lemma sum_list_map_ext (f g : Z -> Z) l :
  (forall x, In x l -> f x = g x) -> sum_list (map f l) = sum_list (map g l).
Proof.
  induction l as [|x l IH]; intros H; [reflexivity|].
  cbn [map sum_list fold_right]. rewrite H by (left; reflexivity).
  unfold sum_list in IH. rewrite IH by (intros; apply H; right; assumption). reflexivity.
Qed.

Lemma range_last lo hi : lo <= hi -> range lo (hi + 1) = range lo hi ++ [hi].
Proof.
  intros H. rewrite (range_app lo hi (hi + 1)) by lia.
  rewrite (range_first hi) by lia. rewrite (range_empty (hi + 1)) by lia. reflexivity.
Qed.

Lemma popcount_bits_sum n x :
  popcount_bits n x
  = sum_list (map (fun k => Z.b2z (Z.testbit x k)) (range 0 (Z.of_nat n))).
Proof.
  induction n as [|n IH]; [reflexivity|].
  rewrite Nat2Z.inj_succ, <- Z.add_1_r, range_last by lia.
  rewrite map_app, sum_list_app. cbn [popcount_bits map sum_list fold_right].
  rewrite IH. unfold sum_list. lia.
Qed.

Lemma sum_upto_words (f : Z -> Z) W :
  sum_list (map f (range 0 (64 * Z.of_nat W)))
  = sum_upto W (fun i => sum_list (map f (range (64 * i) (64 * i + 64)))).
Proof.
  induction W as [|W IH]; [reflexivity|].
  cbn [sum_upto]. rewrite <- IH.
  rewrite (range_app 0 (64 * Z.of_nat W) (64 * Z.of_nat (Datatypes.S W))) by lia.
  rewrite map_app, sum_list_app.
  replace (64 * Z.of_nat (Datatypes.S W)) with (64 * Z.of_nat W + 64) by lia.
  reflexivity.
Qed.

(** The set bits of [A] that are set in [B] are as many as the set bits of
    the words [A[i] & B[i]]. *)
Lemma set_bits_count A B W :
  sum_list (map (fun p => Z.b2z (bitmap_bit B p)) (set_bits A (Z.of_nat W)))
  = sum_upto W (and_popcount A B).
Proof.
  unfold set_bits. rewrite sum_list_map_filter, sum_upto_words.
  apply sum_upto_ext. intros i Hi.
  unfold and_popcount, FIC_POPCOUNT. rewrite popcount_bits_sum.
  replace (range (64 * i) (64 * i + 64)) with (range (64 * i + 0) (64 * i + Z.of_nat 64))
    by (f_equal; lia).
  rewrite <- range_shift, map_map.
  apply sum_list_map_ext. intros k Hk. apply range_In in Hk.
  unfold bitmap_bit.
  replace ((64 * i + k) / 64) with i by (apply Z.div_unique with k; lia).
  replace ((64 * i + k) mod 64) with k by (apply Z.mod_unique with i; lia).
  rewrite Z.land_spec. destruct (Z.testbit A.[i] k); reflexivity.
Qed.

Lemma member_spec_bit b p : 0 <= p -> member_spec b p = Z.b2z (bitmap_bit b p).
Proof.
  intros Hp. unfold member_spec, bitmap_bit.
  rewrite (Z.shiftr_div_pow2 p 6) by lia. change (2 ^ 6) with 64.
  change 63 with (Z.ones 6). rewrite Z.land_ones by lia. change (2 ^ 6) with 64.
  change 1 with (Z.ones 1). rewrite Z.land_ones by lia. change (2 ^ 1) with 2.
  rewrite <- Z.bit0_mod, Z.shiftr_spec by lia.
  rewrite Z.add_0_l. reflexivity.
Qed.

Lemma land_pow2 w p : 0 <= p -> Z.land w (2 ^ p) = if Z.testbit w p then 2 ^ p else 0.
Proof.
  intros Hp. apply Z.bits_inj'. intros i Hi.
  rewrite Z.land_spec, Z.pow2_bits_eqb by lia.
  destruct (Z.eqb_spec p i) as [->|Hne].
  - destruct (Z.testbit w i); [rewrite Z.pow2_bits_eqb by lia; rewrite Z.eqb_refl|rewrite Z.testbit_0_l];
      reflexivity.
  - rewrite andb_false_r. destruct (Z.testbit w p);
      [rewrite Z.pow2_bits_eqb by lia; destruct (Z.eqb_spec p i); congruence
      |rewrite Z.testbit_0_l; reflexivity].
Qed.

Lemma MOD_nonneg x : 0 <= MOD x.
Proof.
  unfold MOD. apply Z.shiftr_nonneg. unfold u32. apply Z.mod_pos_bound. reflexivity.
Qed.

Lemma MOD_mod x : MOD x = x mod 2 ^ 26.
Proof.
  unfold MOD, u32. rewrite Z.shiftr_div_pow2 by lia.
  change (2 ^ 32) with (2 ^ 26 * 64). change (2 ^ 6) with 64.
  rewrite Z.mul_mod_distr_r by lia. apply Z.div_mul. lia.
Qed.

(** The shift count of a probe: the low six bits of [MOD(p)] are those of
    [p]. *)
Lemma MOD_land_63 p : Z.land (MOD p) 63 = p mod 64.
Proof.
  rewrite MOD_mod. change 63 with (Z.ones 6). rewrite Z.land_ones by lia.
  change (2 ^ 6) with 64. change (2 ^ 26) with 67108864.
  rewrite (Z.div_mod p 67108864) at 2 by lia.
  replace (67108864 * (p / 67108864) + p mod 67108864)
    with (p mod 67108864 + 1048576 * (p / 67108864) * 64) by ring.
  rewrite Z.mod_add by lia. reflexivity.
Qed.

(** The probe of the kernel is the membership test of the specification,
    at every position. *)
Lemma probe_member b p : 0 <= p -> probe b p = member_spec b p.
Proof.
  intros Hp. unfold probe, shl_long. rewrite MOD_land_63.
  pose proof (Z.mod_pos_bound p 64 ltac:(lia)) as Hk.
  rewrite Z.shiftl_1_l.
  rewrite u64_small by (split; [apply Z.pow_nonneg; lia|apply Z.pow_lt_mono_r; lia]).
  rewrite member_spec_bit by lia. unfold bitmap_bit.
  rewrite (Z.shiftr_div_pow2 p 6) by lia. change (2 ^ 6) with 64.
  rewrite land_pow2 by lia.
  destruct (Z.testbit b.[p / 64] (p mod 64)).
  - destruct (Z.eqb_spec (2 ^ (p mod 64)) 0) as [E|E]; [|reflexivity].
    pose proof (Z.pow_pos_nonneg 2 (p mod 64)). lia.
  - reflexivity.
Qed.

Lemma for_range_some {S : Type} (stepM : Z -> option S -> option S) (step : Z -> S -> S)
  lo hi s :
  (forall i c, lo <= i < hi -> stepM i (Some c) = Some (step i c)) ->
  for_range lo hi stepM (Some s) = Some (for_range lo hi step s).
Proof.
  intros H. destruct (Z.le_gt_cases hi lo) as [Hle|Hlt].
  - rewrite !for_range_empty by lia. reflexivity.
  - remember (Z.to_nat (hi - lo)) as n eqn:Hn.
    revert lo s Hn Hlt H. induction n as [|n IH]; intros lo s Hn Hlt H; [lia|].
    rewrite (for_range_first stepM), (for_range_first step) by lia.
    rewrite H by lia.
    destruct (Z.eq_dec (lo + 1) hi) as [E|E].
    + rewrite !for_range_empty by lia. reflexivity.
    + apply IH; [lia|lia|]. intros; apply H; lia.
Qed.

Lemma rd_app_l (l : list Z) x i : 0 <= i < Z.of_nat (length l) -> (l ++ [x]).[i] = l.[i].
Proof. intros H. unfold rd. apply app_nth1. lia. Qed.

Lemma rd_app_r (l : list Z) x : (l ++ [x]).[Z.of_nat (length l)] = x.
Proof. unfold rd. rewrite Nat2Z.id, app_nth2, Nat.sub_diag by lia. reflexivity. Qed.

(** A loop that adds a 0 or 1 per element of a list adds up the list. *)
Lemma for_range_list_sum (g : Z -> Z) (l : list Z) :
  (forall p, In p l -> 0 <= g p <= 1) ->
  Z.of_nat (length l) < 2 ^ 64 ->
  for_range 0 (Z.of_nat (length l)) (fun i count => u64 (count + g l.[i])) 0
  = sum_list (map g l) /\
  0 <= sum_list (map g l) <= Z.of_nat (length l).
Proof.
  induction l as [|x l IH] using rev_ind; intros Hg Hlen.
  - split; [reflexivity|cbn; lia].
  - rewrite length_app, Nat2Z.inj_add in *. cbn [length] in *.
    change (Z.of_nat 1) with 1 in *.
    destruct IH as (IH1 & IH2); [intros; apply Hg; apply in_or_app; left; assumption|lia|].
    rewrite for_range_last by lia.
    rewrite (for_range_ext _ (fun i count => u64 (count + g l.[i])))
      by (intros y t Hy; rewrite rd_app_l by lia; reflexivity).
    rewrite IH1, rd_app_r, map_app, sum_list_app. cbn [map sum_list fold_right].
    assert (0 <= g x <= 1) by (apply Hg; apply in_or_app; right; left; reflexivity).
    rewrite Z.add_0_r. split; [apply u64_small|]; lia.
Qed.

Lemma set_bits_range b W p : In p (set_bits b W) -> 0 <= p < 64 * W.
Proof. unfold set_bits. intros H. apply filter_In in H. apply range_In. tauto. Qed.

Lemma set_bits_length b W : 0 <= W -> Z.of_nat (length (set_bits b W)) <= 64 * W.
Proof.
  intros HW. unfold set_bits.
  pose proof (filter_length_le (bitmap_bit b) (range 0 (64 * W))) as H.
  unfold range in H at 2. rewrite length_map, length_seq in H. lia.
Qed.

Lemma sum_upto_and_popcount_comm A B n :
  sum_upto n (and_popcount A B) = sum_upto n (and_popcount B A).
Proof.
  apply sum_upto_ext. intros k _. unfold and_popcount. rewrite Z.land_comm. reflexivity.
Qed.

(** The probing loop of the specification over the set bits of [A], tested
    in [B]. *)
Lemma member_loop_count A B W :
  0 <= W -> 64 * W < 2 ^ 64 ->
  for_range 0 (Z.of_nat (length (set_bits A W)))
    (fun i count => u64 (count + member_spec B (set_bits A W).[i])) 0
  = sum_upto (Z.to_nat W) (and_popcount A B).
Proof.
  intros HW Hmax.
  pose proof (set_bits_length A W HW) as Hlen.
  rewrite <- (set_bits_count A B (Z.to_nat W)). rewrite Z2Nat.id by lia.
  rewrite <- (sum_list_map_ext (member_spec B))
    by (intros p Hp; apply member_spec_bit; apply set_bits_range in Hp; lia).
  apply for_range_list_sum; [|lia].
  intros p Hp. rewrite member_spec_bit by (apply set_bits_range in Hp; lia).
  destruct (bitmap_bit B p); cbn; lia.
Qed.

(** The sparse kernel of the specification returns the result of the dense
    kernel, for bitmaps of any number of words and their position lists. *)
Lemma sparse_kernel_spec_dense (A B : list Z) (W : Z) :
  0 <= W <= INT_MAX ->
  Some (sparse_kernel_spec A B (set_bits A W) (set_bits B W)
          (Z.of_nat (length (set_bits A W))) (Z.of_nat (length (set_bits B W))))
  = intersect_bitmaps_scalar A B W.
Proof.
  intros HW. rewrite intersect_bitmaps_scalar_words by assumption. f_equal.
  unfold INT_MAX in HW. unfold sparse_kernel_spec.
  destruct (Z.of_nat (length (set_bits A W)) <=? Z.of_nat (length (set_bits B W))).
  - apply member_loop_count; [lia|]. change (2 ^ 64) with 18446744073709551616. lia.
  - rewrite sum_upto_and_popcount_comm.
    apply member_loop_count; [lia|]. change (2 ^ 64) with 18446744073709551616. lia.
Qed.

(** On the lists of the set bits of two bitmaps the sparse kernel of the
    header adds up the common set bits. *)
Lemma intersect_bitmaps_scalar_list_set_bits (A B : list Z) (W : Z) :
  0 <= W -> 64 * W < 2 ^ 64 ->
  intersect_bitmaps_scalar_list A B (set_bits A W) (set_bits B W)
    (Z.of_nat (length (set_bits A W))) (Z.of_nat (length (set_bits B W)))
  = Some (words_sum A B W).
Proof.
  intros HW Hmax. unfold intersect_bitmaps_scalar_list, words_sum.
  assert (Hstep : forall X Y i c,
             0 <= i < Z.of_nat (length (set_bits X W)) ->
             probe_step Y (set_bits X W) i c
             = u64 (c + member_spec Y (set_bits X W).[i])).
  { intros X Y i c Hi. unfold probe_step.
    assert (Hin : In (set_bits X W).[i] (set_bits X W)) by (apply nth_In; lia).
    apply set_bits_range in Hin.
    rewrite probe_member by lia. reflexivity. }
  destruct (Z.of_nat (length (set_bits A W)) <? Z.of_nat (length (set_bits B W))).
  - rewrite (for_range_ext _ (fun i c => u64 (c + member_spec B (set_bits A W).[i])))
      by (intros; apply Hstep; lia).
    f_equal. apply member_loop_count; assumption.
  - rewrite (for_range_ext _ (fun i c => u64 (c + member_spec A (set_bits B W).[i])))
      by (intros; apply Hstep; lia).
    f_equal. rewrite sum_upto_and_popcount_comm.
    apply member_loop_count; assumption.
Qed.

Lemma intersect_bitmaps_scalar_list_one_word (A B : list Z) (W : Z) :
  0 <= W <= 1 ->
  intersect_bitmaps_scalar_list A B (set_bits A W) (set_bits B W)
    (Z.of_nat (length (set_bits A W))) (Z.of_nat (length (set_bits B W)))
  = intersect_bitmaps_scalar A B W.
Proof.
  intros HW. rewrite intersect_bitmaps_scalar_words by (unfold INT_MAX; lia).
  apply intersect_bitmaps_scalar_list_set_bits; [lia|].
  change (2 ^ 64) with 18446744073709551616. lia.
Qed.

(** C2. For bitmaps [A] and [B] of [W] words and the ascending lists of
    their set-bit positions (positions that a [uint32_t] holds, and a
    shorter list that the [int] counter of the kernel can run through),
    [intersect_bitmaps_scalar_list] returns the number of common set bits,
    which is the result of [intersect_bitmaps_scalar] on [A] and [B]; the
    membership of a probed position [p] is the bit
    [(word[p >> 6] >> (p & 63)) & 1].  The shift of the probe is the one of
    x86-64, which takes its count modulo 64. *)
Theorem intersect_bitmaps_scalar_list_dense (A B : list Z) (W : Z) :
  0 <= W -> 64 * W <= UINT32_MAX + 1 ->
  Z.min (Z.of_nat (length (set_bits A W))) (Z.of_nat (length (set_bits B W))) <= INT_MAX ->
  intersect_bitmaps_scalar_list A B (set_bits A W) (set_bits B W)
    (Z.of_nat (length (set_bits A W))) (Z.of_nat (length (set_bits B W)))
  = Some (sum_upto (Z.to_nat W) (and_popcount A B)) /\
  intersect_bitmaps_scalar_list A B (set_bits A W) (set_bits B W)
    (Z.of_nat (length (set_bits A W))) (Z.of_nat (length (set_bits B W)))
  = intersect_bitmaps_scalar A B W /\
  (forall b p, 0 <= p <= UINT32_MAX ->
     probe b p = Z.land (Z.shiftr b.[Z.shiftr p 6] (Z.land p 63)) 1).
Proof.
  intros HW Hpos _. unfold UINT32_MAX in Hpos.
  assert (E : intersect_bitmaps_scalar_list A B (set_bits A W) (set_bits B W)
                (Z.of_nat (length (set_bits A W))) (Z.of_nat (length (set_bits B W)))
              = Some (words_sum A B W)).
  { apply intersect_bitmaps_scalar_list_set_bits; [assumption|].
    change (2 ^ 64) with 18446744073709551616. lia. }
  split; [exact E|]. split.
  - rewrite E. symmetry. apply intersect_bitmaps_scalar_words. unfold INT_MAX. lia.
  - intros b p Hp. apply probe_member. lia.
Qed.

Lemma intersect_bitmaps_scalar_list_dense_witness :
  (0 <= 2 /\ 64 * 2 <= UINT32_MAX + 1 /\
   Z.min (Z.of_nat (length (set_bits [5; 3] 2))) (Z.of_nat (length (set_bits [4; 2] 2)))
   <= INT_MAX) /\
  intersect_bitmaps_scalar_list [5; 3] [4; 2] (set_bits [5; 3] 2) (set_bits [4; 2] 2)
    (Z.of_nat (length (set_bits [5; 3] 2))) (Z.of_nat (length (set_bits [4; 2] 2)))
  = Some (sum_upto (Z.to_nat 2) (and_popcount [5; 3] [4; 2])) /\
  intersect_bitmaps_scalar_list [5; 3] [4; 2] (set_bits [5; 3] 2) (set_bits [4; 2] 2)
    (Z.of_nat (length (set_bits [5; 3] 2))) (Z.of_nat (length (set_bits [4; 2] 2)))
  = intersect_bitmaps_scalar [5; 3] [4; 2] 2 /\
  (forall b p, 0 <= p <= UINT32_MAX ->
     probe b p = Z.land (Z.shiftr b.[Z.shiftr p 6] (Z.land p 63)) 1).
Proof.
  assert (H1 : 0 <= 2) by lia.
  assert (H2 : 64 * 2 <= UINT32_MAX + 1) by (unfold UINT32_MAX; lia).
  assert (H3 : Z.min (Z.of_nat (length (set_bits [5; 3] 2)))
                 (Z.of_nat (length (set_bits [4; 2] 2))) <= INT_MAX)
    by (vm_compute; discriminate).
  split; [auto|].
  exact (intersect_bitmaps_scalar_list_dense [5; 3] [4; 2] 2 H1 H2 H3).
Defined.

(** ** Arithmetic modulo 2^64 *)

Lemma cong64_refl a : cong64 a a.
Proof. exists 0. lia. Qed.

Lemma cong64_sym a b : cong64 a b -> cong64 b a.
Proof. intros (q & ->). exists (- q). lia. Qed.

Lemma cong64_trans a b c : cong64 a b -> cong64 b c -> cong64 a c.
Proof. intros (q & ->) (r & ->). exists (q + r). lia. Qed.

Lemma cong64_add a b c d : cong64 a b -> cong64 c d -> cong64 (a + c) (b + d).
Proof. intros (q & ->) (r & ->). exists (q + r). lia. Qed.

Lemma cong64_mul k a b : cong64 a b -> cong64 (k * a) (k * b).
Proof. intros (q & ->). exists (k * q). lia. Qed.

Lemma cong64_u64 a : cong64 (u64 a) a.
Proof.
  exists (- (a / 2 ^ 64)). unfold u64.
  pose proof (Z.div_mod a (2 ^ 64)). lia.
Qed.

Lemma cong64_small a b : cong64 a b -> 0 <= a < 2 ^ 64 -> 0 <= b < 2 ^ 64 -> a = b.
Proof. intros (q & ->) Ha Hb. change (2 ^ 64) with 18446744073709551616 in *. lia. Qed.

Lemma u64_range a : 0 <= u64 a < 2 ^ 64.
Proof. unfold u64. apply Z.mod_pos_bound. reflexivity. Qed.

Lemma lsum_add_epi64 a b :
  length a = length b -> cong64 (sum_list (add_epi64 a b)) (sum_list a + sum_list b).
Proof.
  revert b. induction a as [|x a IH]; destruct b as [|y b]; intros H; try discriminate.
  - apply cong64_refl.
  - cbn [add_epi64 map2 sum_list fold_right].
    apply cong64_trans with (x + y + (sum_list a + sum_list b)).
    + apply cong64_add; [apply cong64_u64|]. apply IH. cbn in H. congruence.
    + unfold sum_list. exists 0. lia.
Qed.

Lemma lsum_slli_epi64 a k :
  0 <= k -> cong64 (sum_list (slli_epi64 a k)) (2 ^ k * sum_list a).
Proof.
  intros Hk. induction a as [|x a IH].
  - exists 0. cbn. lia.
  - cbn [slli_epi64 map sum_list fold_right].
    apply cong64_trans with (x * 2 ^ k + 2 ^ k * sum_list a).
    + apply cong64_add; [|exact IH].
      rewrite Z.shiftl_mul_pow2 by lia. apply cong64_u64.
    + unfold sum_list. exists 0. lia.
Qed.

Lemma hsum_from s r :
  cong64 (fold_left (fun s x => u64 (s + x)) r s) (s + sum_list r) /\
  (0 <= s < 2 ^ 64 -> 0 <= fold_left (fun s x => u64 (s + x)) r s < 2 ^ 64).
Proof.
  revert s. induction r as [|x r IH]; intros s; cbn [fold_left sum_list fold_right].
  - split; [exists 0; lia|auto].
  - destruct (IH (u64 (s + x))) as (IH1 & IH2). split.
    + apply cong64_trans with (u64 (s + x) + sum_list r); [exact IH1|].
      apply cong64_trans with (s + x + sum_list r).
      * apply cong64_add; [apply cong64_u64|apply cong64_refl].
      * unfold sum_list. exists 0. lia.
    + intros _. apply IH2. apply u64_range.
Qed.

Lemma hsum_cong r : cong64 (hsum r) (sum_list r).
Proof. unfold hsum. destruct (hsum_from 0 r) as (H & _). rewrite Z.add_0_l in H. exact H. Qed.

Lemma hsum_range r : 0 <= hsum r < 2 ^ 64.
Proof.
  unfold hsum. destruct (hsum_from 0 r) as (_ & H). apply H.
  change (2 ^ 64) with 18446744073709551616. lia.
Qed.

(** ** Carry-save adders preserve the weighted popcount *)

Lemma popcount_bits_csa n h l a b c :
  (forall i, 0 <= i < Z.of_nat n ->
             Z.testbit l i = csa_low (Z.testbit a i) (Z.testbit b i) (Z.testbit c i) /\
             Z.testbit h i = csa_high (Z.testbit a i) (Z.testbit b i) (Z.testbit c i)) ->
  2 * popcount_bits n h + popcount_bits n l
  = popcount_bits n a + popcount_bits n b + popcount_bits n c.
Proof.
  induction n as [|n IH]; intros H; [reflexivity|].
  cbn [popcount_bits].
  destruct (H (Z.of_nat n)) as (Hl & Hh); [lia|].
  rewrite Hl, Hh.
  assert (IH' := IH (fun i Hi => H i ltac:(lia))).
  destruct (Z.testbit a (Z.of_nat n)), (Z.testbit b (Z.of_nat n)),
    (Z.testbit c (Z.of_nat n)); cbn [csa_low csa_high xorb andb orb Z.b2z]; lia.
Qed.

Lemma csa_lane_bitwise x y z :
  2 * FIC_POPCOUNT (Z.lor (Z.land x y) (Z.land (Z.lxor x y) z))
  + FIC_POPCOUNT (Z.lxor (Z.lxor x y) z)
  = FIC_POPCOUNT x + FIC_POPCOUNT y + FIC_POPCOUNT z.
Proof.
  apply popcount_bits_csa. intros i _.
  rewrite !Z.lxor_spec, Z.lor_spec, !Z.land_spec, Z.lxor_spec. split; reflexivity.
Qed.

Lemma csa_lane_ternary x y z :
  2 * FIC_POPCOUNT
        (bits_upto 64
           (fun i => ternary_bit 0xe8 (Z.testbit z i) (Z.testbit y i) (Z.testbit x i)))
  + FIC_POPCOUNT
      (bits_upto 64
         (fun i => ternary_bit 0x96 (Z.testbit z i) (Z.testbit y i) (Z.testbit x i)))
  = FIC_POPCOUNT x + FIC_POPCOUNT y + FIC_POPCOUNT z.
Proof.
  apply popcount_bits_csa. intros i Hi.
  rewrite !bits_upto_testbit by lia.
  destruct (Z.ltb_spec i (Z.of_nat 64)); [|lia]. cbn [andb].
  rewrite ternary_0x96, ternary_0xe8. split; reflexivity.
Qed.

Lemma map3_length {A B C D : Type} (f : A -> B -> C -> D) :
  forall l1 l2 l3,
    length l1 = length l2 -> length l1 = length l3 -> length (map3 f l1 l2 l3) = length l1.
Proof.
  induction l1 as [|a l1 IH]; destruct l2 as [|b l2]; destruct l3 as [|c l3];
    cbn; intros H2 H3; try congruence.
  f_equal. apply IH; congruence.
Qed.

Lemma csa_bitwise_length a b c :
  length a = length b -> length a = length c ->
  length (v_or (v_and a b) (v_and (v_xor a b) c)) = length a /\
  length (v_xor (v_xor a b) c) = length a.
Proof.
  intros Hb Hc. unfold v_or, v_and, v_xor.
  repeat (rewrite map2_length; [|repeat rewrite map2_length; congruence]).
  split; congruence.
Qed.

Lemma csa_bitwise_popcount a b c :
  length a = length b -> length a = length c ->
  2 * reg_popcount (v_or (v_and a b) (v_and (v_xor a b) c))
  + reg_popcount (v_xor (v_xor a b) c)
  = reg_popcount a + reg_popcount b + reg_popcount c.
Proof.
  revert b c. induction a as [|x a IH]; destruct b as [|y b]; destruct c as [|z c];
    intros Hb Hc; try discriminate; [reflexivity|].
  cbn in Hb, Hc.
  specialize (IH b c ltac:(congruence) ltac:(congruence)).
  pose proof (csa_lane_bitwise x y z) as Hl.
  unfold reg_popcount, v_or, v_and, v_xor in *.
  cbn [map2 map sum_list fold_right] in *. unfold sum_list in *. lia.
Qed.

Lemma csa_ternary_popcount a b c :
  length a = length b -> length a = length c ->
  2 * reg_popcount (ternarylogic c b a 0xe8) + reg_popcount (ternarylogic c b a 0x96)
  = reg_popcount a + reg_popcount b + reg_popcount c.
Proof.
  revert b c. induction a as [|x a IH]; destruct b as [|y b]; destruct c as [|z c];
    intros Hb Hc; try discriminate; [reflexivity|].
  cbn in Hb, Hc.
  specialize (IH b c ltac:(congruence) ltac:(congruence)).
  pose proof (csa_lane_ternary x y z) as Hl.
  unfold reg_popcount, ternarylogic in *.
  cbn [map3 map sum_list fold_right] in *. unfold sum_list in *. lia.
Qed.

(** A carry-save adder on registers of [lanes] lanes: its outputs have
    [lanes] lanes and twice the set bits of [h] plus the set bits of [l] are
    the set bits of the three inputs. *)
Section Adder.
Variable lanes : nat.
Variable CSA : reg -> reg -> reg -> reg * reg.
Hypothesis CSA_length :
  forall a b c, length a = lanes -> length b = lanes -> length c = lanes ->
                length (fst (CSA a b c)) = lanes /\ length (snd (CSA a b c)) = lanes.
Hypothesis CSA_popcount :
  forall a b c, length a = lanes -> length b = lanes -> length c = lanes ->
                2 * reg_popcount (fst (CSA a b c)) + reg_popcount (snd (CSA a b c))
                = reg_popcount a + reg_popcount b + reg_popcount c.

Ltac csa_step :=
  match goal with
  | |- context [CSA ?a ?b ?c] =>
      let Hlen := fresh "Hlen" in
      let Hpop := fresh "Hpop" in
      assert (Hlen := CSA_length a b c ltac:(auto) ltac:(auto) ltac:(auto));
      assert (Hpop := CSA_popcount a b c ltac:(auto) ltac:(auto) ltac:(auto));
      destruct (CSA a b c) as [? ?]; cbn [fst snd] in Hlen, Hpop; destruct Hlen
  end.

(** One round of fifteen additions moves the set bits of its sixteen blocks
    into the accumulators and [sixteens]. *)
Lemma csa_round_weight (blk : Z -> reg) (ones twos fours eights : reg) :
  (forall k, length (blk k) = lanes) ->
  length ones = lanes -> length twos = lanes -> length fours = lanes ->
  length eights = lanes ->
  forall acc' sixteens,
    csa_round CSA blk (ones, twos, fours, eights) = (acc', sixteens) ->
    (length (fst (fst (fst acc'))) = lanes /\ length (snd (fst (fst acc'))) = lanes /\
     length (snd (fst acc')) = lanes /\ length (snd acc') = lanes /\
     length sixteens = lanes) /\
    16 * reg_popcount sixteens + weight acc'
    = weight (ones, twos, fours, eights) + sum_upto 16 (fun k => reg_popcount (blk k)).
Proof.
  intros Hblk Ho Ht Hf He acc' sixteens. unfold csa_round.
  do 15 csa_step.
  intros [= <- <-]. cbn [fst snd weight sum_upto Z.of_nat Pos.of_succ_nat Pos.succ].
  split; [auto 10|]. lia.
Qed.
End Adder.

(** ** Blocks of words *)

Lemma sum_upto_add n m g :
  sum_upto (n + m) g = sum_upto n g + sum_upto m (fun k => g (Z.of_nat n + k)).
Proof.
  induction m as [|m IH].
  - rewrite Nat.add_0_r. cbn. lia.
  - rewrite Nat.add_succ_r. cbn [sum_upto]. rewrite IH.
    rewrite Nat2Z.inj_add. lia.
Qed.

Lemma sum_upto_seq m g :
  sum_upto m g = sum_list (map (fun k => g (Z.of_nat k)) (seq 0 m)).
Proof.
  induction m as [|m IH]; [reflexivity|].
  rewrite seq_S, map_app, sum_list_app. cbn [sum_upto map sum_list fold_right Nat.add].
  rewrite IH. lia.
Qed.

Lemma words_sum_bounds b1 b2 m : 0 <= m -> 0 <= words_sum b1 b2 m <= 64 * m.
Proof.
  intros Hm. unfold words_sum.
  pose proof (sum_upto_and_popcount_bounds b1 b2 (Z.to_nat m)). lia.
Qed.

Lemma words_sum_add b1 b2 m k :
  0 <= m ->
  words_sum b1 b2 (m + Z.of_nat k)
  = words_sum b1 b2 m + sum_upto k (fun j => and_popcount b1 b2 (m + j)).
Proof.
  intros Hm. unfold words_sum.
  replace (Z.to_nat (m + Z.of_nat k)) with (Z.to_nat m + k)%nat by lia.
  rewrite sum_upto_add. f_equal. apply sum_upto_ext. intros j _. f_equal. lia.
Qed.

Lemma load_length lanes b i : length (load lanes b i) = lanes.
Proof. unfold load. rewrite length_map, length_seq. reflexivity. Qed.

Lemma map2_map {A B C D : Type} (f : B -> C -> D) (g : A -> B) (h : A -> C) l :
  map2 f (map g l) (map h l) = map (fun x => f (g x) (h x)) l.
Proof. induction l as [|x l IH]; cbn; [reflexivity|]. f_equal. exact IH. Qed.

Lemma block_length lanes d1 d2 i : length (v_and (load lanes d1 i) (load lanes d2 i)) = lanes.
Proof. unfold v_and. rewrite map2_length; rewrite !load_length; reflexivity. Qed.

(** The set bits of block [i] are those of its words. *)
Lemma block_popcount lanes d1 d2 i :
  0 <= i ->
  reg_popcount (v_and (load lanes d1 i) (load lanes d2 i))
  = words_sum d1 d2 (Z.of_nat lanes * (i + 1)) - words_sum d1 d2 (Z.of_nat lanes * i).
Proof.
  intros Hi.
  replace (Z.of_nat lanes * (i + 1)) with (Z.of_nat lanes * i + Z.of_nat lanes) by lia.
  rewrite words_sum_add by lia.
  unfold reg_popcount, v_and, load. rewrite map2_map, map_map, sum_upto_seq.
  unfold and_popcount. lia.
Qed.

Lemma blocks_popcount lanes d1 d2 i n :
  0 <= i ->
  sum_upto n (fun k => reg_popcount (v_and (load lanes d1 (i + k)) (load lanes d2 (i + k))))
  = words_sum d1 d2 (Z.of_nat lanes * (i + Z.of_nat n)) - words_sum d1 d2 (Z.of_nat lanes * i).
Proof.
  intros Hi. induction n as [|n IH].
  - cbn [sum_upto]. rewrite Z.add_0_r. lia.
  - cbn [sum_upto]. rewrite IH, block_popcount by lia.
    replace (i + Z.of_nat (Datatypes.S n)) with (i + Z.of_nat n + 1) by lia. lia.
Qed.

Lemma reg_popcount_setzero lanes : reg_popcount (setzero lanes) = 0.
Proof.
  unfold reg_popcount, setzero. induction lanes as [|n IH]; [reflexivity|].
  cbn [repeat map sum_list fold_right]. unfold sum_list in IH. rewrite IH. reflexivity.
Qed.

Lemma sum_list_setzero lanes : sum_list (setzero lanes) = 0.
Proof.
  unfold setzero. induction lanes as [|n IH]; [reflexivity|].
  cbn [repeat sum_list fold_right]. unfold sum_list in IH. rewrite IH. reflexivity.
Qed.

Lemma for_range_inv {S : Type} (P : Z -> S -> Prop) (body : Z -> S -> S) lo hi s :
  lo <= hi -> P lo s ->
  (forall x t, lo <= x < hi -> P x t -> P (x + 1) (body x t)) ->
  P hi (for_range lo hi body s).
Proof.
  intros Hle H0 Hstep.
  remember (Z.to_nat (hi - lo)) as n eqn:Hn.
  revert lo s Hn Hle H0 Hstep. induction n as [|n IH]; intros lo s Hn Hle H0 Hstep.
  - rewrite for_range_empty by lia. replace hi with lo by lia. exact H0.
  - rewrite for_range_first by lia. apply IH; try lia.
    + apply Hstep; [lia|exact H0].
    + intros x t Hx. apply Hstep. lia.
Qed.

(** ** The Harley-Seal loop *)

Lemma add_epi64_length a b : length a = length b -> length (add_epi64 a b) = length a.
Proof. apply map2_length. Qed.

Lemma slli_epi64_length a k : length (slli_epi64 a k) = length a.
Proof. apply length_map. Qed.

Lemma setzero_length lanes : length (setzero lanes) = lanes.
Proof. apply repeat_length. Qed.

Section Kernel.
Variable lanes : nat.
Variable CSA : reg -> reg -> reg -> reg * reg.
Variable popcnt : reg -> reg.
Hypothesis CSA_length :
  forall a b c, length a = lanes -> length b = lanes -> length c = lanes ->
                length (fst (CSA a b c)) = lanes /\ length (snd (CSA a b c)) = lanes.
Hypothesis CSA_popcount :
  forall a b c, length a = lanes -> length b = lanes -> length c = lanes ->
                2 * reg_popcount (fst (CSA a b c)) + reg_popcount (snd (CSA a b c))
                = reg_popcount a + reg_popcount b + reg_popcount c.
Hypothesis popcnt_lanes :
  forall r, length r = lanes -> popcnt r = map FIC_POPCOUNT r.

Variables data1 data2 : list Z.

Let ws (m : Z) : Z := words_sum data1 data2 (Z.of_nat lanes * m).

(** The state of the main loop after the blocks before [i]. *)
Let main_inv (size : Z) (s : Z * (reg * reg * reg * reg) * reg) : Prop :=
  let '(i, acc, cnt) := s in
  (exists k, i = 16 * k /\ 0 <= k <= size / 16) /\
  (length (fst (fst (fst acc))) = lanes /\ length (snd (fst (fst acc))) = lanes /\
   length (snd (fst acc)) = lanes /\ length (snd acc) = lanes /\ length cnt = lanes) /\
  cong64 (16 * sum_list cnt + weight acc) (ws i).

Lemma popcnt_sum r : length r = lanes -> sum_list (popcnt r) = reg_popcount r.
Proof. intros H. rewrite popcnt_lanes by exact H. reflexivity. Qed.

Lemma popcnt_length r : length r = lanes -> length (popcnt r) = lanes.
Proof. intros H. rewrite popcnt_lanes by exact H. rewrite length_map. exact H. Qed.

Lemma harley_seal_sum (size : Z) :
  0 <= size -> 64 * (Z.of_nat lanes * size) < 2 ^ 64 ->
  harley_seal lanes CSA popcnt data1 data2 size
  = Some (words_sum data1 data2 (Z.of_nat lanes * size)).
Proof.
  intros Hsize Hmax. unfold harley_seal.
  pose proof (Z.div_mod size 16 ltac:(lia)) as Hdm.
  pose proof (Z.mod_pos_bound size 16 ltac:(lia)) as Hmod.
  assert (Hlimit : size - size mod 16 = 16 * (size / 16)) by lia.
  rewrite Hlimit.
  match goal with
  | |- context [while ?k ?cond ?body ?s0] =>
      destruct (fun H =>
                  while_inv (main_inv size)
                    (fun s => Z.to_nat (16 * (size / 16) - fst (fst s))) cond body H k s0)
        as (((i, (((ones, twos), fours), eights)), cnt) & -> & Hinv & Hc)
  end.
  - (* one round *)
    intros ((i, (((ones, twos), fours), eights)), cnt) Hinv Hcond.
    destruct Hinv as ((k & -> & Hk) & (Ho & Ht & Hf & He & Hcnt) & Hcong).
    cbn [fst snd] in *. apply Z.ltb_lt in Hcond.
    destruct (csa_round CSA (fun k0 => v_and (load lanes data1 (16 * k + k0))
                                         (load lanes data2 (16 * k + k0)))
                (ones, twos, fours, eights)) as (acc', sixteens) eqn:Hround.
    destruct (csa_round_weight lanes CSA CSA_length CSA_popcount _ ones twos fours eights
                (fun k0 => block_length lanes data1 data2 (16 * k + k0))
                Ho Ht Hf He acc' sixteens Hround)
      as ((Ho' & Ht' & Hf' & He' & Hs') & Hw).
    rewrite blocks_popcount in Hw by lia.
    eexists; split; [reflexivity|]. split; [|cbn [fst]; lia].
    unfold main_inv. split; [exists (k + 1); lia|]. split.
    + repeat split; try assumption.
      rewrite add_epi64_length; [assumption|]. rewrite popcnt_length; congruence.
    + pose proof (lsum_add_epi64 cnt (popcnt sixteens)) as (q1 & E1);
        [rewrite popcnt_length; congruence|].
      rewrite popcnt_sum in E1 by assumption.
      destruct Hcong as (q2 & E2). unfold ws in *.
      exists (16 * q1 + q2).
      replace (16 * k + Z.of_nat 16) with (16 * k + 16) in Hw by lia.
      lia.
  - (* the initial state *)
    unfold main_inv. split; [exists 0; split; [lia|]; split; [lia|apply Z.div_pos; lia]|].
    cbn [fst snd weight]. rewrite !setzero_length.
    split; [repeat split; reflexivity|].
    rewrite !reg_popcount_setzero, sum_list_setzero. unfold ws, words_sum.
    replace (Z.to_nat (Z.of_nat lanes * 0)) with O by lia.
    exists 0. cbn [sum_upto]. lia.
  - cbn [fst]. lia.
  - (* after the loop *)
    destruct Hinv as ((k & -> & Hk) & (Ho & Ht & Hf & He & Hcnt) & Hcong).
    cbn [fst snd] in *. apply Z.ltb_ge in Hc.
    assert (k = size / 16) by lia. subst k.
    cbn [obind]. f_equal.
    set (c1 := slli_epi64 cnt 4).
    set (c2 := add_epi64 c1 (slli_epi64 (popcnt eights) 3)).
    set (c3 := add_epi64 c2 (slli_epi64 (popcnt fours) 2)).
    set (c4 := add_epi64 c3 (slli_epi64 (popcnt twos) 1)).
    set (c5 := add_epi64 c4 (popcnt ones)).
    assert (L1 : length c1 = lanes) by (unfold c1; rewrite slli_epi64_length; assumption).
    assert (L2 : length c2 = lanes)
      by (unfold c2; rewrite add_epi64_length; [assumption|];
          rewrite slli_epi64_length, popcnt_length; congruence).
    assert (L3 : length c3 = lanes)
      by (unfold c3; rewrite add_epi64_length; [assumption|];
          rewrite slli_epi64_length, popcnt_length; congruence).
    assert (L4 : length c4 = lanes)
      by (unfold c4; rewrite add_epi64_length; [assumption|];
          rewrite slli_epi64_length, popcnt_length; congruence).
    assert (L5 : length c5 = lanes)
      by (unfold c5; rewrite add_epi64_length; [assumption|];
          rewrite popcnt_length; congruence).
    assert (S5 : cong64 (sum_list c5) (ws (16 * (size / 16)))).
    { destruct (lsum_slli_epi64 cnt 4 ltac:(lia)) as (q1 & E1). fold c1 in E1.
      destruct (lsum_slli_epi64 (popcnt eights) 3 ltac:(lia)) as (q2 & E2).
      destruct (lsum_slli_epi64 (popcnt fours) 2 ltac:(lia)) as (q3 & E3).
      destruct (lsum_slli_epi64 (popcnt twos) 1 ltac:(lia)) as (q4 & E4).
      rewrite popcnt_sum in E2, E3, E4 by assumption.
      destruct (lsum_add_epi64 c1 (slli_epi64 (popcnt eights) 3)) as (q5 & E5);
        [rewrite slli_epi64_length, popcnt_length; congruence|]. fold c2 in E5.
      destruct (lsum_add_epi64 c2 (slli_epi64 (popcnt fours) 2)) as (q6 & E6);
        [rewrite slli_epi64_length, popcnt_length; congruence|]. fold c3 in E6.
      destruct (lsum_add_epi64 c3 (slli_epi64 (popcnt twos) 1)) as (q7 & E7);
        [rewrite slli_epi64_length, popcnt_length; congruence|]. fold c4 in E7.
      destruct (lsum_add_epi64 c4 (popcnt ones)) as (q8 & E8);
        [rewrite popcnt_length; congruence|]. fold c5 in E8.
      rewrite popcnt_sum in E8 by assumption.
      destruct Hcong as (q9 & E9). unfold weight in E9.
      change (2 ^ 4) with 16 in E1. change (2 ^ 3) with 8 in E2.
      change (2 ^ 2) with 4 in E3. change (2 ^ 1) with 2 in E4.
      exists (q1 + q2 + q3 + q4 + q5 + q6 + q7 + q8 + q9). lia. }
    assert (Stail :
              let cnt' := for_range (16 * (size / 16)) size
                            (fun i cnt => add_epi64 cnt
                               (popcnt (v_and (load lanes data1 i) (load lanes data2 i)))) c5 in
              length cnt' = lanes /\ cong64 (sum_list cnt') (ws size)).
    { apply (for_range_inv (fun x c => length c = lanes /\ cong64 (sum_list c) (ws x)));
        [lia|split; assumption|].
      intros x c Hx (Lc & Sc).
      assert (Lp : length (popcnt (v_and (load lanes data1 x) (load lanes data2 x))) = lanes)
        by (apply popcnt_length, block_length).
      split; [rewrite add_epi64_length; congruence|].
      destruct (lsum_add_epi64 c
                  (popcnt (v_and (load lanes data1 x) (load lanes data2 x)))
                  ltac:(congruence)) as (q1 & E1).
      rewrite popcnt_sum in E1 by apply block_length.
      rewrite block_popcount in E1 by lia.
      destruct Sc as (q2 & E2). unfold ws in *. exists (q1 + q2). lia. }
    cbn zeta in Stail. destruct Stail as (_ & Stail).
    apply cong64_small.
    + apply cong64_trans with (1 := hsum_cong _). exact Stail.
    + apply hsum_range.
    + pose proof (words_sum_bounds data1 data2 (Z.of_nat lanes * size) ltac:(lia)). lia.
Qed.
End Kernel.

(** ** The tails over the odd words *)

Lemma words_sum_succ b1 b2 m :
  0 <= m -> words_sum b1 b2 (m + 1) = words_sum b1 b2 m + and_popcount b1 b2 m.
Proof.
  intros Hm. change 1 with (Z.of_nat 1). rewrite words_sum_add by lia.
  cbn [sum_upto Z.of_nat]. rewrite Z.add_0_r. lia.
Qed.

Lemma words_sum_mono b1 b2 lo hi :
  0 <= lo <= hi ->
  0 <= words_sum b1 b2 hi - words_sum b1 b2 lo <= 64 * (hi - lo).
Proof.
  intros H.
  assert (E : words_sum b1 b2 hi
              = words_sum b1 b2 lo
                + sum_upto (Z.to_nat (hi - lo)) (fun j => and_popcount b1 b2 (lo + j))).
  { rewrite <- words_sum_add by lia. f_equal. lia. }
  pose proof (sum_upto_bounds (Z.to_nat (hi - lo)) (fun j => and_popcount b1 b2 (lo + j)) 64
                (fun k _ => FIC_POPCOUNT_bounds _)).
  lia.
Qed.

(** The word-at-a-time loop from any count. *)
Lemma for_range_and_popcount_from b1 b2 lo hi c :
  0 <= lo <= hi -> 0 <= c -> c + 64 * (hi - lo) < 2 ^ 64 ->
  for_range lo hi (and_popcount_step b1 b2) c
  = c + (words_sum b1 b2 hi - words_sum b1 b2 lo).
Proof.
  intros Hlo Hc Hmax.
  apply (for_range_inv
           (fun x t => lo <= x <= hi /\ t = c + (words_sum b1 b2 x - words_sum b1 b2 lo)));
    [lia|split; lia|].
  intros x t Hx (_ & ->). split; [lia|].
  unfold and_popcount_step. fold (and_popcount b1 b2 x).
  rewrite words_sum_succ by lia.
  pose proof (words_sum_mono b1 b2 lo x ltac:(lia)).
  pose proof (FIC_POPCOUNT_bounds (Z.land b1.[x] b2.[x])) as Hp.
  fold (and_popcount b1 b2 x) in Hp.
  rewrite u64_small by lia. lia.
Qed.

Lemma cong64_u64_add a a' b b' :
  cong64 a a' -> cong64 b b' -> cong64 (u64 (a + b)) (a' + b').
Proof.
  intros Ha Hb. apply cong64_trans with (a + b); [apply cong64_u64|].
  apply cong64_add; assumption.
Qed.

Lemma cong64_u64_shiftl x k : 0 <= k -> cong64 (u64 (Z.shiftl x k)) (2 ^ k * x).
Proof.
  intros Hk. rewrite Z.shiftl_mul_pow2 by lia. rewrite Z.mul_comm. apply cong64_u64.
Qed.

(** ** The SSE4.1 kernel *)

Lemma FIC_POPCOUNT_SSE_popcount n : length n = 2%nat -> FIC_POPCOUNT_SSE n = reg_popcount n.
Proof.
  destruct n as [|x [|y [|z n]]]; try discriminate. intros _.
  unfold FIC_POPCOUNT_SSE, reg_popcount. cbn. lia.
Qed.

Lemma CSA128_length a b c :
  length a = 2%nat -> length b = 2%nat -> length c = 2%nat ->
  length (fst (CSA128 a b c)) = 2%nat /\ length (snd (CSA128 a b c)) = 2%nat.
Proof.
  intros Ha Hb Hc. unfold CSA128. cbn [fst snd].
  destruct (csa_bitwise_length a b c) as (H1 & H2); [congruence|congruence|].
  unfold _mm_or_si128, _mm_and_si128, _mm_xor_si128. split; congruence.
Qed.

Lemma CSA128_popcount a b c :
  length a = 2%nat -> length b = 2%nat -> length c = 2%nat ->
  2 * reg_popcount (fst (CSA128 a b c)) + reg_popcount (snd (CSA128 a b c))
  = reg_popcount a + reg_popcount b + reg_popcount c.
Proof. intros Ha Hb Hc. apply csa_bitwise_popcount; congruence. Qed.

(** The SSE4.1 Harley-Seal function returns the set bits of all its blocks
    only when their number is a multiple of 16; otherwise its tail loop
    leaves the set bits of the last block alone. *)
Lemma popcnt_sse4_csa_intersect_result (data1 data2 : list Z) (size : Z) :
  0 <= size -> 64 * (2 * size) < 2 ^ 64 ->
  popcnt_sse4_csa_intersect data1 data2 size
  = Some (if size mod 16 =? 0 then words_sum data1 data2 (2 * size)
          else words_sum data1 data2 (2 * size) - words_sum data1 data2 (2 * (size - 1))).
Proof.
  intros Hsize Hmax. unfold popcnt_sse4_csa_intersect.
  pose proof (Z.div_mod size 16 ltac:(lia)) as Hdm.
  pose proof (Z.mod_pos_bound size 16 ltac:(lia)) as Hmod.
  assert (Hlimit : size - size mod 16 = 16 * (size / 16)) by lia.
  rewrite Hlimit.
  match goal with
  | |- context [while ?n0 ?cond ?body ?s0] =>
      destruct (fun H =>
                  while_inv
                    (fun s : Z * (reg * reg * reg * reg) * Z =>
                       let '(i, acc, cnt64) := s in
                       (exists k, i = 16 * k /\ 0 <= k <= size / 16) /\
                       (length (fst (fst (fst acc))) = 2%nat /\
                        length (snd (fst (fst acc))) = 2%nat /\
                        length (snd (fst acc)) = 2%nat /\ length (snd acc) = 2%nat) /\
                       cong64 (16 * cnt64 + weight acc) (words_sum data1 data2 (2 * i)))
                    (fun s => Z.to_nat (16 * (size / 16) - fst (fst s))) cond body H n0 s0)
        as (((i, (((ones, twos), fours), eights)), cnt64) & -> & Hinv & Hc)
  end.
  - intros ((i, (((ones, twos), fours), eights)), cnt64) Hinv Hcond.
    destruct Hinv as ((k & -> & Hk) & (Ho & Ht & Hf & He) & Hcong).
    cbn [fst snd] in *. apply Z.ltb_lt in Hcond.
    destruct (csa_round CSA128 (fun k0 => v_and (load 2 data1 (16 * k + k0))
                                            (load 2 data2 (16 * k + k0)))
                (ones, twos, fours, eights)) as (acc', sixteens) eqn:Hround.
    destruct (csa_round_weight 2 CSA128 CSA128_length CSA128_popcount _ ones twos fours eights
                (fun k0 => block_length 2 data1 data2 (16 * k + k0))
                Ho Ht Hf He acc' sixteens Hround)
      as ((Ho' & Ht' & Hf' & He' & Hs') & Hw).
    rewrite blocks_popcount in Hw by lia.
    eexists; split; [reflexivity|]. split; [|cbn [fst]; lia].
    split; [exists (k + 1); lia|]. split; [repeat split; assumption|].
    rewrite FIC_POPCOUNT_SSE_popcount by assumption.
    destruct (cong64_u64 (cnt64 + reg_popcount sixteens)) as (q1 & E1).
    destruct Hcong as (q2 & E2).
    exists (16 * q1 + q2).
    replace (16 * k + Z.of_nat 16) with (16 * k + 16) in Hw by lia.
    change (Z.of_nat 2) with 2 in Hw.
    replace (2 * (16 * k + 16)) with (2 * (16 * k) + 32) in * by lia.
    lia.
  - split; [exists 0; split; [lia|]; split; [lia|apply Z.div_pos; lia]|].
    cbn [fst snd weight]. unfold _mm_setzero_si128. rewrite !setzero_length.
    split; [repeat split; reflexivity|].
    rewrite !reg_popcount_setzero. exists 0. reflexivity.
  - cbn [fst]. lia.
  - destruct Hinv as ((k & -> & Hk) & (Ho & Ht & Hf & He) & Hcong).
    cbn [fst snd] in *. apply Z.ltb_ge in Hc.
    assert (k = size / 16) by lia. subst k.
    cbn [obind]. f_equal.
    rewrite !FIC_POPCOUNT_SSE_popcount by assumption.
    match goal with
    | |- for_range _ _ _ ?c = _ =>
        assert (S5 : c = words_sum data1 data2 (2 * (16 * (size / 16))))
    end.
    { apply cong64_small.
      - apply cong64_trans with (2 := Hcong). unfold weight.
        apply cong64_trans
          with (2 ^ 4 * cnt64 + 2 ^ 3 * reg_popcount eights + 2 ^ 2 * reg_popcount fours
                + 2 ^ 1 * reg_popcount twos + 2 ^ 0 * reg_popcount ones);
          [|exists 0; change (2 ^ 4) with 16; change (2 ^ 3) with 8; change (2 ^ 2) with 4;
            change (2 ^ 1) with 2; change (2 ^ 0) with 1; lia].
        repeat apply cong64_u64_add; apply cong64_u64_shiftl; lia.
      - apply u64_range.
      - pose proof (words_sum_bounds data1 data2 (2 * (16 * (size / 16))) ltac:(lia)). lia. }
    rewrite S5. destruct (Z.eqb_spec (size mod 16) 0) as [E|E].
    + rewrite for_range_empty by lia. f_equal. lia.
    + rewrite for_range_final by lia.
      rewrite FIC_POPCOUNT_SSE_popcount by apply block_length.
      rewrite block_popcount by lia. change (Z.of_nat 2) with 2.
      replace (size - 1 + 1) with size by lia. reflexivity.
Qed.

(** What [intersect_bitmaps_sse4] returns, for every input. *)
Lemma intersect_bitmaps_sse4_result (b1 b2 : list Z) (n_ints : Z) :
  0 <= n_ints <= INT_MAX ->
  intersect_bitmaps_sse4 b1 b2 n_ints = Some (sse4_result b1 b2 n_ints).
Proof.
  unfold INT_MAX. intros Hn. unfold intersect_bitmaps_sse4, sse4_result.
  pose proof (Z.div_mod n_ints 2 ltac:(lia)) as Hdm.
  pose proof (Z.mod_pos_bound n_ints 2 ltac:(lia)) as Hmod.
  rewrite popcnt_sse4_csa_intersect_result
    by (change (2 ^ 64) with 18446744073709551616; lia).
  cbn [obind]. f_equal. rewrite Z.add_0_l.
  rewrite (u32_small (n_ints / 2 * 2)) by (change (2 ^ 32) with 4294967296; lia).
  change (fun i count => u64 (count + _mm_popcnt_u64 (Z.land b1.[i] b2.[i])))
    with (and_popcount_step b1 b2).
  replace (n_ints / 2 * 2) with (2 * (n_ints / 2)) by lia.
  pose proof (words_sum_bounds b1 b2 (2 * (n_ints / 2)) ltac:(lia)) as Hb.
  pose proof (words_sum_mono b1 b2 (2 * (n_ints / 2 - 1)) (2 * (n_ints / 2))) as Hm.
  destruct (Z.eqb_spec ((n_ints / 2) mod 16) 0) as [E|E].
  - rewrite u64_small by (change (2 ^ 64) with 18446744073709551616; lia).
    rewrite for_range_and_popcount_from
      by (change (2 ^ 64) with 18446744073709551616; lia).
    lia.
  - assert (1 <= n_ints / 2).
    { destruct (Z.eq_dec (n_ints / 2) 0) as [E0|E0]; [rewrite E0 in E; cbn in E|]; lia. }
    specialize (Hm ltac:(lia)).
    rewrite u64_small by (change (2 ^ 64) with 18446744073709551616; lia).
    rewrite for_range_and_popcount_from
      by (change (2 ^ 64) with 18446744073709551616; lia).
    lia.
Qed.

(** When the number of 128-bit blocks is a multiple of 16 the SSE4.1 kernel
    agrees with the scalar kernel. *)
Lemma intersect_bitmaps_sse4_aligned (b1 b2 : list Z) (n_ints : Z) :
  0 <= n_ints <= INT_MAX -> (n_ints / 2) mod 16 = 0 ->
  intersect_bitmaps_sse4 b1 b2 n_ints = intersect_bitmaps_scalar b1 b2 n_ints.
Proof.
  intros Hn Hal. rewrite intersect_bitmaps_sse4_result, intersect_bitmaps_scalar_words by assumption.
  unfold sse4_result. rewrite Hal. reflexivity.
Qed.


(** ** Fields of a lane, bit by bit *)

Lemma testbit_field w x k j :
  0 <= w -> 0 <= j ->
  Z.testbit (field w x k) j = (j <? w) && Z.testbit x (w * Z.of_nat k + j).
Proof.
  intros Hw Hj. unfold field.
  rewrite Z.land_spec, Z.shiftr_spec, Z.testbit_ones_nonneg by lia.
  rewrite andb_comm. f_equal. f_equal. lia.
Qed.

Lemma field_range w x k : 0 <= w -> 0 <= field w x k < 2 ^ w.
Proof.
  intros Hw. unfold field. rewrite Z.land_ones by lia.
  apply Z.mod_pos_bound. apply Z.pow_pos_nonneg; lia.
Qed.

Lemma testbit_above w f j : 0 <= w -> 0 <= f < 2 ^ w -> w <= j -> Z.testbit f j = false.
Proof.
  intros Hw Hf Hj. rewrite <- (Z.mod_small f (2 ^ w)) by lia.
  apply Z.mod_pow2_bits_high. lia.
Qed.

Lemma testbit_join w fs i :
  0 < w -> Forall (fun f => 0 <= f < 2 ^ w) fs -> 0 <= i ->
  Z.testbit (join w fs) i = Z.testbit (nth (Z.to_nat (i / w)) fs 0) (i mod w).
Proof.
  intros Hw Hfs. revert i. induction Hfs as [|f fs Hf Hfs IH]; intros i Hi.
  - cbn [join]. destruct (Z.to_nat (i / w)); cbn [nth]; rewrite !Z.testbit_0_l; reflexivity.
  - cbn [join]. rewrite Z.lor_spec.
    destruct (Z.ltb_spec i w) as [Hlt|Hge].
    + rewrite Z.shiftl_spec_low by lia. rewrite orb_false_r.
      rewrite Z.div_small, Z.mod_small by lia. reflexivity.
    + rewrite (testbit_above w f i) by lia. rewrite orb_false_l.
      rewrite Z.shiftl_spec by lia. rewrite IH by lia.
      replace (i / w) with ((i - w) / w + 1)
        by (rewrite <- Z.div_add by lia; f_equal; lia).
      assert (0 <= (i - w) / w) by (apply Z.div_pos; lia).
      replace (Z.to_nat ((i - w) / w + 1)) with (Datatypes.S (Z.to_nat ((i - w) / w))) by lia.
      cbn [nth]. f_equal.
      replace i with (i - w + 1 * w) at 2 by lia. rewrite Z.mod_add by lia. reflexivity.
Qed.

Lemma nth_range w (fs : list Z) k :
  0 <= w -> Forall (fun f => 0 <= f < 2 ^ w) fs -> 0 <= nth k fs 0 < 2 ^ w.
Proof.
  intros Hw Hfs. destruct (Nat.lt_ge_cases k (length fs)) as [Hlt|Hge].
  - rewrite Forall_forall in Hfs. apply Hfs. apply nth_In. exact Hlt.
  - rewrite nth_overflow by exact Hge. split; [lia|apply Z.pow_pos_nonneg; lia].
Qed.

Lemma field_join w fs k :
  0 < w -> Forall (fun f => 0 <= f < 2 ^ w) fs -> field w (join w fs) k = nth k fs 0.
Proof.
  intros Hw Hfs. apply Z.bits_inj'. intros j Hj.
  rewrite testbit_field by lia.
  destruct (Z.ltb_spec j w) as [Hlt|Hge]; cbn [andb].
  - rewrite testbit_join by (try assumption; nia).
    replace ((w * Z.of_nat k + j) / w) with (Z.of_nat k)
      by (apply Z.div_unique with j; lia).
    replace ((w * Z.of_nat k + j) mod w) with j
      by (apply Z.mod_unique with (Z.of_nat k); lia).
    rewrite Nat2Z.id. reflexivity.
  - symmetry. apply (testbit_above w); [lia| apply nth_range; [lia|assumption] |lia].
Qed.

Lemma map_nth_seq (fs : list Z) : map (fun k => nth k fs 0) (seq 0 (length fs)) = fs.
Proof.
  induction fs as [|f fs IH]; [reflexivity|].
  cbn [length seq map nth]. f_equal.
  rewrite <- seq_shift, map_map. exact IH.
Qed.

Lemma split_join w fs :
  0 < w -> Forall (fun f => 0 <= f < 2 ^ w) fs -> split w (length fs) (join w fs) = fs.
Proof.
  intros Hw Hfs. unfold split.
  rewrite (map_ext _ (fun k => nth k fs 0)) by (intros k; apply field_join; assumption).
  apply map_nth_seq.
Qed.

Lemma field_land w x y k : 0 <= w -> field w (Z.land x y) k = Z.land (field w x k) (field w y k).
Proof.
  intros Hw. apply Z.bits_inj'. intros j Hj.
  rewrite Z.land_spec, !testbit_field, Z.land_spec by lia.
  destruct (j <? w); cbn [andb]; reflexivity.
Qed.

Lemma split_land w n x y :
  0 <= w -> split w n (Z.land x y) = map2 Z.land (split w n x) (split w n y).
Proof.
  intros Hw. unfold split. rewrite map2_map.
  apply map_ext. intros k. apply field_land. exact Hw.
Qed.

Lemma split_length w n x : length (split w n x) = n.
Proof. unfold split. rewrite length_map, length_seq. reflexivity. Qed.

Lemma split_range w n x : 0 <= w -> Forall (fun f => 0 <= f < 2 ^ w) (split w n x).
Proof.
  intros Hw. unfold split. apply Forall_forall. intros f Hf.
  apply in_map_iff in Hf. destruct Hf as (k & <- & _). apply field_range. exact Hw.
Qed.

(** The 16-bit element [m] of a lane is made of its bytes [2m] and [2m+1]. *)
Lemma field16_bytes x m :
  field 16 x m = join 8 [field 8 x (2 * m); field 8 x (2 * m + 1)].
Proof.
  apply Z.bits_inj'. intros j Hj.
  rewrite testbit_field by lia.
  rewrite testbit_join; [|lia| |lia].
  2:{ repeat constructor; apply (field_range 8); lia. }
  assert (Hjm : 0 <= j mod 8 < 8) by (apply Z.mod_pos_bound; lia).
  assert (Hjd : j = 8 * (j / 8) + j mod 8) by (apply Z.div_mod; lia).
  destruct (Z.ltb_spec j 16) as [Hlt|Hge]; cbn [andb].
  - destruct (Z.ltb_spec j 8) as [Hlt8|Hge8].
    + replace (j / 8) with 0 by lia. change (Z.to_nat 0) with 0%nat. cbn [nth].
      rewrite (testbit_field 8 x (2 * m) (j mod 8)) by lia.
      destruct (Z.ltb_spec (j mod 8) 8); [|lia]. cbn [andb]. f_equal. lia.
    + replace (j / 8) with 1 by lia. change (Z.to_nat 1) with 1%nat. cbn [nth].
      rewrite (testbit_field 8 x (2 * m + 1) (j mod 8)) by lia.
      destruct (Z.ltb_spec (j mod 8) 8); [|lia]. cbn [andb]. f_equal. lia.
  - assert (2 <= j / 8) by lia.
    destruct (Z.to_nat (j / 8)) as [|[|[|n]]] eqn:E; try lia;
      cbn [nth]; rewrite Z.testbit_0_l; reflexivity.
Qed.

(** Byte [2m+i] of a lane made of 16-bit elements is byte [i] of element
    [m]. *)
Lemma field8_join16 fs m i :
  Forall (fun f => 0 <= f < 2 ^ 16) fs -> (i < 2)%nat ->
  field 8 (join 16 fs) (2 * m + i) = field 8 (nth m fs 0) i.
Proof.
  intros Hfs Hi. apply Z.bits_inj'. intros j Hj.
  rewrite !testbit_field by lia.
  destruct (Z.ltb_spec j 8) as [Hlt|Hge]; cbn [andb]; [|reflexivity].
  rewrite testbit_join by (try assumption; lia).
  replace ((8 * Z.of_nat (2 * m + i) + j) / 16) with (Z.of_nat m)
    by (apply Z.div_unique with (8 * Z.of_nat i + j); lia).
  replace ((8 * Z.of_nat (2 * m + i) + j) mod 16) with (8 * Z.of_nat i + j)
    by (apply Z.mod_unique with (Z.of_nat m); lia).
  rewrite Nat2Z.id. reflexivity.
Qed.

(** ** The byte view of the lane operations *)

Lemma map2_repeat {A B C : Type} (f : A -> B -> C) (l : list A) (c : B) :
  map2 f l (repeat c (length l)) = map (fun x => f x c) l.
Proof. induction l as [|x l IH]; cbn; [reflexivity|]. f_equal. exact IH. Qed.

Lemma split_land_mask x M m :
  split 8 8 M = repeat m 8 ->
  split 8 8 (Z.land x M) = map (fun b => Z.land b m) (split 8 8 x).
Proof.
  intros HM. rewrite split_land by lia. rewrite HM.
  rewrite <- (split_length 8 8 x) at 2. apply map2_repeat.
Qed.

Lemma Forall_map2_range (f : Z -> Z -> Z) l1 l2 :
  (forall p q, 0 <= f p q < 2 ^ 8) -> Forall (fun b => 0 <= b < 2 ^ 8) (map2 f l1 l2).
Proof.
  intros Hf. revert l2. induction l1 as [|x l1 IH]; destruct l2 as [|y l2]; cbn;
    constructor; [apply Hf|apply IH].
Qed.

Lemma split_bytewise f x y :
  (forall p q, 0 <= f p q < 2 ^ 8) ->
  split 8 8 (lane_bytewise f x y) = map2 f (split 8 8 x) (split 8 8 y).
Proof.
  intros Hf. unfold lane_bytewise.
  set (bs := map2 f (split 8 8 x) (split 8 8 y)).
  assert (Hlen : length bs = 8%nat)
    by (unfold bs; rewrite map2_length; rewrite !split_length; reflexivity).
  rewrite <- Hlen at 1. apply split_join; [lia|]. apply Forall_map2_range. exact Hf.
Qed.

Lemma lookup_byte_range table half idx :
  Forall (fun b => 0 <= b < 2 ^ 8) table -> 0 <= lookup_byte table half idx < 2 ^ 8.
Proof.
  intros Ht. unfold lookup_byte. destruct (Z.testbit idx 7).
  - split; [lia|reflexivity].
  - apply nth_range; [lia|exact Ht].
Qed.

Lemma split_shuffle table half x :
  Forall (fun b => 0 <= b < 2 ^ 8) table ->
  split 8 8 (lane_shuffle table half x) = map (lookup_byte table half) (split 8 8 x).
Proof.
  intros Ht. unfold lane_shuffle.
  set (bs := map (lookup_byte table half) (split 8 8 x)).
  assert (Hlen : length bs = 8%nat) by (unfold bs; rewrite length_map, split_length; reflexivity).
  rewrite <- Hlen at 1. apply split_join; [lia|].
  apply Forall_forall. intros b Hb. apply in_map_iff in Hb. destruct Hb as (i & <- & _).
  apply lookup_byte_range. exact Ht.
Qed.

Lemma shiftr_range w e n : 0 <= w -> 0 <= n -> 0 <= e < 2 ^ w -> 0 <= Z.shiftr e n < 2 ^ w.
Proof.
  intros Hw Hn He. rewrite Z.shiftr_div_pow2 by lia.
  assert (0 < 2 ^ n) by (apply Z.pow_pos_nonneg; lia).
  split; [apply Z.div_pos; lia|].
  apply Z.le_lt_trans with e; [|lia]. apply Z.div_le_upper_bound; nia.
Qed.

Lemma split_srli16 x n :
  0 <= n -> split 8 8 (lane_srli16 x n) = srl_bytes n (split 8 8 x).
Proof.
  intros Hn. unfold lane_srli16.
  set (es := map (fun e => Z.shiftr e n) (split 16 4 x)).
  assert (Hes : Forall (fun f => 0 <= f < 2 ^ 16) es).
  { unfold es. apply Forall_forall. intros f Hf. apply in_map_iff in Hf.
    destruct Hf as (e & <- & He). apply shiftr_range; [lia|lia|].
    pose proof (split_range 16 4 x ltac:(lia)) as Hr. rewrite Forall_forall in Hr. auto. }
  unfold split at 1. cbn [seq map].
  rewrite (field8_join16 es 0 0 Hes ltac:(lia) : field 8 (join 16 es) 0 = _),
    (field8_join16 es 0 1 Hes ltac:(lia) : field 8 (join 16 es) 1 = _),
    (field8_join16 es 1 0 Hes ltac:(lia) : field 8 (join 16 es) 2 = _),
    (field8_join16 es 1 1 Hes ltac:(lia) : field 8 (join 16 es) 3 = _),
    (field8_join16 es 2 0 Hes ltac:(lia) : field 8 (join 16 es) 4 = _),
    (field8_join16 es 2 1 Hes ltac:(lia) : field 8 (join 16 es) 5 = _),
    (field8_join16 es 3 0 Hes ltac:(lia) : field 8 (join 16 es) 6 = _),
    (field8_join16 es 3 1 Hes ltac:(lia) : field 8 (join 16 es) 7 = _).
  unfold es, split. cbn [seq map nth srl_bytes app].
  rewrite (field16_bytes x 0), (field16_bytes x 1), (field16_bytes x 2), (field16_bytes x 3).
  reflexivity.
Qed.

(** ** Set bits, byte by byte *)

Lemma popcount_bits_ext n x y :
  (forall j, 0 <= j < Z.of_nat n -> Z.testbit x j = Z.testbit y j) ->
  popcount_bits n x = popcount_bits n y.
Proof.
  induction n as [|n IH]; intros H; [reflexivity|].
  cbn [popcount_bits]. rewrite H by lia. rewrite IH by (intros; apply H; lia). reflexivity.
Qed.

Lemma popcount_bits_shift m n x :
  popcount_bits (m + n) x
  = popcount_bits n x + popcount_bits m (Z.shiftr x (Z.of_nat n)).
Proof.
  induction m as [|m IH]; [cbn; lia|].
  cbn [Nat.add popcount_bits]. rewrite IH, Z.shiftr_spec by lia.
  rewrite Nat2Z.inj_add. lia.
Qed.

Lemma popcount_bits_byte x k :
  popcount_bits 8 (field 8 x k) = popcount_bits 8 (Z.shiftr x (8 * Z.of_nat k)).
Proof.
  apply popcount_bits_ext. intros j Hj.
  rewrite testbit_field, Z.shiftr_spec by lia.
  destruct (Z.ltb_spec j 8); [|lia]. cbn [andb]. f_equal. lia.
Qed.

Lemma FIC_POPCOUNT_bytes x :
  FIC_POPCOUNT x = sum_list (map (popcount_bits 8) (split 8 8 x)).
Proof.
  unfold FIC_POPCOUNT, split. cbn [seq map sum_list fold_right].
  rewrite !popcount_bits_byte.
  change 64%nat with (56 + 8)%nat. rewrite popcount_bits_shift.
  change 56%nat with (48 + 8)%nat. rewrite popcount_bits_shift.
  change 48%nat with (40 + 8)%nat. rewrite popcount_bits_shift.
  change 40%nat with (32 + 8)%nat. rewrite popcount_bits_shift.
  change 32%nat with (24 + 8)%nat. rewrite popcount_bits_shift.
  change 24%nat with (16 + 8)%nat. rewrite popcount_bits_shift.
  change 16%nat with (8 + 8)%nat. rewrite popcount_bits_shift.
  rewrite !Z.shiftr_shiftr by lia. rewrite Z.shiftr_0_r.
  cbn [Z.of_nat Pos.of_succ_nat Pos.succ Z.mul Z.add Pos.add Pos.mul Pos.add_carry].
  lia.
Qed.

(** ** The lane popcounts on one 16-bit element, by enumeration *)

Lemma all_bytes_In b : 0 <= b < 256 -> In b all_bytes.
Proof. intros H. apply range_In. lia. Qed.

Lemma popcnt256_bytes_chunk half b b' :
  (half < 2)%nat -> 0 <= b < 256 -> 0 <= b' < 256 ->
  popcnt256_bytes half [b; b'] = [popcount_bits 8 b; popcount_bits 8 b'].
Proof.
  intros Hh Hb Hb'.
  assert (H : forallb (fun h =>
                forallb (fun x =>
                  forallb (fun y =>
                    match popcnt256_bytes h [x; y] with
                    | [p; q] => (p =? popcount_bits 8 x) && (q =? popcount_bits 8 y)
                    | _ => false
                    end) all_bytes) all_bytes) [0%nat; 1%nat] = true)
    by (vm_compute; reflexivity).
  rewrite forallb_forall in H.
  assert (Hin : In half [0%nat; 1%nat]) by (cbn; lia).
  specialize (H half Hin). rewrite forallb_forall in H.
  specialize (H b (all_bytes_In b Hb)). rewrite forallb_forall in H.
  specialize (H b' (all_bytes_In b' Hb')).
  destruct (popcnt256_bytes half [b; b']) as [|p [|q [|r l]]]; try discriminate.
  apply andb_true_iff in H. destruct H as (Hp & Hq).
  apply Z.eqb_eq in Hp, Hq. congruence.
Qed.

Lemma popcnt512_bytes_chunk b b' :
  0 <= b < 256 -> 0 <= b' < 256 ->
  popcnt512_bytes [b; b'] = [popcount_bits 8 b; popcount_bits 8 b'].
Proof.
  intros Hb Hb'.
  assert (H : forallb (fun x =>
                forallb (fun y =>
                  match popcnt512_bytes [x; y] with
                  | [p; q] => (p =? popcount_bits 8 x) && (q =? popcount_bits 8 y)
                  | _ => false
                  end) all_bytes) all_bytes = true)
    by (vm_compute; reflexivity).
  rewrite forallb_forall in H.
  specialize (H b (all_bytes_In b Hb)). rewrite forallb_forall in H.
  specialize (H b' (all_bytes_In b' Hb')).
  destruct (popcnt512_bytes [b; b']) as [|p [|q [|r l]]]; try discriminate.
  apply andb_true_iff in H. destruct H as (Hp & Hq).
  apply Z.eqb_eq in Hp, Hq. congruence.
Qed.

(** The byte views work on each 16-bit element by itself. *)
Lemma popcnt256_bytes_lane half b0 b1 b2 b3 b4 b5 b6 b7 :
  popcnt256_bytes half [b0; b1; b2; b3; b4; b5; b6; b7]
  = popcnt256_bytes half [b0; b1] ++ popcnt256_bytes half [b2; b3]
    ++ popcnt256_bytes half [b4; b5] ++ popcnt256_bytes half [b6; b7].
Proof. reflexivity. Qed.

Lemma popcnt512_bytes_lane b0 b1 b2 b3 b4 b5 b6 b7 :
  popcnt512_bytes [b0; b1; b2; b3; b4; b5; b6; b7]
  = popcnt512_bytes [b0; b1] ++ popcnt512_bytes [b2; b3]
    ++ popcnt512_bytes [b4; b5] ++ popcnt512_bytes [b6; b7].
Proof. reflexivity. Qed.

Lemma popcnt256_bytes_popcount half x :
  (half < 2)%nat ->
  sum_list (popcnt256_bytes half (split 8 8 x)) = FIC_POPCOUNT x.
Proof.
  intros Hh. rewrite FIC_POPCOUNT_bytes. unfold split. cbn [seq map].
  rewrite popcnt256_bytes_lane.
  rewrite !popcnt256_bytes_chunk by (try assumption; apply (field_range 8); lia).
  reflexivity.
Qed.

Lemma popcnt512_bytes_popcount x :
  sum_list (popcnt512_bytes (split 8 8 x)) = FIC_POPCOUNT x.
Proof.
  rewrite FIC_POPCOUNT_bytes. unfold split. cbn [seq map].
  rewrite popcnt512_bytes_lane.
  rewrite !popcnt512_bytes_chunk by (apply (field_range 8); lia).
  reflexivity.
Qed.

(** ** The lane popcounts count the set bits *)

Lemma Forall_bytes_check (l : list Z) :
  forallb (fun b => (0 <=? b) && (b <? 256)) l = true -> Forall (fun b => 0 <= b < 2 ^ 8) l.
Proof.
  intros H. rewrite forallb_forall in H. apply Forall_forall. intros b Hb.
  specialize (H b Hb). apply andb_true_iff in H. destruct H as (H1 & H2).
  apply Z.leb_le in H1. apply Z.ltb_lt in H2. change (2 ^ 8) with 256. lia.
Qed.

Lemma popcnt256_lane half x :
  (half < 2)%nat ->
  lane_sad
    (lane_shuffle popcnt_table1 half (Z.land x (join 8 (repeat 0x0f 8))))
    (lane_shuffle popcnt_table2 half
       (Z.land (lane_srli16 x 4) (join 8 (repeat 0x0f 8))))
  = FIC_POPCOUNT x.
Proof.
  intros Hh. unfold lane_sad.
  rewrite !split_shuffle by (apply Forall_bytes_check; reflexivity).
  rewrite !(split_land_mask _ (join 8 (repeat 0x0f 8)) 0x0f) by reflexivity.
  rewrite split_srli16 by lia.
  apply (popcnt256_bytes_popcount half x Hh).
Qed.

Lemma popcnt256_lanes r : length r = 4%nat -> popcnt256 r = map FIC_POPCOUNT r.
Proof.
  destruct r as [|x0 [|x1 [|x2 [|x3 [|x4 r]]]]]; try discriminate. intros _.
  unfold popcnt256. cbv zeta.
  unfold _mm256_sad_epu8, _mm256_shuffle_epi8, shuffle_epi8, _mm256_and_si256,
    _mm256_srli_epi16, _mm256_set1_epi8.
  replace (reg_bytes (_mm256_setr_epi8
             [4; 5; 5; 6; 5; 6; 6; 7; 5; 6; 6; 7; 6; 7; 7; 8;
              4; 5; 5; 6; 5; 6; 6; 7; 5; 6; 6; 7; 6; 7; 7; 8]))
    with popcnt_table1 by (vm_compute; reflexivity).
  replace (reg_bytes (_mm256_setr_epi8
             [4; 3; 3; 2; 3; 2; 2; 1; 3; 2; 2; 1; 2; 1; 1; 0;
              4; 3; 3; 2; 3; 2; 2; 1; 3; 2; 2; 1; 2; 1; 1; 0]))
    with popcnt_table2 by (vm_compute; reflexivity).
  unfold set1_epi8, srli_epi16, v_and, sad_epu8.
  cbn [repeat map map2 length seq combine].
  change (Nat.div 0 2) with 0%nat. change (Nat.div 1 2) with 0%nat.
  change (Nat.div 2 2) with 1%nat. change (Nat.div 3 2) with 1%nat.
  change (join 8 [15; 15; 15; 15; 15; 15; 15; 15]) with (join 8 (repeat 0x0f 8)).
  rewrite !popcnt256_lane by lia. reflexivity.
Qed.

Lemma byte_mod_range (z : Z) : 0 <= z mod 256 < 2 ^ 8.
Proof. change (2 ^ 8) with 256. apply Z.mod_pos_bound. lia. Qed.

Lemma popcnt512_lane x :
  let m1 := join 8 (repeat 0x55 8) in
  let m2 := join 8 (repeat 0x33 8) in
  let m4 := join 8 (repeat 0x0F 8) in
  let t1 := lane_bytewise (fun p q => (p - q) mod 256) x (Z.land (lane_srli16 x 1) m1) in
  let t2 := lane_bytewise (fun p q => (p + q) mod 256)
              (Z.land t1 m2) (Z.land (lane_srli16 t1 2) m2) in
  let t3 := Z.land (lane_bytewise (fun p q => (p + q) mod 256) t2 (lane_srli16 t2 4)) m4 in
  lane_sad t3 0 = FIC_POPCOUNT x.
Proof.
  cbv zeta. unfold lane_sad.
  repeat first
    [ rewrite (split_land_mask _ (join 8 (repeat 0x0F 8)) 0x0F) by reflexivity
    | rewrite (split_land_mask _ (join 8 (repeat 0x33 8)) 0x33) by reflexivity
    | rewrite (split_land_mask _ (join 8 (repeat 0x55 8)) 0x55) by reflexivity
    | rewrite split_bytewise by (intros; apply byte_mod_range)
    | rewrite split_srli16 by lia ].
  replace (split 8 8 0) with (repeat 0 (length (split 8 8 x)))
    by (rewrite split_length; reflexivity).
  apply popcnt512_bytes_popcount.
Qed.

Lemma popcnt512_lanes r : length r = 8%nat -> popcnt512 r = map FIC_POPCOUNT r.
Proof.
  destruct r as [|x0 [|x1 [|x2 [|x3 [|x4 [|x5 [|x6 [|x7 [|x8 r]]]]]]]]]; try discriminate.
  intros _.
  unfold popcnt512. cbv zeta.
  unfold _mm512_sad_epu8, _mm512_add_epi8, _mm512_sub_epi8, _mm512_srli_epi16,
    _mm512_set1_epi8, _mm512_setzero_si512, add_epi8, sub_epi8, bytewise2,
    set1_epi8, srli_epi16, v_and, sad_epu8, setzero.
  cbn [repeat map map2].
  rewrite <- !popcnt512_lane. reflexivity.
Qed.

(** ** The AVX2 and AVX-512 kernels *)

Lemma CSA256_length a b c :
  length a = 4%nat -> length b = 4%nat -> length c = 4%nat ->
  length (fst (CSA256 a b c)) = 4%nat /\ length (snd (CSA256 a b c)) = 4%nat.
Proof.
  intros Ha Hb Hc. unfold CSA256. cbn [fst snd].
  destruct (csa_bitwise_length a b c) as (H1 & H2); [congruence|congruence|].
  unfold _mm256_or_si256, _mm256_and_si256, _mm256_xor_si256. split; congruence.
Qed.

Lemma CSA256_popcount a b c :
  length a = 4%nat -> length b = 4%nat -> length c = 4%nat ->
  2 * reg_popcount (fst (CSA256 a b c)) + reg_popcount (snd (CSA256 a b c))
  = reg_popcount a + reg_popcount b + reg_popcount c.
Proof. intros Ha Hb Hc. apply csa_bitwise_popcount; congruence. Qed.

Lemma CSA512_length a b c :
  length a = 8%nat -> length b = 8%nat -> length c = 8%nat ->
  length (fst (CSA512 a b c)) = 8%nat /\ length (snd (CSA512 a b c)) = 8%nat.
Proof.
  intros Ha Hb Hc. unfold CSA512, _mm512_ternarylogic_epi32, ternarylogic. cbn [fst snd].
  rewrite !map3_length by congruence. split; assumption.
Qed.

Lemma CSA512_popcount a b c :
  length a = 8%nat -> length b = 8%nat -> length c = 8%nat ->
  2 * reg_popcount (fst (CSA512 a b c)) + reg_popcount (snd (CSA512 a b c))
  = reg_popcount a + reg_popcount b + reg_popcount c.
Proof. intros Ha Hb Hc. apply csa_ternary_popcount; congruence. Qed.

Lemma popcnt_avx2_csa_intersect_sum (data1 data2 : list Z) (size : Z) :
  0 <= size -> 64 * (4 * size) < 2 ^ 64 ->
  popcnt_avx2_csa_intersect data1 data2 size = Some (words_sum data1 data2 (4 * size)).
Proof.
  intros Hsize Hmax.
  change (popcnt_avx2_csa_intersect data1 data2 size)
    with (harley_seal 4 CSA256 popcnt256 data1 data2 size).
  apply (harley_seal_sum 4 CSA256 popcnt256 CSA256_length CSA256_popcount popcnt256_lanes);
    assumption.
Qed.

Lemma popcnt_avx512_csa_intersect_sum (data1 data2 : list Z) (size : Z) :
  0 <= size -> 64 * (8 * size) < 2 ^ 64 ->
  popcnt_avx512_csa_intersect data1 data2 size = Some (words_sum data1 data2 (8 * size)).
Proof.
  intros Hsize Hmax.
  change (popcnt_avx512_csa_intersect data1 data2 size)
    with (harley_seal 8 CSA512 popcnt512 data1 data2 size).
  apply (harley_seal_sum 8 CSA512 popcnt512 CSA512_length CSA512_popcount popcnt512_lanes);
    assumption.
Qed.

(** A kernel that runs a Harley-Seal function on the [n_ints / lanes] whole
    registers and the word loop on the rest returns the sum over all
    words. *)
Lemma register_kernel_sum (lanes : Z) (hs : list Z -> list Z -> Z -> option Z)
  (b1 b2 : list Z) (n_ints : Z) :
  0 < lanes -> 0 <= n_ints <= INT_MAX ->
  hs b1 b2 (n_ints / lanes) = Some (words_sum b1 b2 (lanes * (n_ints / lanes))) ->
  (c <- hs b1 b2 (n_ints / lanes) ;;
   Some (for_range (u32 (n_ints / lanes * lanes)) n_ints
           (fun i count => u64 (count + _mm_popcnt_u64 (Z.land b1.[i] b2.[i])))
           (u64 (0 + c))))
  = Some (words_sum b1 b2 n_ints).
Proof.
  unfold INT_MAX. intros Hl Hn Hhs. rewrite Hhs. cbn [obind]. f_equal.
  pose proof (Z.div_mod n_ints lanes ltac:(lia)) as Hdm.
  pose proof (Z.mod_pos_bound n_ints lanes ltac:(lia)) as Hmod.
  assert (0 <= n_ints / lanes) by (apply Z.div_pos; lia).
  replace (n_ints / lanes * lanes) with (lanes * (n_ints / lanes)) by lia.
  rewrite (u32_small (lanes * (n_ints / lanes)))
    by (change (2 ^ 32) with 4294967296; nia).
  pose proof (words_sum_bounds b1 b2 (lanes * (n_ints / lanes)) ltac:(nia)) as Hb.
  rewrite Z.add_0_l.
  rewrite u64_small by (change (2 ^ 64) with 18446744073709551616; nia).
  change (fun i count => u64 (count + _mm_popcnt_u64 (Z.land b1.[i] b2.[i])))
    with (and_popcount_step b1 b2).
  rewrite for_range_and_popcount_from
    by (change (2 ^ 64) with 18446744073709551616; nia).
  lia.
Qed.

(** The AVX2 kernel returns the result of the scalar kernel. *)
Lemma intersect_bitmaps_avx2_scalar (b1 b2 : list Z) (n_ints : Z) :
  0 <= n_ints <= INT_MAX ->
  intersect_bitmaps_avx2 b1 b2 n_ints = intersect_bitmaps_scalar b1 b2 n_ints.
Proof.
  intros Hn. rewrite intersect_bitmaps_scalar_words by assumption.
  unfold intersect_bitmaps_avx2. cbv zeta.
  apply (register_kernel_sum 4 popcnt_avx2_csa_intersect); [lia|assumption|].
  unfold INT_MAX in Hn.
  pose proof (Z.div_mod n_ints 4 ltac:(lia)). pose proof (Z.mod_pos_bound n_ints 4 ltac:(lia)).
  apply popcnt_avx2_csa_intersect_sum; [|change (2 ^ 64) with 18446744073709551616]; lia.
Qed.

(** The AVX-512 kernel returns the result of the scalar kernel. *)
Lemma intersect_bitmaps_avx512_csa_scalar (b1 b2 : list Z) (n_ints : Z) :
  0 <= n_ints <= INT_MAX ->
  intersect_bitmaps_avx512_csa b1 b2 n_ints = intersect_bitmaps_scalar b1 b2 n_ints.
Proof.
  intros Hn. rewrite intersect_bitmaps_scalar_words by assumption.
  unfold intersect_bitmaps_avx512_csa. cbv zeta.
  apply (register_kernel_sum 8 popcnt_avx512_csa_intersect); [lia|assumption|].
  unfold INT_MAX in Hn.
  pose proof (Z.div_mod n_ints 8 ltac:(lia)). pose proof (Z.mod_pos_bound n_ints 8 ltac:(lia)).
  apply popcnt_avx512_csa_intersect_sum; [|change (2 ^ 64) with 18446744073709551616]; lia.
Qed.

(** ** Commutativity, identity and annihilator of the dense kernels *)

Lemma words_sum_comm A B m : words_sum A B m = words_sum B A m.
Proof. unfold words_sum. apply sum_upto_and_popcount_comm. Qed.

Lemma words_sum_diag A m : 0 <= m -> words_sum A A m = popcount_words A m.
Proof.
  intros Hm. unfold words_sum, popcount_words. apply sum_upto_ext. intros k _.
  unfold and_popcount. rewrite Z.land_diag. reflexivity.
Qed.

Lemma words_sum_zero A B m :
  (forall i, 0 <= i < m -> B.[i] = 0) -> words_sum A B m = 0.
Proof.
  intros HB. unfold words_sum.
  rewrite (sum_upto_ext _ _ (fun _ => 0)).
  - induction (Z.to_nat m) as [|n IH]; cbn [sum_upto]; lia.
  - intros k Hk. unfold and_popcount. rewrite HB by lia. rewrite Z.land_0_r. reflexivity.
Qed.

(** Every dense kernel, the SSE4.1 one included, returns the same for
    [(A, B)] and [(B, A)]. *)
Lemma dense_kernels_commute (A B : list Z) (n_ints : Z) :
  0 <= n_ints <= INT_MAX ->
  intersect_bitmaps_scalar A B n_ints = intersect_bitmaps_scalar B A n_ints /\
  intersect_bitmaps_sse4 A B n_ints = intersect_bitmaps_sse4 B A n_ints /\
  intersect_bitmaps_avx2 A B n_ints = intersect_bitmaps_avx2 B A n_ints /\
  intersect_bitmaps_avx512_csa A B n_ints = intersect_bitmaps_avx512_csa B A n_ints.
Proof.
  intros Hn.
  rewrite !intersect_bitmaps_avx2_scalar, !intersect_bitmaps_avx512_csa_scalar,
    !intersect_bitmaps_sse4_result, !intersect_bitmaps_scalar_words by assumption.
  unfold sse4_result. fold (words_sum A B n_ints) (words_sum B A n_ints).
  rewrite !(words_sum_comm A B). auto.
Qed.

(** Every dense kernel, the SSE4.1 one included, returns 0 against a vector
    of zero words. *)
Lemma dense_kernels_annihilate (A B : list Z) (n_ints : Z) :
  0 <= n_ints <= INT_MAX -> (forall i, 0 <= i < n_ints -> B.[i] = 0) ->
  intersect_bitmaps_scalar A B n_ints = Some 0 /\
  intersect_bitmaps_sse4 A B n_ints = Some 0 /\
  intersect_bitmaps_avx2 A B n_ints = Some 0 /\
  intersect_bitmaps_avx512_csa A B n_ints = Some 0.
Proof.
  intros Hn HB.
  rewrite !intersect_bitmaps_avx2_scalar, !intersect_bitmaps_avx512_csa_scalar,
    !intersect_bitmaps_sse4_result, !intersect_bitmaps_scalar_words by assumption.
  unfold sse4_result. fold (words_sum A B n_ints).
  unfold INT_MAX in Hn.
  pose proof (Z.div_mod n_ints 2 ltac:(lia)). pose proof (Z.mod_pos_bound n_ints 2 ltac:(lia)).
  rewrite (words_sum_zero A B n_ints) by exact HB.
  rewrite (words_sum_zero A B (2 * (n_ints / 2 - 1))) by (intros; apply HB; lia).
  destruct (n_ints / 2 mod 16 =? 0); auto.
Qed.

(** The scalar, AVX2 and AVX-512 kernels return the set bits of [A] for
    [(A, A)]; so does the SSE4.1 kernel when the number of its blocks is a
    multiple of 16. *)
Lemma dense_kernels_identity (A : list Z) (n_ints : Z) :
  0 <= n_ints <= INT_MAX ->
  intersect_bitmaps_scalar A A n_ints = Some (popcount_words A n_ints) /\
  intersect_bitmaps_avx2 A A n_ints = Some (popcount_words A n_ints) /\
  intersect_bitmaps_avx512_csa A A n_ints = Some (popcount_words A n_ints) /\
  ((n_ints / 2) mod 16 = 0 ->
   intersect_bitmaps_sse4 A A n_ints = Some (popcount_words A n_ints)).
Proof.
  intros Hn.
  rewrite !intersect_bitmaps_avx2_scalar, !intersect_bitmaps_avx512_csa_scalar,
    !intersect_bitmaps_scalar_words by assumption.
  fold (words_sum A A n_ints). rewrite words_sum_diag by lia.
  repeat split. intros Hal.
  rewrite intersect_bitmaps_sse4_aligned, intersect_bitmaps_scalar_words by assumption.
  fold (words_sum A A n_ints). rewrite words_sum_diag by lia. reflexivity.
Qed.

(** ** Further properties of the dense kernels *)

Lemma words_sum_ext A B A' B' m n :
  m <= n ->
  (forall i, 0 <= i < n -> A.[i] = A'.[i]) -> (forall i, 0 <= i < n -> B.[i] = B'.[i]) ->
  words_sum A B m = words_sum A' B' m.
Proof.
  intros Hm HA HB. unfold words_sum. apply sum_upto_ext. intros k Hk.
  unfold and_popcount. rewrite HA, HB by lia. reflexivity.
Qed.

Lemma popcount_bits_le n x y :
  (forall j, 0 <= j < Z.of_nat n -> Z.testbit x j = true -> Z.testbit y j = true) ->
  popcount_bits n x <= popcount_bits n y.
Proof.
  induction n as [|n IH]; intros H; cbn [popcount_bits]; [lia|].
  assert (IH' : popcount_bits n x <= popcount_bits n y) by (apply IH; intros j Hj Ht; apply H; [lia|exact Ht]).
  specialize (H (Z.of_nat n) ltac:(lia)).
  destruct (Z.testbit x (Z.of_nat n)); [rewrite H by reflexivity|];
    destruct (Z.testbit y (Z.of_nat n)); cbn [Z.b2z]; lia.
Qed.

Lemma words_sum_le_l A B m : words_sum A B m <= popcount_words A m.
Proof.
  unfold words_sum, popcount_words.
  induction (Z.to_nat m) as [|n IH]; cbn [sum_upto]; [lia|].
  assert (and_popcount A B (Z.of_nat n) <= FIC_POPCOUNT A.[Z.of_nat n]); [|lia].
  unfold and_popcount, FIC_POPCOUNT. apply popcount_bits_le.
  intros j _ Hj. rewrite Z.land_spec in Hj. apply andb_true_iff in Hj. tauto.
Qed.

Lemma words_sum_le_r A B m : words_sum A B m <= popcount_words B m.
Proof. rewrite words_sum_comm. apply words_sum_le_l. Qed.

Lemma sse4_result_bounds A B n :
  0 <= n -> 0 <= sse4_result A B n <= words_sum A B n.
Proof.
  intros Hn. unfold sse4_result.
  pose proof (words_sum_bounds A B n Hn).
  destruct (n / 2 mod 16 =? 0) eqn:E; [lia|].
  apply Z.eqb_neq in E.
  assert (0 < n / 2).
  { assert (0 <= n / 2) by (apply Z.div_pos; lia).
    destruct (Z.eq_dec (n / 2) 0) as [E0|]; [rewrite E0 in E; cbn in E|]; lia. }
  pose proof (Z.div_mod n 2 ltac:(lia)). pose proof (Z.mod_pos_bound n 2 ltac:(lia)).
  pose proof (words_sum_mono A B (2 * (n / 2 - 1)) n ltac:(lia)).
  pose proof (words_sum_bounds A B (2 * (n / 2 - 1)) ltac:(lia)). lia.
Qed.

(** The result of each dense kernel, in terms of sums over the words. *)
Lemma dense_kernels_results (K : ftype) (A B : list Z) (n_ints : Z) :
  0 <= n_ints <= INT_MAX ->
  In K [intersect_bitmaps_scalar; intersect_bitmaps_sse4;
        intersect_bitmaps_avx2; intersect_bitmaps_avx512_csa] ->
  K A B n_ints = Some (words_sum A B n_ints) \/
  K A B n_ints = Some (sse4_result A B n_ints).
Proof.
  intros Hn HK. cbn [In] in HK.
  destruct HK as [<-|[<-|[<-|[<-|[]]]]].
  - left. apply intersect_bitmaps_scalar_words. assumption.
  - right. apply intersect_bitmaps_sse4_result. assumption.
  - left. rewrite intersect_bitmaps_avx2_scalar by assumption.
    apply intersect_bitmaps_scalar_words. assumption.
  - left. rewrite intersect_bitmaps_avx512_csa_scalar by assumption.
    apply intersect_bitmaps_scalar_words. assumption.
Qed.

(** X1. No dense kernel over-counts: for every word count up to [INT_MAX]
    the scalar, SSE4.1, AVX2 and AVX-512 kernels return a count that is at
    least 0, at most the number of set bits of either operand, and at most
    [64 * n_ints]. *)
Theorem dense_kernels_never_overcount (K : ftype) (A B : list Z) (n_ints : Z) :
  0 <= n_ints <= INT_MAX ->
  In K [intersect_bitmaps_scalar; intersect_bitmaps_sse4;
        intersect_bitmaps_avx2; intersect_bitmaps_avx512_csa] ->
  exists c, K A B n_ints = Some c /\
            0 <= c /\ c <= popcount_words A n_ints /\ c <= popcount_words B n_ints /\
            c <= 64 * n_ints.
Proof.
  intros Hn HK.
  pose proof (words_sum_bounds A B n_ints ltac:(lia)).
  pose proof (words_sum_le_l A B n_ints). pose proof (words_sum_le_r A B n_ints).
  pose proof (sse4_result_bounds A B n_ints ltac:(lia)).
  destruct (dense_kernels_results K A B n_ints Hn HK) as [->| ->];
    eexists; (split; [reflexivity|]); lia.
Qed.

Lemma dense_kernels_never_overcount_witness :
  0 <= 3 <= INT_MAX /\
  exists c, intersect_bitmaps_avx2 [7; 1; 2] [5; 3; 4] 3 = Some c /\
            0 <= c /\ c <= popcount_words [7; 1; 2] 3 /\ c <= popcount_words [5; 3; 4] 3 /\
            c <= 64 * 3.
Proof.
  assert (H : 0 <= 3 <= INT_MAX) by (unfold INT_MAX; lia).
  split; [exact H|].
  exact (dense_kernels_never_overcount intersect_bitmaps_avx2 [7; 1; 2] [5; 3; 4] 3 H
           (or_intror (or_intror (or_introl eq_refl)))).
Defined.

(** X2. The dense kernels read the first [n_ints] words only: two pairs of
    arrays that agree on their first [n_ints] words get the same result from
    each of the four kernels, whatever lies behind those words (the
    register-wide loads of the SIMD kernels included). *)
Theorem dense_kernels_read_n_ints (K : ftype) (A B A' B' : list Z) (n_ints : Z) :
  0 <= n_ints <= INT_MAX ->
  In K [intersect_bitmaps_scalar; intersect_bitmaps_sse4;
        intersect_bitmaps_avx2; intersect_bitmaps_avx512_csa] ->
  (forall i, 0 <= i < n_ints -> A.[i] = A'.[i]) ->
  (forall i, 0 <= i < n_ints -> B.[i] = B'.[i]) ->
  K A B n_ints = K A' B' n_ints.
Proof.
  intros Hn HK HA HB.
  assert (E : forall m, m <= n_ints -> words_sum A B m = words_sum A' B' m)
    by (intros m Hm; apply (words_sum_ext A B A' B' m n_ints); assumption).
  assert (Es : sse4_result A B n_ints = sse4_result A' B' n_ints).
  { unfold sse4_result. rewrite !E; [reflexivity| |lia].
    pose proof (Z.div_mod n_ints 2 ltac:(lia)). pose proof (Z.mod_pos_bound n_ints 2 ltac:(lia)).
    lia. }
  cbn [In] in HK. destruct HK as [<-|[<-|[<-|[<-|[]]]]].
  - rewrite !intersect_bitmaps_scalar_words by assumption.
    fold (words_sum A B n_ints) (words_sum A' B' n_ints). rewrite E by lia. reflexivity.
  - rewrite !intersect_bitmaps_sse4_result by assumption. rewrite Es. reflexivity.
  - rewrite !intersect_bitmaps_avx2_scalar, !intersect_bitmaps_scalar_words by assumption.
    fold (words_sum A B n_ints) (words_sum A' B' n_ints). rewrite E by lia. reflexivity.
  - rewrite !intersect_bitmaps_avx512_csa_scalar, !intersect_bitmaps_scalar_words by assumption.
    fold (words_sum A B n_ints) (words_sum A' B' n_ints). rewrite E by lia. reflexivity.
Qed.

Lemma dense_kernels_read_n_ints_witness :
  (0 <= 3 <= INT_MAX /\
   (forall i, 0 <= i < 3 -> [7; 1; 2].[i] = [7; 1; 2; 9].[i]) /\
   (forall i, 0 <= i < 3 -> [5; 3; 4; 8].[i] = [5; 3; 4].[i])) /\
  intersect_bitmaps_avx512_csa [7; 1; 2] [5; 3; 4; 8] 3
  = intersect_bitmaps_avx512_csa [7; 1; 2; 9] [5; 3; 4] 3.
Proof.
  assert (H : 0 <= 3 <= INT_MAX) by (unfold INT_MAX; lia).
  assert (HA : forall i, 0 <= i < 3 -> [7; 1; 2].[i] = [7; 1; 2; 9].[i]).
  { intros i Hi. assert (E : i = 0 \/ i = 1 \/ i = 2) by lia.
    destruct E as [->|[->| ->]]; reflexivity. }
  assert (HB : forall i, 0 <= i < 3 -> [5; 3; 4; 8].[i] = [5; 3; 4].[i]).
  { intros i Hi. assert (E : i = 0 \/ i = 1 \/ i = 2) by lia.
    destruct E as [->|[->| ->]]; reflexivity. }
  split; [auto|].
  exact (dense_kernels_read_n_ints intersect_bitmaps_avx512_csa
           [7; 1; 2] [5; 3; 4; 8] [7; 1; 2; 9] [5; 3; 4] 3 H
           (or_intror (or_intror (or_intror (or_introl eq_refl)))) HA HB).
Defined.

(** X3. Each of the four dense kernels returns the same for [(A, B)] and
    for [(B, A)]. *)
Theorem dense_kernels_symmetric (K : ftype) (A B : list Z) (n_ints : Z) :
  0 <= n_ints <= INT_MAX ->
  In K [intersect_bitmaps_scalar; intersect_bitmaps_sse4;
        intersect_bitmaps_avx2; intersect_bitmaps_avx512_csa] ->
  K A B n_ints = K B A n_ints.
Proof.
  intros Hn HK. destruct (dense_kernels_commute A B n_ints Hn) as (H1 & H2 & H3 & H4).
  cbn [In] in HK. destruct HK as [<-|[<-|[<-|[<-|[]]]]]; assumption.
Qed.

Lemma dense_kernels_symmetric_witness :
  0 <= 3 <= INT_MAX /\
  intersect_bitmaps_sse4 [7; 1; 2] [5; 3; 4] 3 = intersect_bitmaps_sse4 [5; 3; 4] [7; 1; 2] 3.
Proof.
  assert (H : 0 <= 3 <= INT_MAX) by (unfold INT_MAX; lia).
  split; [exact H|].
  exact (dense_kernels_symmetric intersect_bitmaps_sse4 [7; 1; 2] [5; 3; 4] 3 H
           (or_intror (or_introl eq_refl))).
Defined.

(** X4. Each of the four dense kernels returns 0 when the first [n_ints]
    words of one operand, whichever, are zero. *)
Theorem dense_kernels_zero_operand (K : ftype) (A B : list Z) (n_ints : Z) :
  0 <= n_ints <= INT_MAX ->
  In K [intersect_bitmaps_scalar; intersect_bitmaps_sse4;
        intersect_bitmaps_avx2; intersect_bitmaps_avx512_csa] ->
  (forall i, 0 <= i < n_ints -> B.[i] = 0) ->
  K A B n_ints = Some 0 /\ K B A n_ints = Some 0.
Proof.
  intros Hn HK HB.
  destruct (dense_kernels_annihilate A B n_ints Hn HB) as (H1 & H2 & H3 & H4).
  destruct (dense_kernels_commute A B n_ints Hn) as (C1 & C2 & C3 & C4).
  cbn [In] in HK. destruct HK as [<-|[<-|[<-|[<-|[]]]]]; split; congruence.
Qed.

Lemma dense_kernels_zero_operand_witness :
  (0 <= 3 <= INT_MAX /\ (forall i, 0 <= i < 3 -> [0; 0; 0].[i] = 0)) /\
  intersect_bitmaps_sse4 [7; 1; 2] [0; 0; 0] 3 = Some 0 /\
  intersect_bitmaps_sse4 [0; 0; 0] [7; 1; 2] 3 = Some 0.
Proof.
  assert (H : 0 <= 3 <= INT_MAX) by (unfold INT_MAX; lia).
  assert (HB : forall i, 0 <= i < 3 -> [0; 0; 0].[i] = 0).
  { intros i Hi. assert (E : i = 0 \/ i = 1 \/ i = 2) by lia.
    destruct E as [->|[->| ->]]; reflexivity. }
  split; [auto|].
  exact (dense_kernels_zero_operand intersect_bitmaps_sse4 [7; 1; 2] [0; 0; 0] 3 H
           (or_intror (or_introl eq_refl)) HB).
Defined.

(** X5. For every word count up to [INT_MAX], [popcnt_avx2_csa_intersect] on
    the [n_ints / 4] whole 256-bit blocks returns the sum of
    [popcount(b1[i] & b2[i])] over the words of these blocks, and
    [intersect_bitmaps_avx2] returns the sum over all [n_ints] words, the
    result of [intersect_bitmaps_scalar]. *)
Theorem intersect_bitmaps_avx2_sum (b1 b2 : list Z) (n_ints : Z) :
  0 <= n_ints <= INT_MAX ->
  popcnt_avx2_csa_intersect b1 b2 (n_ints / 4) = Some (words_sum b1 b2 (4 * (n_ints / 4))) /\
  intersect_bitmaps_avx2 b1 b2 n_ints = Some (words_sum b1 b2 n_ints) /\
  intersect_bitmaps_avx2 b1 b2 n_ints = intersect_bitmaps_scalar b1 b2 n_ints.
Proof.
  intros Hn. split; [|split].
  - unfold INT_MAX in Hn.
    pose proof (Z.div_mod n_ints 4 ltac:(lia)). pose proof (Z.mod_pos_bound n_ints 4 ltac:(lia)).
    apply popcnt_avx2_csa_intersect_sum; [|change (2 ^ 64) with 18446744073709551616]; lia.
  - rewrite intersect_bitmaps_avx2_scalar by assumption.
    apply intersect_bitmaps_scalar_words. assumption.
  - apply intersect_bitmaps_avx2_scalar. assumption.
Qed.

Lemma intersect_bitmaps_avx2_sum_witness :
  0 <= 70 <= INT_MAX /\
  popcnt_avx2_csa_intersect (repeat 7 70) (repeat 5 70) (70 / 4)
  = Some (words_sum (repeat 7 70) (repeat 5 70) (4 * (70 / 4))) /\
  intersect_bitmaps_avx2 (repeat 7 70) (repeat 5 70) 70
  = Some (words_sum (repeat 7 70) (repeat 5 70) 70) /\
  intersect_bitmaps_avx2 (repeat 7 70) (repeat 5 70) 70
  = intersect_bitmaps_scalar (repeat 7 70) (repeat 5 70) 70.
Proof.
  assert (H : 0 <= 70 <= INT_MAX) by (unfold INT_MAX; lia).
  split; [exact H|].
  exact (intersect_bitmaps_avx2_sum (repeat 7 70) (repeat 5 70) 70 H).
Defined.

(** X6. For every word count up to [INT_MAX], [popcnt_avx512_csa_intersect]
    on the [n_ints / 8] whole 512-bit blocks returns the sum of
    [popcount(b1[i] & b2[i])] over the words of these blocks, and
    [intersect_bitmaps_avx512_csa] returns the sum over all [n_ints] words,
    the result of [intersect_bitmaps_scalar]. *)
Theorem intersect_bitmaps_avx512_csa_sum (b1 b2 : list Z) (n_ints : Z) :
  0 <= n_ints <= INT_MAX ->
  popcnt_avx512_csa_intersect b1 b2 (n_ints / 8) = Some (words_sum b1 b2 (8 * (n_ints / 8))) /\
  intersect_bitmaps_avx512_csa b1 b2 n_ints = Some (words_sum b1 b2 n_ints) /\
  intersect_bitmaps_avx512_csa b1 b2 n_ints = intersect_bitmaps_scalar b1 b2 n_ints.
Proof.
  intros Hn. split; [|split].
  - unfold INT_MAX in Hn.
    pose proof (Z.div_mod n_ints 8 ltac:(lia)). pose proof (Z.mod_pos_bound n_ints 8 ltac:(lia)).
    apply popcnt_avx512_csa_intersect_sum; [|change (2 ^ 64) with 18446744073709551616]; lia.
  - rewrite intersect_bitmaps_avx512_csa_scalar by assumption.
    apply intersect_bitmaps_scalar_words. assumption.
  - apply intersect_bitmaps_avx512_csa_scalar. assumption.
Qed.

Lemma intersect_bitmaps_avx512_csa_sum_witness :
  0 <= 150 <= INT_MAX /\
  popcnt_avx512_csa_intersect (repeat 7 150) (repeat 5 150) (150 / 8)
  = Some (words_sum (repeat 7 150) (repeat 5 150) (8 * (150 / 8))) /\
  intersect_bitmaps_avx512_csa (repeat 7 150) (repeat 5 150) 150
  = Some (words_sum (repeat 7 150) (repeat 5 150) 150) /\
  intersect_bitmaps_avx512_csa (repeat 7 150) (repeat 5 150) 150
  = intersect_bitmaps_scalar (repeat 7 150) (repeat 5 150) 150.
Proof.
  assert (H : 0 <= 150 <= INT_MAX) by (unfold INT_MAX; lia).
  split; [exact H|].
  exact (intersect_bitmaps_avx512_csa_sum (repeat 7 150) (repeat 5 150) 150 H).
Defined.

(** X7. When the number [n_ints / 2] of 128-bit blocks is a multiple of 16,
    so that the block-at-a-time tail of [popcnt_sse4_csa_intersect] does not
    run, that function returns the sum over the words of the blocks and
    [intersect_bitmaps_sse4] the sum over all [n_ints] words, the result of
    [intersect_bitmaps_scalar]. *)
Theorem intersect_bitmaps_sse4_whole_rounds (b1 b2 : list Z) (n_ints : Z) :
  0 <= n_ints <= INT_MAX -> (n_ints / 2) mod 16 = 0 ->
  popcnt_sse4_csa_intersect b1 b2 (n_ints / 2) = Some (words_sum b1 b2 (2 * (n_ints / 2))) /\
  intersect_bitmaps_sse4 b1 b2 n_ints = Some (words_sum b1 b2 n_ints) /\
  intersect_bitmaps_sse4 b1 b2 n_ints = intersect_bitmaps_scalar b1 b2 n_ints.
Proof.
  intros Hn Hal. split; [|split].
  - unfold INT_MAX in Hn.
    pose proof (Z.div_mod n_ints 2 ltac:(lia)). pose proof (Z.mod_pos_bound n_ints 2 ltac:(lia)).
    rewrite popcnt_sse4_csa_intersect_result
      by (try change (2 ^ 64) with 18446744073709551616; lia).
    rewrite Hal. reflexivity.
  - rewrite intersect_bitmaps_sse4_aligned by assumption.
    apply intersect_bitmaps_scalar_words. assumption.
  - apply intersect_bitmaps_sse4_aligned; assumption.
Qed.

Lemma intersect_bitmaps_sse4_whole_rounds_witness :
  (0 <= 33 <= INT_MAX /\ (33 / 2) mod 16 = 0) /\
  popcnt_sse4_csa_intersect (repeat 7 33) (repeat 5 33) (33 / 2)
  = Some (words_sum (repeat 7 33) (repeat 5 33) (2 * (33 / 2))) /\
  intersect_bitmaps_sse4 (repeat 7 33) (repeat 5 33) 33
  = Some (words_sum (repeat 7 33) (repeat 5 33) 33) /\
  intersect_bitmaps_sse4 (repeat 7 33) (repeat 5 33) 33
  = intersect_bitmaps_scalar (repeat 7 33) (repeat 5 33) 33.
Proof.
  assert (H : 0 <= 33 <= INT_MAX) by (unfold INT_MAX; lia).
  assert (H' : (33 / 2) mod 16 = 0) by reflexivity.
  split; [auto|].
  exact (intersect_bitmaps_sse4_whole_rounds (repeat 7 33) (repeat 5 33) 33 H H').
Defined.

(** ** The lane popcounts and the carry-save adders *)

(** X8. [popcnt256], the nibble-table population count, leaves in every
    64-bit lane of a 256-bit register the number of set bits of that
    lane. *)
Theorem popcnt256_counts_lanes (v : reg) :
  length v = 4%nat ->
  popcnt256 v = map FIC_POPCOUNT v /\ Forall (fun c => 0 <= c <= 64) (popcnt256 v).
Proof.
  intros H. rewrite popcnt256_lanes by exact H. split; [reflexivity|].
  apply Forall_map, Forall_forall. intros x _. apply FIC_POPCOUNT_bounds.
Qed.

Lemma popcnt256_counts_lanes_witness :
  length [255; 2 ^ 64 - 1; 0; 2 ^ 63 + 5] = 4%nat /\
  popcnt256 [255; 2 ^ 64 - 1; 0; 2 ^ 63 + 5]
  = map FIC_POPCOUNT [255; 2 ^ 64 - 1; 0; 2 ^ 63 + 5] /\
  Forall (fun c => 0 <= c <= 64) (popcnt256 [255; 2 ^ 64 - 1; 0; 2 ^ 63 + 5]).
Proof.
  split; [reflexivity|].
  exact (popcnt256_counts_lanes [255; 2 ^ 64 - 1; 0; 2 ^ 63 + 5] eq_refl).
Defined.

(** X9. [popcnt512], the bit-parallel population count, leaves in every
    64-bit lane of a 512-bit register the number of set bits of that
    lane. *)
Theorem popcnt512_counts_lanes (v : reg) :
  length v = 8%nat ->
  popcnt512 v = map FIC_POPCOUNT v /\ Forall (fun c => 0 <= c <= 64) (popcnt512 v).
Proof.
  intros H. rewrite popcnt512_lanes by exact H. split; [reflexivity|].
  apply Forall_map, Forall_forall. intros x _. apply FIC_POPCOUNT_bounds.
Qed.

Lemma popcnt512_counts_lanes_witness :
  length [255; 2 ^ 64 - 1; 0; 2 ^ 63 + 5; 1; 2; 3; 4] = 8%nat /\
  popcnt512 [255; 2 ^ 64 - 1; 0; 2 ^ 63 + 5; 1; 2; 3; 4]
  = map FIC_POPCOUNT [255; 2 ^ 64 - 1; 0; 2 ^ 63 + 5; 1; 2; 3; 4] /\
  Forall (fun c => 0 <= c <= 64) (popcnt512 [255; 2 ^ 64 - 1; 0; 2 ^ 63 + 5; 1; 2; 3; 4]).
Proof.
  split; [reflexivity|].
  exact (popcnt512_counts_lanes [255; 2 ^ 64 - 1; 0; 2 ^ 63 + 5; 1; 2; 3; 4] eq_refl).
Defined.

(** X10. The carry-save adders conserve the weighted bit count: for
    [CSA128], [CSA256] and [CSA512] on registers of their width, twice the
    set bits of [h] plus the set bits of [l] is the number of set bits of
    [a], [b] and [c] together. *)
Theorem CSA_conserves_popcount (lanes : nat) (CSA : reg -> reg -> reg -> reg * reg)
  (a b c : reg) :
  In (lanes, CSA) [(2%nat, CSA128); (4%nat, CSA256); (8%nat, CSA512)] ->
  length a = lanes -> length b = lanes -> length c = lanes ->
  2 * reg_popcount (fst (CSA a b c)) + reg_popcount (snd (CSA a b c))
  = reg_popcount a + reg_popcount b + reg_popcount c.
Proof.
  intros HI Ha Hb Hc. cbn [In] in HI.
  destruct HI as [E|[E|[E|[]]]]; injection E as <- <-.
  - apply CSA128_popcount; assumption.
  - apply CSA256_popcount; assumption.
  - apply CSA512_popcount; assumption.
Qed.

Lemma CSA_conserves_popcount_witness :
  (length [5; 9] = 2%nat /\ length [3; 10] = 2%nat /\ length [1; 12] = 2%nat) /\
  2 * reg_popcount (fst (CSA128 [5; 9] [3; 10] [1; 12]))
  + reg_popcount (snd (CSA128 [5; 9] [3; 10] [1; 12]))
  = reg_popcount [5; 9] + reg_popcount [3; 10] + reg_popcount [1; 12].
Proof.
  split; [repeat split|].
  exact (CSA_conserves_popcount 2 CSA128 [5; 9] [3; 10] [1; 12]
           (or_introl eq_refl) eq_refl eq_refl eq_refl).
Defined.

(** ** The 128-bit popcount helpers *)

(** X11. [builtin_popcnt_unrolled] counts the set bits of a 128-bit value:
    on the register whose 64-bit halves are [x] (low) and [y] (high) it
    returns the number of set bits among the 128 bits of [x + 2^64 * y]. *)
Theorem builtin_popcnt_unrolled_counts (x y : Z) :
  0 <= x < 2 ^ 64 -> 0 <= y < 2 ^ 64 ->
  builtin_popcnt_unrolled [x; y] = popcount_bits 128 (x + 2 ^ 64 * y).
Proof.
  intros Hx Hy. change 128%nat with (64 + 64)%nat. rewrite popcount_bits_shift.
  unfold builtin_popcnt_unrolled, FIC_POPCOUNT. cbn [nth]. f_equal.
  - apply popcount_bits_ext. intros j Hj.
    rewrite <- (Z.mod_pow2_bits_low (x + 2 ^ 64 * y) 64 j) by lia.
    rewrite (Z.mul_comm (2 ^ 64) y), Z.mod_add by lia.
    rewrite Z.mod_small by assumption. reflexivity.
  - rewrite Z.shiftr_div_pow2 by lia. change (Z.of_nat 64) with 64.
    rewrite (Z.mul_comm (2 ^ 64) y), Z.div_add by lia.
    rewrite Z.div_small by assumption. reflexivity.
Qed.

Lemma builtin_popcnt_unrolled_counts_witness :
  (0 <= 255 < 2 ^ 64 /\ 0 <= 7 < 2 ^ 64) /\
  builtin_popcnt_unrolled [255; 7] = popcount_bits 128 (255 + 2 ^ 64 * 7).
Proof.
  assert (H1 : 0 <= 255 < 2 ^ 64) by (change (2 ^ 64) with 18446744073709551616; lia).
  assert (H2 : 0 <= 7 < 2 ^ 64) by (change (2 ^ 64) with 18446744073709551616; lia).
  split; [auto|]. exact (builtin_popcnt_unrolled_counts 255 7 H1 H2).
Defined.

(** ** [popcount64_unrolled] *)

Lemma and_popcount_step_words b1 b2 i :
  0 <= i -> 64 * (i + 1) < 2 ^ 64 ->
  and_popcount_step b1 b2 i (words_sum b1 b2 i) = words_sum b1 b2 (i + 1).
Proof.
  intros Hi Hmax. unfold and_popcount_step.
  change (FIC_POPCOUNT (Z.land b1.[i] b2.[i])) with (and_popcount b1 b2 i).
  rewrite <- words_sum_succ by lia.
  pose proof (words_sum_bounds b1 b2 (i + 1) ltac:(lia)).
  apply u64_small. lia.
Qed.

Lemma popcount_step_and data i c : popcount_step data i c = and_popcount_step data data i c.
Proof. unfold popcount_step, and_popcount_step. rewrite Z.land_diag. reflexivity. Qed.

Lemma popcount64_unrolled_words (data : list Z) (size : Z) :
  0 <= size -> 64 * size < 2 ^ 64 ->
  popcount64_unrolled data size = Some (words_sum data data size).
Proof.
  intros Hsize Hmax. unfold popcount64_unrolled.
  pose proof (Z.div_mod size 4 ltac:(lia)) as Hdm.
  pose proof (Z.mod_pos_bound size 4 ltac:(lia)) as Hmod.
  set (limit := size - size mod 4) in *.
  set (inv := fun s : Z * Z =>
                (exists k, fst s = 4 * k) /\ 0 <= fst s <= limit /\
                snd s = words_sum data data (fst s)).
  match goal with
  | |- context [while ?n0 ?cond ?body ?s0] =>
      destruct (fun H => while_inv inv (fun s => Z.to_nat (limit - fst s)) cond body H n0 s0)
        as ((i, cnt) & -> & ((k & Hk) & Hi & Hc) & Hexit)
  end.
  - intros (i, cnt) ((k & Hk) & Hi & Hc) Hcond. cbn [fst snd] in *.
    apply Z.ltb_lt in Hcond.
    eexists; split; [reflexivity|]. unfold inv. cbn [fst snd].
    assert (i + 4 <= limit) by (unfold limit in *; lia).
    split; [|lia].
    split; [exists (k + 1); lia|]. split; [lia|].
    subst cnt. rewrite !popcount_step_and. rewrite Z.add_0_r.
    rewrite and_popcount_step_words by lia.
    rewrite and_popcount_step_words by lia.
    replace (i + 2) with (i + 1 + 1) by lia. rewrite and_popcount_step_words by lia.
    replace (i + 3) with (i + 1 + 1 + 1) by lia. rewrite and_popcount_step_words by lia.
    f_equal. lia.
  - unfold inv. cbn [fst snd]. split; [exists 0; lia|]. split; [unfold limit; lia|reflexivity].
  - cbn [fst]. lia.
  - cbn [fst snd] in *. apply Z.ltb_ge in Hexit. cbn [obind]. f_equal.
    rewrite (for_range_ext (popcount_step data) (and_popcount_step data data))
      by (intros; apply popcount_step_and).
    subst cnt.
    pose proof (words_sum_bounds data data i ltac:(lia)).
    rewrite for_range_and_popcount_from by (unfold limit in *; lia). lia.
Qed.

(** X12. [popcount64_unrolled] returns the number of set bits of the first
    [size] words of its array, for every [size] (0 and sizes that are not a
    multiple of 4 included) whose count of bits fits in 64 bits. *)
Theorem popcount64_unrolled_sum (data : list Z) (size : Z) :
  0 <= size -> 64 * size < 2 ^ 64 ->
  popcount64_unrolled data size = Some (popcount_words data size).
Proof.
  intros Hsize Hmax. rewrite popcount64_unrolled_words by assumption.
  rewrite words_sum_diag by assumption. reflexivity.
Qed.

Lemma popcount64_unrolled_sum_witness :
  (0 <= 6 /\ 64 * 6 < 2 ^ 64) /\
  popcount64_unrolled [7; 5; 3; 1; 15; 255] 6 = Some (popcount_words [7; 5; 3; 1; 15; 255] 6).
Proof.
  assert (H1 : 0 <= 6) by lia.
  assert (H2 : 64 * 6 < 2 ^ 64) by (change (2 ^ 64) with 18446744073709551616; lia).
  split; [auto|].
  exact (popcount64_unrolled_sum [7; 5; 3; 1; 15; 255] 6 H1 H2).
Defined.

(** X13. On [(A, A)] the scalar, AVX2 and AVX-512 kernels return what
    [popcount64_unrolled] returns for [A]: the number of set bits of [A]. *)
Theorem dense_kernels_self_popcount (K : ftype) (A : list Z) (n_ints : Z) :
  0 <= n_ints <= INT_MAX ->
  In K [intersect_bitmaps_scalar; intersect_bitmaps_avx2; intersect_bitmaps_avx512_csa] ->
  K A A n_ints = popcount64_unrolled A n_ints.
Proof.
  intros Hn HK.
  rewrite popcount64_unrolled_words
    by (unfold INT_MAX in Hn; change (2 ^ 64) with 18446744073709551616; lia).
  cbn [In] in HK. destruct HK as [<-|[<-|[<-|[]]]].
  - apply intersect_bitmaps_scalar_words. assumption.
  - rewrite intersect_bitmaps_avx2_scalar by assumption.
    apply intersect_bitmaps_scalar_words. assumption.
  - rewrite intersect_bitmaps_avx512_csa_scalar by assumption.
    apply intersect_bitmaps_scalar_words. assumption.
Qed.

Lemma dense_kernels_self_popcount_witness :
  0 <= 5 <= INT_MAX /\
  intersect_bitmaps_avx2 [7; 5; 3; 1; 15] [7; 5; 3; 1; 15] 5
  = popcount64_unrolled [7; 5; 3; 1; 15] 5.
Proof.
  assert (H : 0 <= 5 <= INT_MAX) by (unfold INT_MAX; lia).
  split; [exact H|].
  exact (dense_kernels_self_popcount intersect_bitmaps_avx2 [7; 5; 3; 1; 15] 5 H
           (or_intror (or_introl eq_refl))).
Defined.

(** ** [fastrange32] *)

(** X14. [fastrange32] maps a 32-bit word into the range below [p]: its
    result is [word * p / 2^32], which is below [p] when [p] is positive and
    0 when [p] is 0. *)
Theorem fastrange32_range (word p : Z) :
  0 <= word < 2 ^ 32 -> 0 <= p < 2 ^ 32 ->
  fastrange32 word p = word * p / 2 ^ 32 /\
  (0 < p -> 0 <= fastrange32 word p < p) /\
  (p = 0 -> fastrange32 word p = 0).
Proof.
  intros Hw Hp. unfold fastrange32.
  change (2 ^ 32) with 4294967296 in *.
  assert (Hprod : 0 <= word * p < 18446744073709551616) by nia.
  rewrite u64_small by (change (2 ^ 64) with 18446744073709551616; exact Hprod).
  rewrite Z.shiftr_div_pow2 by lia. change (2 ^ 32) with 4294967296.
  assert (Hq : 0 <= word * p / 4294967296 <= p).
  { split; [apply Z.div_pos; lia|].
    apply Z.div_le_upper_bound; [lia|]. nia. }
  assert (Hlt : 0 < p -> word * p / 4294967296 < p).
  { intros H. apply Z.div_lt_upper_bound; [lia|]. nia. }
  rewrite u32_small by (change (2 ^ 32) with 4294967296; lia).
  split; [reflexivity|]. split.
  - intros H. split; [lia|auto].
  - intros ->. rewrite Z.mul_0_r. reflexivity.
Qed.

Lemma fastrange32_range_witness :
  (0 <= 3000000000 < 2 ^ 32 /\ 0 <= 10 < 2 ^ 32) /\
  fastrange32 3000000000 10 = 3000000000 * 10 / 2 ^ 32 /\
  (0 < 10 -> 0 <= fastrange32 3000000000 10 < 10) /\
  (10 = 0 -> fastrange32 3000000000 10 = 0).
Proof.
  assert (H1 : 0 <= 3000000000 < 2 ^ 32) by (change (2 ^ 32) with 4294967296; lia).
  assert (H2 : 0 <= 10 < 2 ^ 32) by (change (2 ^ 32) with 4294967296; lia).
  split; [auto|]. exact (fastrange32_range 3000000000 10 H1 H2).
Defined.

(** ** The direct drivers *)

Lemma all_pairs_In N a b : In (a, b) (all_pairs N) <-> 0 <= a < b /\ b < N.
Proof.
  rewrite (count_occ_In pair_eq_dec), count_all_pairs.
  destruct (Z.leb_spec 0 a), (Z.ltb_spec a b), (Z.ltb_spec b N); cbn [ind andb]; lia.
Qed.

Lemma u64_add_l a b : u64 (u64 a + b) = u64 (a + b).
Proof. unfold u64. apply Zplus_mod_idemp_l. Qed.

Lemma for_range_offsets64 {T : Type} (W : Z) (g : Z -> Z -> T -> T) (lo hi o : Z) (t : T) :
  lo <= hi ->
  for_range lo hi (fun x '(ofs, t) => (u64 (ofs + W), g x ofs t)) (u64 o, t)
  = (u64 (o + (hi - lo) * W),
     fold_left (fun t x => g x (u64 (o + (x - lo) * W)) t) (range lo hi) t).
Proof.
  intros H. remember (Z.to_nat (hi - lo)) as n eqn:Hn.
  revert lo o t Hn H. induction n as [|n IH]; intros lo o t Hn H.
  - rewrite for_range_empty, range_empty by lia. cbn [fold_left].
    replace hi with lo by lia. do 2 f_equal. ring.
  - rewrite for_range_first, range_first by lia. cbn [fold_left].
    rewrite u64_add_l. rewrite IH by lia. f_equal.
    + f_equal. ring.
    + replace (o + (lo - lo) * W) with o by ring.
      apply fold_left_ext_in. intros a x _. do 2 f_equal. ring.
Qed.

(** The loop nest of [c_flwrapper] executes its statement for the pairs
    [i < j] row by row, with the offsets [i * n_ints] and [j * n_ints]. *)
Lemma c_flwrapper_on_pairs {T : Type} (exec : kernel_call -> T -> T) (zero : T)
  (N W : Z) (n_alts alt_offsets : list Z) (f : ftype) (fl : fltype) (cutoff : Z) :
  0 <= N <= INT_MAX -> 0 <= W <= UINT32_MAX ->
  c_flwrapper_on exec zero N W n_alts alt_offsets f fl cutoff
  = fold_left
      (fun t '(a, b) =>
         cutoff_site exec W n_alts alt_offsets f fl cutoff a b (a * W) (b * W) t)
      (all_pairs N) zero.
Proof.
  intros HN HW. unfold INT_MAX, UINT32_MAX in *. unfold c_flwrapper_on, all_pairs, triangle.
  rewrite fold_left_flat_map.
  replace (0, zero) with (u64 0, zero) by reflexivity.
  rewrite for_range_offsets64 by lia. cbn [snd].
  apply fold_left_ext_in. intros t a Ha. apply range_In in Ha.
  rewrite u64_add_l. rewrite for_range_offsets64 by lia. cbn [snd].
  rewrite fold_left_map.
  apply fold_left_ext_in. intros t' b Hb. apply range_In in Hb.
  rewrite !u64_small by (change (2 ^ 64) with 18446744073709551616; nia).
  f_equal; ring.
Qed.

Lemma fold_cutoff_record (f : ftype) (fl : fltype) W n_alts alt_offsets cutoff vs trace :
  fold_left
    (fun t '(a, b) =>
       cutoff_site record W n_alts alt_offsets f fl cutoff a b (a * W) (b * W) t)
    vs trace
  = trace ++ map (cutoff_call_at f fl W n_alts alt_offsets cutoff) vs.
Proof.
  revert trace. induction vs as [|(a, b) vs IH]; intros trace; cbn [fold_left map].
  - rewrite app_nil_r. reflexivity.
  - rewrite IH. unfold cutoff_site, cutoff_call_at, sparse_pair. cbn [fst snd].
    destruct ((n_alts.[a] <? cutoff) || (n_alts.[b] <? cutoff));
      unfold record; rewrite <- app_assoc; reflexivity.
Qed.

(** X15. [c_flwrapper] makes one kernel call for every pair [i < j], row by
    row in ascending order, on the words at [i * n_ints] and [j * n_ints]:
    the sparse kernel with the side-table entries of [i] and [j] when one of
    the two popcounts is below [cutoff], and the dense kernel otherwise. *)
Theorem c_flwrapper_row_major (f : ftype) (fl : fltype) (N W : Z)
  (n_alts alt_offsets : list Z) (cutoff : Z) :
  0 <= N <= INT_MAX -> 0 <= W <= UINT32_MAX ->
  c_flwrapper_on record [] N W n_alts alt_offsets f fl cutoff
  = map (cutoff_call_at f fl W n_alts alt_offsets cutoff) (all_pairs N).
Proof.
  intros HN HW. rewrite c_flwrapper_on_pairs by assumption.
  rewrite fold_cutoff_record. reflexivity.
Qed.

Lemma c_flwrapper_row_major_witness :
  (0 <= 3 <= INT_MAX /\ 0 <= 2 <= UINT32_MAX) /\
  c_flwrapper_on record [] 3 2 [1; 9; 9] [0; 1; 10]
    intersect_bitmaps_scalar intersect_bitmaps_scalar_list 5
  = map (cutoff_call_at intersect_bitmaps_scalar intersect_bitmaps_scalar_list 2
           [1; 9; 9] [0; 1; 10] 5) (all_pairs 3).
Proof.
  assert (H1 : 0 <= 3 <= INT_MAX) by (unfold INT_MAX; lia).
  assert (H2 : 0 <= 2 <= UINT32_MAX) by (unfold UINT32_MAX; lia).
  split; [auto|].
  exact (c_flwrapper_row_major intersect_bitmaps_scalar intersect_bitmaps_scalar_list 3 2
           [1; 9; 9] [0; 1; 10] 5 H1 H2).
Defined.

(** The total of a driver over a list of in-range pairs, by the vectors of
    the bundle. *)
Lemma fold_pairs_run_vectors (f : ftype) (vals : list Z) (N W : Z) (vs : list (Z * Z)) t :
  0 <= W -> N * W <= UINT32_MAX + 1 ->
  (forall a b, In (a, b) vs -> 0 <= a < b /\ b < N) ->
  fold_pairs (fun _ _ l r t => run vals [] (DenseCall f l r W) t) W vs t
  = fold_left
      (fun total '(i, j) => tally total (f (vector vals W i) (vector vals W j) W)) vs t.
Proof.
  intros HW HNW Hin. unfold fold_pairs. apply fold_left_ext_in.
  intros t' (a, b) Hab. apply Hin in Hab. unfold UINT32_MAX in *.
  unfold run, run_call, vector. rewrite !u32_small by nia. reflexivity.
Qed.

(** X16. [c_fwrapper] calls its kernel once for every pair [i < j], row by
    row in ascending order; its total is the sum of the kernel over these
    pairs of vectors when the word offsets fit in a [uint32_t]. *)
Theorem c_fwrapper_row_major (f : ftype) (vals : list Z) (N W : Z) :
  0 <= N <= INT_MAX ->
  c_fwrapper_on record [] N W f = map (dense_call_of f W) (all_pairs N) /\
  (0 <= W -> N * W <= UINT32_MAX + 1 -> c_fwrapper N vals W f = pair_sum f vals N W).
Proof.
  intros HN. split.
  - unfold c_fwrapper_on. rewrite direct_loops_pairs by lia.
    rewrite fold_pairs_record. reflexivity.
  - intros HW HNW. unfold c_fwrapper, c_fwrapper_on. rewrite direct_loops_pairs by lia.
    unfold pair_sum. apply (fold_pairs_run_vectors f vals N W); try assumption.
    intros a b Hab. apply all_pairs_In in Hab. exact Hab.
Qed.

Lemma c_fwrapper_row_major_witness :
  (0 <= 4 <= INT_MAX /\ 0 <= 2 /\ 4 * 2 <= UINT32_MAX + 1) /\
  c_fwrapper_on record [] 4 2 intersect_bitmaps_scalar
  = map (dense_call_of intersect_bitmaps_scalar 2) (all_pairs 4) /\
  c_fwrapper 4 [1; 2; 3; 4; 5; 6; 7; 8] 2 intersect_bitmaps_scalar
  = pair_sum intersect_bitmaps_scalar [1; 2; 3; 4; 5; 6; 7; 8] 4 2.
Proof.
  assert (H : 0 <= 4 <= INT_MAX) by (unfold INT_MAX; lia).
  assert (HW : 0 <= 2) by lia.
  assert (HNW : 4 * 2 <= UINT32_MAX + 1) by (unfold UINT32_MAX; lia).
  split; [auto|].
  exact (conj
           (proj1 (c_fwrapper_row_major intersect_bitmaps_scalar [1; 2; 3; 4; 5; 6; 7; 8] 4 2 H))
           (proj2 (c_fwrapper_row_major intersect_bitmaps_scalar [1; 2; 3; 4; 5; 6; 7; 8] 4 2 H)
              HW HNW)).
Defined.

(** ** The blocked sparse-aware driver *)

Lemma strips_in_range_int N B : 0 <= N <= INT_MAX -> strips_in_range N B.
Proof. unfold strips_in_range, INT_MAX, UINT32_MAX. lia. Qed.

(** X17. [c_flwrapper_blocked] makes one kernel call for every pair
    [i < j], in block order, and the call for a pair is the sparse kernel
    exactly when the popcount of one of its two vectors is below the
    driver's [cutoff] parameter. *)
Theorem c_flwrapper_blocked_honours_cutoff (f : ftype) (fl : fltype) (N W : Z)
  (n_alts alt_offsets : list Z) (cutoff B : Z) :
  0 <= N <= UINT32_MAX -> 0 <= B <= UINT32_MAX -> strips_in_range N B ->
  exists visits,
    c_flwrapper_blocked_on record [] N W n_alts alt_offsets f fl cutoff B
    = Some (map (cutoff_call_of f fl W n_alts alt_offsets cutoff) visits) /\
    Permutation visits (all_pairs N) /\
    forall p, In p visits ->
      is_sparse_call (cutoff_call_of f fl W n_alts alt_offsets cutoff p)
      = (n_alts.[fst p] <? cutoff) || (n_alts.[snd p] <? cutoff).
Proof.
  intros HN HB Hwrap.
  destruct (c_flwrapper_blocked_dispatch f fl N W n_alts alt_offsets cutoff B HN HB Hwrap)
    as (vs & E & HP).
  exists vs. split; [exact E|]. split; [exact HP|].
  intros p _. unfold cutoff_call_of, sparse_pair.
  destruct ((n_alts.[fst p] <? cutoff) || (n_alts.[snd p] <? cutoff)); reflexivity.
Qed.

Lemma c_flwrapper_blocked_honours_cutoff_witness :
  (0 <= 5 <= UINT32_MAX /\ 0 <= 2 <= UINT32_MAX /\ strips_in_range 5 2) /\
  exists visits,
    c_flwrapper_blocked_on record [] 5 1 [1; 9; 9; 2; 9] [0; 1; 10; 19; 21]
      intersect_bitmaps_scalar intersect_bitmaps_scalar_list 5 2
    = Some (map (cutoff_call_of intersect_bitmaps_scalar intersect_bitmaps_scalar_list 1
                   [1; 9; 9; 2; 9] [0; 1; 10; 19; 21] 5) visits) /\
    Permutation visits (all_pairs 5) /\
    forall p, In p visits ->
      is_sparse_call (cutoff_call_of intersect_bitmaps_scalar intersect_bitmaps_scalar_list 1
                        [1; 9; 9; 2; 9] [0; 1; 10; 19; 21] 5 p)
      = ([1; 9; 9; 2; 9].[fst p] <? 5) || ([1; 9; 9; 2; 9].[snd p] <? 5).
Proof.
  assert (H1 : 0 <= 5 <= UINT32_MAX) by (unfold UINT32_MAX; lia).
  assert (H2 : 0 <= 2 <= UINT32_MAX) by (unfold UINT32_MAX; lia).
  assert (H3 : strips_in_range 5 2) by (unfold strips_in_range, UINT32_MAX; simpl; lia).
  split; [auto|].
  exact (c_flwrapper_blocked_honours_cutoff intersect_bitmaps_scalar
           intersect_bitmaps_scalar_list 5 1 [1; 9; 9; 2; 9] [0; 1; 10; 19; 21] 5 2 H1 H2 H3).
Defined.

(** X18. For every block size, [c_flwrapper_blocked] returns the total of
    [c_flwrapper] on the same bundle, side tables, kernels and cutoff, when
    the word offsets fit in a [uint32_t]. *)
Theorem c_flwrapper_blocked_total (vals alt_positions : list Z) (f : ftype) (fl : fltype)
  (N W : Z) (n_alts alt_offsets : list Z) (cutoff B : Z) :
  0 <= N <= INT_MAX -> 0 <= B <= UINT32_MAX -> 0 <= W <= UINT32_MAX ->
  N * W <= UINT32_MAX + 1 ->
  c_flwrapper_blocked N vals W n_alts alt_positions alt_offsets f fl cutoff B
  = c_flwrapper N vals W n_alts alt_positions alt_offsets f fl cutoff.
Proof.
  intros HN HB HW HNW.
  assert (HN' : 0 <= N <= UINT32_MAX) by (unfold INT_MAX, UINT32_MAX in *; lia).
  unfold c_flwrapper_blocked, c_flwrapper, c_flwrapper_blocked_on.
  destruct (blocked_loops_visits
              (cutoff_site (run vals alt_positions) W n_alts alt_offsets f fl cutoff)
              N W B (Some 0) HN' HB (strips_in_range_int N B HN)) as (vs & -> & _ & HP).
  cbn [obind]. rewrite c_flwrapper_on_pairs by assumption.
  unfold fold_pairs.
  transitivity
    (fold_left
       (fun total '(a, b) =>
          cutoff_site (run vals alt_positions) W n_alts alt_offsets f fl cutoff a b
            (u32 (a * W)) (u32 (b * W)) total)
       (all_pairs N) (Some 0)).
  - apply fold_left_Permutation; [|exact HP].
    intros t (x1, x2) (y1, y2). unfold cutoff_site, run.
    destruct ((n_alts.[x1] <? cutoff) || (n_alts.[x2] <? cutoff)),
             ((n_alts.[y1] <? cutoff) || (n_alts.[y2] <? cutoff)); apply tally_swap.
  - apply fold_left_ext_in. intros t (a, b) Hab. apply all_pairs_In in Hab.
    unfold UINT32_MAX in *. rewrite !u32_small by nia. reflexivity.
Qed.

Lemma c_flwrapper_blocked_total_witness :
  (0 <= 5 <= INT_MAX /\ 0 <= 2 <= UINT32_MAX /\ 0 <= 1 <= UINT32_MAX /\
   5 * 1 <= UINT32_MAX + 1) /\
  c_flwrapper_blocked 5 [1; 3; 7; 15; 31] 1 [1; 2; 3; 4; 5]
    [0; 0; 1; 0; 1; 2; 0; 1; 2; 3; 0; 1; 2; 3; 4] [0; 1; 3; 6; 10]
    intersect_bitmaps_scalar intersect_bitmaps_scalar_list 3 2
  = c_flwrapper 5 [1; 3; 7; 15; 31] 1 [1; 2; 3; 4; 5]
      [0; 0; 1; 0; 1; 2; 0; 1; 2; 3; 0; 1; 2; 3; 4] [0; 1; 3; 6; 10]
      intersect_bitmaps_scalar intersect_bitmaps_scalar_list 3.
Proof.
  assert (H1 : 0 <= 5 <= INT_MAX) by (unfold INT_MAX; lia).
  assert (H2 : 0 <= 2 <= UINT32_MAX) by (unfold UINT32_MAX; lia).
  assert (H3 : 0 <= 1 <= UINT32_MAX) by (unfold UINT32_MAX; lia).
  assert (H4 : 5 * 1 <= UINT32_MAX + 1) by (unfold UINT32_MAX; lia).
  split; [auto|].
  exact (c_flwrapper_blocked_total [1; 3; 7; 15; 31]
           [0; 0; 1; 0; 1; 2; 0; 1; 2; 3; 0; 1; 2; 3; 4]
           intersect_bitmaps_scalar intersect_bitmaps_scalar_list 5 1
           [1; 2; 3; 4; 5] [0; 1; 3; 6; 10] 3 2 H1 H2 H3 H4).
Defined.

(** ** The number of kernel calls *)

Lemma range_length lo hi : length (range lo hi) = Z.to_nat (hi - lo).
Proof. unfold range. rewrite length_map, length_seq. reflexivity. Qed.

Lemma triangle_length lo hi :
  lo <= hi -> 2 * Z.of_nat (length (triangle lo hi)) = (hi - lo) * (hi - lo - 1).
Proof.
  intros H. remember (Z.to_nat (hi - lo)) as n eqn:Hn.
  revert lo Hn H. induction n as [|n IH]; intros lo Hn H.
  - unfold triangle. rewrite range_empty by lia. cbn [flat_map length]. nia.
  - rewrite triangle_first by lia.
    rewrite length_app, length_map, range_length, Nat2Z.inj_add.
    specialize (IH (lo + 1) ltac:(lia) ltac:(lia)). nia.
Qed.

(** X19. [c_fwrapper_blocked] makes [N * (N - 1) / 2] kernel calls for [N]
    vectors, whatever the block size: as many as [c_fwrapper]. *)
Theorem c_fwrapper_blocked_call_count (f : ftype) (N W B : Z) :
  0 <= N <= UINT32_MAX -> 0 <= B <= UINT32_MAX -> strips_in_range N B ->
  exists calls,
    c_fwrapper_blocked_on record [] N W f B = Some calls /\
    2 * Z.of_nat (length calls) = N * (N - 1) /\
    length (c_fwrapper_on record [] N W f) = length calls.
Proof.
  intros HN HB Hwrap. unfold c_fwrapper_blocked_on, c_fwrapper_on.
  destruct (blocked_loops_visits (fun _ _ l r t => record (DenseCall f l r W) t)
              N W B [] HN HB Hwrap) as (vs & -> & _ & HP).
  rewrite fold_pairs_record, direct_loops_pairs, fold_pairs_record by lia.
  eexists. split; [reflexivity|]. cbn [app]. rewrite !length_map.
  rewrite (Permutation_length HP). split; [|reflexivity].
  unfold all_pairs. rewrite triangle_length by lia. ring.
Qed.

Lemma c_fwrapper_blocked_call_count_witness :
  (0 <= 7 <= UINT32_MAX /\ 0 <= 3 <= UINT32_MAX /\ strips_in_range 7 3) /\
  exists calls,
    c_fwrapper_blocked_on record [] 7 2 intersect_bitmaps_scalar 3 = Some calls /\
    2 * Z.of_nat (length calls) = 7 * (7 - 1) /\
    length (c_fwrapper_on record [] 7 2 intersect_bitmaps_scalar) = length calls.
Proof.
  assert (H1 : 0 <= 7 <= UINT32_MAX) by (unfold UINT32_MAX; lia).
  assert (H2 : 0 <= 3 <= UINT32_MAX) by (unfold UINT32_MAX; lia).
  assert (H3 : strips_in_range 7 3) by (unfold strips_in_range, UINT32_MAX; simpl; lia).
  split; [auto|].
  exact (c_fwrapper_blocked_call_count intersect_bitmaps_scalar 7 2 3 H1 H2 H3).
Defined.

(** ** The block size of the entry points *)

Lemma default_block_value inf_block W :
  1 <= W < 2 ^ 29 -> default_block inf_block W = 32000 / W.
Proof.
  intros HW. unfold default_block. change (2 ^ 29) with 536870912 in HW.
  rewrite u32_small by (change (2 ^ 32) with 4294967296; lia).
  destruct (Z.eqb_spec (W * 8) 0); [lia|].
  change 256000 with (32000 * 8). apply Z.div_mul_cancel_r; lia.
Qed.

(** X20. The block size that [intersect] and [intersect_list] pass on is the
    largest number of vectors whose words fill at most 256000 bytes: for
    vectors of 1 to 32000 words it is at least 1 and [block * n_ints * 8]
    is at most 256000, which one vector more would exceed; for longer
    vectors it is 0, which the drivers remap to 3. *)
Theorem default_block_budget (inf_block W : Z) :
  1 <= W < 2 ^ 29 ->
  0 <= default_block inf_block W <= 32000 /\
  (W <= 32000 ->
   1 <= default_block inf_block W /\
   default_block inf_block W * (W * 8) <= 256000 < (default_block inf_block W + 1) * (W * 8)) /\
  (32000 < W -> remap_block (default_block inf_block W) = 3).
Proof.
  intros HW. rewrite default_block_value by assumption.
  change (2 ^ 29) with 536870912 in HW.
  pose proof (Z.div_mod 32000 W ltac:(lia)) as Hdm.
  pose proof (Z.mod_pos_bound 32000 W ltac:(lia)) as Hmod.
  assert (Hq : 0 <= 32000 / W) by (apply Z.div_pos; lia).
  split; [split; [lia|nia]|]. split.
  - intros Hle. split; [|nia].
    assert (0 < 32000 / W); [|lia]. apply Z.div_str_pos. lia.
  - intros Hgt. rewrite Z.div_small by lia. reflexivity.
Qed.

Lemma default_block_budget_witness :
  1 <= 100 < 2 ^ 29 /\
  0 <= default_block 0 100 <= 32000 /\
  (100 <= 32000 ->
   1 <= default_block 0 100 /\
   default_block 0 100 * (100 * 8) <= 256000 < (default_block 0 100 + 1) * (100 * 8)) /\
  (32000 < 100 -> remap_block (default_block 0 100) = 3).
Proof.
  assert (H : 1 <= 100 < 2 ^ 29) by (change (2 ^ 29) with 536870912; lia).
  split; [exact H|]. exact (default_block_budget 0 100 H).
Defined.

(** ** [intersect] end to end *)

Lemma sum_list_Permutation l l' : Permutation l l' -> sum_list l = sum_list l'.
Proof.
  induction 1; cbn [sum_list fold_right] in *; unfold sum_list in *; lia.
Qed.

Lemma fold_tally_sum {A : Type} (g : A -> Z) (vs : list A) (t : Z) :
  fold_left (fun total p => tally total (Some (g p))) vs (Some (u64 t))
  = Some (u64 (t + sum_list (map g vs))).
Proof.
  revert t. induction vs as [|p vs IH]; intros t; cbn [fold_left map sum_list fold_right].
  - rewrite Z.add_0_r. reflexivity.
  - cbn [tally obind]. rewrite u64_add_l, IH. unfold sum_list. do 2 f_equal. lia.
Qed.

(** The blocked driver over a kernel that returns the sum over the words
    returns the sum over all pairs, modulo 2^64. *)
Lemma c_fwrapper_blocked_count (K : ftype) (data : list Z) (N W B : Z) :
  (forall b1 b2, K b1 b2 W = Some (words_sum b1 b2 W)) ->
  0 <= N <= UINT32_MAX -> 0 <= B <= UINT32_MAX -> strips_in_range N B ->
  0 <= W -> N * W <= UINT32_MAX + 1 ->
  c_fwrapper_blocked N data W K B = Some (u64 (intersect_count data N W)).
Proof.
  intros HK HN HB Hwrap HW HNW. unfold c_fwrapper_blocked, c_fwrapper_blocked_on.
  destruct (blocked_loops_visits
              (fun _ _ l r t => run data [] (DenseCall K l r W) t) N W B (Some 0)
              HN HB Hwrap) as (vs & -> & _ & HP).
  cbn [obind]. unfold fold_pairs.
  rewrite (fold_left_ext_in _ (fun total p => tally total (Some (pair_count data W p)))).
  - change (Some 0) with (Some (u64 0)). rewrite fold_tally_sum. cbn [Z.add].
    unfold intersect_count.
    rewrite (sum_list_Permutation _ _ (Permutation_map (pair_count data W) HP)).
    reflexivity.
  - intros t (a, b) Hab.
    apply (Permutation_in _ HP), all_pairs_In in Hab.
    unfold run, run_call, pair_count, vector. cbn [fst snd]. unfold UINT32_MAX in *.
    rewrite !u32_small by nia. rewrite HK. reflexivity.
Qed.

Lemma mul_mod_0 a W lanes : 0 < lanes -> W mod lanes = 0 -> (a * W) mod lanes = 0.
Proof.
  intros Hl HW. apply Z.mod_divide; [lia|]. apply Z.divide_mul_r.
  apply Z.mod_divide; [lia|assumption].
Qed.

(** The calls of the blocked driver on vectors whose number of words is a
    multiple of [lanes] are on word offsets that are multiples of
    [lanes]. *)
Lemma c_fwrapper_blocked_offsets (K : ftype) (N W B lanes : Z) :
  0 <= N <= UINT32_MAX -> 0 <= B <= UINT32_MAX -> strips_in_range N B ->
  0 <= W -> N * W <= UINT32_MAX + 1 -> 0 < lanes -> W mod lanes = 0 ->
  exists calls,
    c_fwrapper_blocked_on record [] N W K B = Some calls /\
    Forall (fun c => exists l r,
                c = DenseCall K l r W /\ l mod lanes = 0 /\ r mod lanes = 0) calls.
Proof.
  intros HN HB Hwrap HW HNW Hl Hmod. unfold c_fwrapper_blocked_on.
  destruct (blocked_loops_visits (fun _ _ l r t => record (DenseCall K l r W) t)
              N W B [] HN HB Hwrap) as (vs & -> & _ & HP).
  rewrite fold_pairs_record. cbn [app]. eexists. split; [reflexivity|].
  apply Forall_map, Forall_forall. intros (a, b) Hab.
  apply (Permutation_in _ HP), all_pairs_In in Hab.
  unfold dense_call_of. cbn [fst snd]. unfold UINT32_MAX in *.
  rewrite !u32_small by nia.
  exists (a * W), (b * W). split; [reflexivity|]. split; apply mul_mod_0; assumption.
Qed.

(** X21. For a bundle whose vectors keep the alignment of the chosen kernel
    (a number of words that is a multiple of 8 where the AVX-512 kernel can
    be chosen, of 4 where the AVX2 kernel can, and of 32, a whole number of
    rounds of 16 blocks, where the SSE4.1 kernel can), [intersect] returns
    the number of common set bits summed over all pairs [i < j] of the
    vectors, modulo 2^64, whichever kernel the host makes it choose, and
    calls that kernel on word offsets that are multiples of its lane
    count; for vectors of at least one word whose word offsets fit in a
    [uint32_t]. *)
Theorem intersect_counts_all_pairs (cfg : build) (hw : host) (inf_block cpuid_ : Z)
  (data : list Z) (N W : Z) :
  0 <= N <= INT_MAX -> 1 <= W < 2 ^ 29 -> N * W <= UINT32_MAX + 1 ->
  (HAVE_AVX512 cfg = true -> 128 <= W -> W mod 8 = 0) ->
  (HAVE_AVX2 cfg = true -> 64 <= W -> W mod 4 = 0) ->
  (HAVE_SSE41 cfg = true -> 32 <= W -> W mod 32 = 0) ->
  fst (intersect cfg hw inf_block cpuid_ data N W) = Some (u64 (intersect_count data N W)) /\
  exists K lanes calls,
    In (K, lanes) [(intersect_bitmaps_avx512_csa, 8); (intersect_bitmaps_avx2, 4);
                   (intersect_bitmaps_sse4, 2); (intersect_bitmaps_scalar, 1)] /\
    intersect_on record [] cfg inf_block (fst (cached_cpuid cfg hw cpuid_)) N W = Some calls /\
    Forall (fun c => exists l r,
                c = DenseCall K l r W /\ l mod lanes = 0 /\ r mod lanes = 0) calls.
Proof.
  intros HN HW HNW H512 H256 H128.
  assert (HN' : 0 <= N <= UINT32_MAX) by (unfold INT_MAX, UINT32_MAX in *; lia).
  assert (HWi : 0 <= W <= INT_MAX)
    by (unfold INT_MAX; change (2 ^ 29) with 536870912 in HW; lia).
  assert (HW0 : 0 <= W) by lia.
  assert (HB : 0 <= default_block inf_block W <= UINT32_MAX).
  { rewrite default_block_value by assumption.
    change (2 ^ 29) with 536870912 in HW. unfold UINT32_MAX. split.
    - apply Z.div_pos; lia.
    - assert (32000 / W <= 32000); [|lia].
      apply Z.div_le_upper_bound; [lia|]. nia. }
  pose proof (strips_in_range_int N (default_block inf_block W) HN) as Hwrap.
  unfold intersect. destruct (cached_cpuid cfg hw cpuid_) as (cpuid, cpuid_'). cbn [fst].
  unfold intersect_on.
  destruct (HAVE_AVX512 cfg && negb (Z.land cpuid bit_AVX512BW =? 0) && (128 <=? W)) eqn:E5;
    [|destruct (HAVE_AVX2 cfg && negb (Z.land cpuid bit_AVX2 =? 0) && (64 <=? W)) eqn:E2;
      [|destruct (HAVE_SSE41 cfg && negb (Z.land cpuid bit_SSE41 =? 0) && (32 <=? W)) eqn:E1]].
  - apply andb_true_iff in E5. destruct E5 as (E & Ew).
    apply andb_true_iff in E. destruct E as (Ecfg & _). apply Z.leb_le in Ew.
    split.
    + apply c_fwrapper_blocked_count; try assumption.
      intros b1 b2. rewrite intersect_bitmaps_avx512_csa_scalar by assumption.
      apply intersect_bitmaps_scalar_words. assumption.
    + destruct (c_fwrapper_blocked_offsets intersect_bitmaps_avx512_csa N W
                  (default_block inf_block W) 8) as (calls & Ec & Hc); auto; [lia|].
      exists intersect_bitmaps_avx512_csa, 8, calls. cbn [In]. auto.
  - apply andb_true_iff in E2. destruct E2 as (E & Ew).
    apply andb_true_iff in E. destruct E as (Ecfg & _). apply Z.leb_le in Ew.
    split.
    + apply c_fwrapper_blocked_count; try assumption.
      intros b1 b2. rewrite intersect_bitmaps_avx2_scalar by assumption.
      apply intersect_bitmaps_scalar_words. assumption.
    + destruct (c_fwrapper_blocked_offsets intersect_bitmaps_avx2 N W
                  (default_block inf_block W) 4) as (calls & Ec & Hc); auto; [lia|].
      exists intersect_bitmaps_avx2, 4, calls. cbn [In]. auto.
  - apply andb_true_iff in E1. destruct E1 as (E & Ew).
    apply andb_true_iff in E. destruct E as (Ecfg & _). apply Z.leb_le in Ew.
    specialize (H128 Ecfg Ew).
    pose proof (Z.div_mod W 32 ltac:(lia)) as Hdm. rewrite H128, Z.add_0_r in Hdm.
    assert (Hrounds : (W / 2) mod 16 = 0).
    { rewrite Hdm. replace (32 * (W / 32)) with (16 * (W / 32) * 2) by ring.
      rewrite Z.div_mul by lia. rewrite Z.mul_comm. apply Z.mod_mul. lia. }
    assert (Heven : W mod 2 = 0).
    { rewrite Hdm. replace (32 * (W / 32)) with (16 * (W / 32) * 2) by ring.
      apply Z.mod_mul. lia. }
    split.
    + apply c_fwrapper_blocked_count; try assumption.
      intros b1 b2. rewrite intersect_bitmaps_sse4_aligned by auto.
      apply intersect_bitmaps_scalar_words. assumption.
    + destruct (c_fwrapper_blocked_offsets intersect_bitmaps_sse4 N W
                  (default_block inf_block W) 2) as (calls & Ec & Hc); auto; [lia|].
      exists intersect_bitmaps_sse4, 2, calls. cbn [In]. auto.
  - split.
    + apply c_fwrapper_blocked_count; try assumption.
      intros b1 b2. apply intersect_bitmaps_scalar_words. assumption.
    + destruct (c_fwrapper_blocked_offsets intersect_bitmaps_scalar N W
                  (default_block inf_block W) 1) as (calls & Ec & Hc); auto;
        [lia|apply Z.mod_1_r|].
      exists intersect_bitmaps_scalar, 1, calls. cbn [In]. auto 6.
Qed.

Lemma intersect_counts_all_pairs_witness :
  (0 <= 2 <= INT_MAX /\ 1 <= 64 < 2 ^ 29 /\ 2 * 64 <= UINT32_MAX + 1 /\
   (HAVE_AVX512 full_build = true -> 128 <= 64 -> 64 mod 8 = 0) /\
   (HAVE_AVX2 full_build = true -> 64 <= 64 -> 64 mod 4 = 0) /\
   (HAVE_SSE41 full_build = true -> 32 <= 64 -> 64 mod 32 = 0)) /\
  fst (intersect full_build avx2_host 0 (-1) (repeat 7 64 ++ repeat 5 64) 2 64)
  = Some (u64 (intersect_count (repeat 7 64 ++ repeat 5 64) 2 64)) /\
  exists K lanes calls,
    In (K, lanes) [(intersect_bitmaps_avx512_csa, 8); (intersect_bitmaps_avx2, 4);
                   (intersect_bitmaps_sse4, 2); (intersect_bitmaps_scalar, 1)] /\
    intersect_on record [] full_build 0 (fst (cached_cpuid full_build avx2_host (-1))) 2 64
    = Some calls /\
    Forall (fun c => exists l r,
                c = DenseCall K l r 64 /\ l mod lanes = 0 /\ r mod lanes = 0) calls.
Proof.
  assert (H1 : 0 <= 2 <= INT_MAX) by (unfold INT_MAX; lia).
  assert (H2 : 1 <= 64 < 2 ^ 29) by (change (2 ^ 29) with 536870912; lia).
  assert (H3 : 2 * 64 <= UINT32_MAX + 1) by (unfold UINT32_MAX; lia).
  assert (H4 : HAVE_AVX512 full_build = true -> 128 <= 64 -> 64 mod 8 = 0)
    by (intros _ _; reflexivity).
  assert (H5 : HAVE_AVX2 full_build = true -> 64 <= 64 -> 64 mod 4 = 0)
    by (intros _ _; reflexivity).
  assert (H6 : HAVE_SSE41 full_build = true -> 32 <= 64 -> 64 mod 32 = 0)
    by (intros _ _; reflexivity).
  split; [auto 7|].
  exact (intersect_counts_all_pairs full_build avx2_host 0 (-1)
           (repeat 7 64 ++ repeat 5 64) 2 64 H1 H2 H3 H4 H5 H6).
Defined.

(** ** [get_cpuid] and the cached feature mask *)

Ltac cpuid_cases :=
  unfold get_cpuid; cbv zeta;
  repeat match goal with
         | |- context [if ?c then _ else _] => destruct c eqn:?
         end.

Lemma get_cpuid_range (cfg : build) (hw : host) : 0 <= get_cpuid cfg hw < 2 ^ 31.
Proof. cpuid_cases; vm_compute; split; congruence. Qed.

(** X22. The feature mask is detected once: [get_cpuid] never returns the
    -1 that marks an empty cache, so after a first call has stored the mask
    of its host a later call returns the stored mask without consulting its
    host. *)
Theorem cached_cpuid_once (cfg : build) (hw hw' : host) :
  0 <= get_cpuid cfg hw < 2 ^ 31 /\
  cached_cpuid cfg hw (-1) = (get_cpuid cfg hw, get_cpuid cfg hw) /\
  cached_cpuid cfg hw' (snd (cached_cpuid cfg hw (-1)))
  = (get_cpuid cfg hw, get_cpuid cfg hw).
Proof.
  pose proof (get_cpuid_range cfg hw) as H.
  split; [exact H|]. split; [reflexivity|].
  change (cached_cpuid cfg hw (-1)) with (get_cpuid cfg hw, get_cpuid cfg hw).
  unfold cached_cpuid. cbn [snd].
  destruct (Z.eqb_spec (get_cpuid cfg hw) (-1)); [lia|reflexivity].
Qed.

(** X23. [get_cpuid] reports AVX2 or AVX-512BW only when the build has an
    AVX path, CPUID reports OSXSAVE, XCR0 enables the SSE and YMM state (and
    the ZMM state for AVX-512BW) and CPUID leaf 7 reports the feature. *)
Theorem get_cpuid_avx_needs_os (cfg : build) (hw : host) (bit : Z) :
  In bit [bit_AVX2; bit_AVX512BW] ->
  Z.land (get_cpuid cfg hw) bit <> 0 ->
  HAVE_AVX2 cfg || HAVE_AVX512 cfg = true /\
  Z.land (run_cpuid hw 1 0).[2] (Z.shiftl 1 27) = Z.shiftl 1 27 /\
  Z.land (get_xcr0 hw) (Z.lor XSTATE_SSE XSTATE_YMM) = Z.lor XSTATE_SSE XSTATE_YMM /\
  Z.land (run_cpuid hw 7 0).[1] bit = bit /\
  (bit = bit_AVX512BW ->
   Z.land (get_xcr0 hw) (Z.lor (Z.lor XSTATE_SSE XSTATE_YMM) XSTATE_ZMM)
   = Z.lor (Z.lor XSTATE_SSE XSTATE_YMM) XSTATE_ZMM).
Proof.
  intros Hbit. cbn [In] in Hbit. destruct Hbit as [<-|[<-|[]]]; revert cfg hw;
    intros cfg hw; cpuid_cases; intros H;
    try (exfalso; apply H; reflexivity);
    repeat match goal with
           | E : negb _ = false |- _ => apply negb_false_iff in E
           | E : (_ =? _) = true |- _ => apply Z.eqb_eq in E
           end;
    repeat split; try assumption; try discriminate; auto.
Qed.

Lemma get_cpuid_avx_needs_os_witness :
  (In bit_AVX2 [bit_AVX2; bit_AVX512BW] /\
   Z.land (get_cpuid full_build avx2_host) bit_AVX2 <> 0) /\
  HAVE_AVX2 full_build || HAVE_AVX512 full_build = true /\
  Z.land (run_cpuid avx2_host 1 0).[2] (Z.shiftl 1 27) = Z.shiftl 1 27 /\
  Z.land (get_xcr0 avx2_host) (Z.lor XSTATE_SSE XSTATE_YMM) = Z.lor XSTATE_SSE XSTATE_YMM /\
  Z.land (run_cpuid avx2_host 7 0).[1] bit_AVX2 = bit_AVX2 /\
  (bit_AVX2 = bit_AVX512BW ->
   Z.land (get_xcr0 avx2_host) (Z.lor (Z.lor XSTATE_SSE XSTATE_YMM) XSTATE_ZMM)
   = Z.lor (Z.lor XSTATE_SSE XSTATE_YMM) XSTATE_ZMM).
Proof.
  assert (H1 : In bit_AVX2 [bit_AVX2; bit_AVX512BW]) by (left; reflexivity).
  assert (H2 : Z.land (get_cpuid full_build avx2_host) bit_AVX2 <> 0)
    by (vm_compute; discriminate).
  split; [auto|]. exact (get_cpuid_avx_needs_os full_build avx2_host bit_AVX2 H1 H2).
Defined.

Lemma get_cpuid_no_osxsave (cfg : build) (hw : host) :
  HAVE_AVX2 cfg || HAVE_AVX512 cfg = true ->
  Z.land (run_cpuid hw 1 0).[2] (Z.shiftl 1 27) <> Z.shiftl 1 27 ->
  get_cpuid cfg hw = 0.
Proof.
  intros Hcfg Hos. unfold get_cpuid. cbv zeta. rewrite Hcfg.
  destruct (Z.eqb_spec (Z.land (run_cpuid hw 1 0).[2] (Z.shiftl 1 27)) (Z.shiftl 1 27));
    [contradiction|].
  cbn [negb]. reflexivity.
Qed.

(** X24. On a build with an AVX path, a host whose CPUID does not report
    OSXSAVE gets the empty feature mask, SSE4.1 and POPCNT included:
    [get_alignment] returns 8 and [intersect] runs the blocked driver on the
    scalar kernel. *)
Theorem intersect_without_osxsave (cfg : build) (hw : host) (inf_block : Z)
  (data : list Z) (N W : Z) :
  HAVE_AVX2 cfg || HAVE_AVX512 cfg = true ->
  Z.land (run_cpuid hw 1 0).[2] (Z.shiftl 1 27) <> Z.shiftl 1 27 ->
  get_cpuid cfg hw = 0 /\
  fst (get_alignment cfg hw (-1)) = 8 /\
  fst (intersect cfg hw inf_block (-1) data N W)
  = c_fwrapper_blocked N data W intersect_bitmaps_scalar (default_block inf_block W).
Proof.
  intros Hcfg Hos. pose proof (get_cpuid_no_osxsave cfg hw Hcfg Hos) as E.
  split; [exact E|]. split.
  - unfold get_alignment.
    change (cached_cpuid cfg hw (-1)) with (get_cpuid cfg hw, get_cpuid cfg hw).
    rewrite E. cbn [fst Z.land Z.eqb negb]. rewrite !andb_false_r. reflexivity.
  - unfold intersect.
    change (cached_cpuid cfg hw (-1)) with (get_cpuid cfg hw, get_cpuid cfg hw).
    rewrite E. cbn [fst]. unfold intersect_on. cbn [Z.land Z.eqb negb].
    rewrite !andb_false_r. reflexivity.
Qed.

Lemma intersect_without_osxsave_witness :
  (HAVE_AVX2 full_build || HAVE_AVX512 full_build = true /\
   Z.land (run_cpuid plain_host 1 0).[2] (Z.shiftl 1 27) <> Z.shiftl 1 27) /\
  get_cpuid full_build plain_host = 0 /\
  fst (get_alignment full_build plain_host (-1)) = 8 /\
  fst (intersect full_build plain_host 0 (-1) [3; 5; 1] 3 1)
  = c_fwrapper_blocked 3 [3; 5; 1] 1 intersect_bitmaps_scalar (default_block 0 1).
Proof.
  assert (H1 : HAVE_AVX2 full_build || HAVE_AVX512 full_build = true) by reflexivity.
  assert (H2 : Z.land (run_cpuid plain_host 1 0).[2] (Z.shiftl 1 27) <> Z.shiftl 1 27)
    by (vm_compute; discriminate).
  split; [auto|].
  exact (intersect_without_osxsave full_build plain_host 0 [3; 5; 1] 3 1 H1 H2).
Defined.

(** ** Dispatch and alignment *)

(** X25. [intersect] and [intersect_list] hand the same dense kernel to
    their blocked drivers (with the sparse kernel, the cutoff 50 and the
    default block size for [intersect_list]), and [get_alignment] reports at
    least the alignment of that kernel: 64 for AVX-512, 32 for AVX2, 16 for
    SSE4.1, 8 for the scalar kernel. *)
Theorem get_alignment_covers_dispatch {T : Type} (exec : kernel_call -> T -> T) (zero : T)
  (cfg : build) (hw : host) (inf_block cpuid_ : Z) (N W : Z)
  (n_alts alt_offsets : list Z) (cutoff : Z) :
  exists K required,
    In (K, required)
       [(intersect_bitmaps_avx512_csa, FIC_AVX512_ALIGNMENT);
        (intersect_bitmaps_avx2, FIC_AVX2_ALIGNMENT);
        (intersect_bitmaps_sse4, FIC_SSE_ALIGNMENT);
        (intersect_bitmaps_scalar, 8)] /\
    intersect_on exec zero cfg inf_block (fst (cached_cpuid cfg hw cpuid_)) N W
    = c_fwrapper_blocked_on exec zero N W K (default_block inf_block W) /\
    intersect_list_on exec zero cfg inf_block (fst (cached_cpuid cfg hw cpuid_)) N W
      n_alts alt_offsets cutoff
    = c_flwrapper_blocked_on exec zero N W n_alts alt_offsets K
        intersect_bitmaps_scalar_list 50 (default_block inf_block W) /\
    required <= fst (get_alignment cfg hw cpuid_).
Proof.
  unfold get_alignment, intersect_on, intersect_list_on.
  destruct (cached_cpuid cfg hw cpuid_) as (cpuid, cpuid_'). cbn [fst].
  unfold FIC_AVX512_ALIGNMENT, FIC_AVX2_ALIGNMENT, FIC_SSE_ALIGNMENT.
  destruct (HAVE_AVX512 cfg), (negb (Z.land cpuid bit_AVX512BW =? 0)), (128 <=? W),
           (HAVE_AVX2 cfg), (negb (Z.land cpuid bit_AVX2 =? 0)), (64 <=? W),
           (HAVE_SSE41 cfg), (negb (Z.land cpuid bit_SSE41 =? 0)), (32 <=? W);
    cbn [andb Z.eqb fst];
    first
      [ exists intersect_bitmaps_avx512_csa, 64;
        split; [cbn [In]; tauto|]; split; [reflexivity|]; split; [reflexivity|]; lia
      | exists intersect_bitmaps_avx2, 32;
        split; [cbn [In]; tauto|]; split; [reflexivity|]; split; [reflexivity|]; lia
      | exists intersect_bitmaps_sse4, 16;
        split; [cbn [In]; tauto|]; split; [reflexivity|]; split; [reflexivity|]; lia
      | exists intersect_bitmaps_scalar, 8;
        split; [cbn [In]; tauto|]; split; [reflexivity|]; split; [reflexivity|]; lia ].
Qed.

(** ** Fewer than two vectors *)

Lemma all_pairs_few N : N <= 1 -> all_pairs N = [].
Proof.
  intros H. unfold all_pairs, triangle.
  destruct (Z.le_gt_cases N 0).
  - rewrite range_empty by lia. reflexivity.
  - replace N with 1 by lia. reflexivity.
Qed.

Lemma blocked_loops_few {T : Type} (site : Z -> Z -> Z -> Z -> T -> T) (N W B : Z) (t0 : T) :
  0 <= N <= 1 -> 0 <= B <= UINT32_MAX -> blocked_loops site N W B t0 = Some t0.
Proof.
  intros HN HB.
  destruct (blocked_loops_visits site N W B t0) as (vs & -> & _ & HP);
    [unfold UINT32_MAX; lia|assumption| |].
  - pose proof (remap_block_range B HB). unfold strips_in_range, UINT32_MAX. lia.
  - rewrite all_pairs_few in HP by lia. apply Permutation_sym, Permutation_nil in HP.
    subst vs. reflexivity.
Qed.

Lemma default_block_range inf_block W :
  0 <= inf_block <= UINT32_MAX -> 0 <= default_block inf_block W <= UINT32_MAX.
Proof.
  intros H. unfold default_block.
  destruct (Z.eqb_spec (u32 (W * 8)) 0) as [|Hd]; [assumption|].
  assert (0 < u32 (W * 8)).
  { unfold u32 in *. pose proof (Z.mod_pos_bound (W * 8) (2 ^ 32) ltac:(reflexivity)). lia. }
  unfold UINT32_MAX. split; [apply Z.div_pos; lia|].
  assert (256000 / u32 (W * 8) <= 256000); [|lia].
  apply Z.div_le_upper_bound; [lia|]. nia.
Qed.

(** X26. On a bundle of no vector or of one vector, [intersect] and
    [intersect_list] return 0 and make no kernel call, whatever the number
    of words of a vector. *)
Theorem intersect_few_vectors (cfg : build) (hw : host) (inf_block cpuid_ : Z)
  (data : list Z) (N W : Z) (n_alts alt_pos alt_offsets : list Z) (cutoff : Z) :
  0 <= N <= 1 -> 0 <= inf_block <= UINT32_MAX ->
  fst (intersect cfg hw inf_block cpuid_ data N W) = Some 0 /\
  fst (intersect_list cfg hw inf_block cpuid_ data N W n_alts alt_pos alt_offsets cutoff)
  = Some 0 /\
  intersect_list_calls cfg hw inf_block cpuid_ N W n_alts alt_offsets cutoff = Some [].
Proof.
  intros HN Hinf. pose proof (default_block_range inf_block W Hinf) as HB.
  unfold intersect, intersect_list, intersect_list_calls, intersect_on, intersect_list_on.
  destruct (cached_cpuid cfg hw cpuid_) as (cpuid, cpuid_'). cbn [fst].
  destruct (HAVE_AVX512 cfg && negb (Z.land cpuid bit_AVX512BW =? 0) && (128 <=? W)),
           (HAVE_AVX2 cfg && negb (Z.land cpuid bit_AVX2 =? 0) && (64 <=? W)),
           (HAVE_SSE41 cfg && negb (Z.land cpuid bit_SSE41 =? 0) && (32 <=? W));
    unfold c_fwrapper_blocked_on, c_flwrapper_blocked_on;
    rewrite !blocked_loops_few by assumption; repeat split; reflexivity.
Qed.

Lemma intersect_few_vectors_witness :
  (0 <= 1 <= 1 /\ 0 <= 0 <= UINT32_MAX) /\
  fst (intersect full_build plain_host 0 (-1) [3; 5; 6] 1 3) = Some 0 /\
  fst (intersect_list full_build plain_host 0 (-1) [3; 5; 6] 1 3 [6] [0; 1; 64; 66; 129; 130] [0] 50)
  = Some 0 /\
  intersect_list_calls full_build plain_host 0 (-1) 1 3 [6] [0] 50 = Some [].
Proof.
  assert (H1 : 0 <= 1 <= 1) by lia.
  assert (H2 : 0 <= 0 <= UINT32_MAX) by (unfold UINT32_MAX; lia).
  split; [auto|].
  exact (intersect_few_vectors full_build plain_host 0 (-1) [3; 5; 6] 1 3
           [6] [0; 1; 64; 66; 129; 130] [0] 50 H1 H2).
Defined.

(** ** What the sparse kernel counts *)

(** X27. The macro [MOD] of the sparse kernel keeps the low 26 bits of a
    position: it returns every position below 2^26 unchanged. *)
Theorem MOD_keeps_positions (x : Z) :
  0 <= x < 2 ^ 32 ->
  MOD x = x mod 2 ^ 26 /\ (x < 2 ^ 26 -> MOD x = x).
Proof.
  intros Hx. rewrite MOD_mod. split; [reflexivity|].
  intros H. apply Z.mod_small. lia.
Qed.

Lemma MOD_keeps_positions_witness :
  0 <= 100 < 2 ^ 32 /\
  MOD 100 = 100 mod 2 ^ 26 /\ (100 < 2 ^ 26 -> MOD 100 = 100).
Proof.
  assert (H : 0 <= 100 < 2 ^ 32) by (change (2 ^ 32) with 4294967296; lia).
  split; [exact H|]. exact (MOD_keeps_positions 100 H).
Defined.

Lemma for_range_count (g : Z -> Z) (n : Z) :
  0 <= n < 2 ^ 64 -> (forall i, 0 <= i < n -> 0 <= g i <= 1) ->
  for_range 0 n (fun i c => u64 (c + g i)) 0 = sum_upto (Z.to_nat n) g /\
  0 <= sum_upto (Z.to_nat n) g <= n.
Proof.
  intros Hn Hg.
  assert (H : for_range 0 n (fun i c => u64 (c + g i)) 0 = sum_upto (Z.to_nat n) g /\
              0 <= for_range 0 n (fun i c => u64 (c + g i)) 0 <= n).
  { apply (for_range_inv (fun x s => s = sum_upto (Z.to_nat x) g /\ 0 <= s <= x)
             (fun i c => u64 (c + g i)) 0 n 0); [lia|split; [reflexivity|lia]|].
    intros x t Hx (Et & Ht). specialize (Hg x Hx).
    rewrite u64_small by lia. split; [|lia].
    replace (Z.to_nat (x + 1)) with (Datatypes.S (Z.to_nat x)) by lia.
    cbn [sum_upto]. rewrite Z2Nat.id by lia. lia. }
  destruct H as (E & Hr). rewrite E in Hr. split; assumption.
Qed.

Lemma member_spec_range b p : 0 <= p -> 0 <= member_spec b p <= 1.
Proof.
  intros Hp. rewrite member_spec_bit by assumption.
  destruct (bitmap_bit b p); cbn [Z.b2z]; lia.
Qed.

(** X28. [intersect_bitmaps_scalar_list] probes the first [min(n1, n2)]
    positions of the shorter list (the second list on a tie) in the bitmap
    of the other operand, and returns how many of them are set there, with
    the membership bit [(word[p >> 6] >> (p & 63)) & 1]: at most
    [min(n1, n2)].  For lists that the [int] counter of the kernel can run
    through, with the shift of x86-64, which takes its count modulo 64. *)
Theorem intersect_bitmaps_scalar_list_members (b1 b2 l1 l2 : list Z) (n1 n2 : Z) :
  0 <= n1 <= UINT32_MAX -> 0 <= n2 <= UINT32_MAX -> Z.min n1 n2 <= INT_MAX ->
  (forall i, 0 <= i < Z.min n1 n2 ->
             0 <= (if n1 <? n2 then l1 else l2).[i] <= UINT32_MAX) ->
  exists c,
    intersect_bitmaps_scalar_list b1 b2 l1 l2 n1 n2 = Some c /\
    c = sum_upto (Z.to_nat (Z.min n1 n2))
          (fun i => member_spec (if n1 <? n2 then b2 else b1)
                      (if n1 <? n2 then l1 else l2).[i]) /\
    0 <= c <= Z.min n1 n2.
Proof.
  intros Hn1 Hn2 _ Hl. unfold UINT32_MAX in *. unfold intersect_bitmaps_scalar_list.
  destruct (Z.ltb_spec n1 n2) as [Hlt|Hge].
  - rewrite Z.min_l in * by lia.
    destruct (for_range_count (fun i => member_spec b2 l1.[i]) n1) as (E & Hr).
    + change (2 ^ 64) with 18446744073709551616. lia.
    + intros i Hi. apply member_spec_range. apply Hl. assumption.
    + eexists. split; [reflexivity|].
      rewrite (for_range_ext _ (fun i c => u64 (c + member_spec b2 l1.[i])))
        by (intros y t Hy; unfold probe_step; rewrite probe_member by (apply Hl; lia);
            reflexivity).
      rewrite E. split; [reflexivity|assumption].
  - rewrite Z.min_r in * by lia.
    destruct (for_range_count (fun i => member_spec b1 l2.[i]) n2) as (E & Hr).
    + change (2 ^ 64) with 18446744073709551616. lia.
    + intros i Hi. apply member_spec_range. apply Hl. assumption.
    + eexists. split; [reflexivity|].
      rewrite (for_range_ext _ (fun i c => u64 (c + member_spec b1 l2.[i])))
        by (intros y t Hy; unfold probe_step; rewrite probe_member by (apply Hl; lia);
            reflexivity).
      rewrite E. split; [reflexivity|assumption].
Qed.

Lemma intersect_bitmaps_scalar_list_members_witness :
  (0 <= 2 <= UINT32_MAX /\ 0 <= 3 <= UINT32_MAX /\ Z.min 2 3 <= INT_MAX /\
   (forall i, 0 <= i < Z.min 2 3 ->
              0 <= (if 2 <? 3 then [1; 69] else [0; 1; 64]).[i] <= UINT32_MAX)) /\
  exists c,
    intersect_bitmaps_scalar_list [2; 6] [3; 32] [1; 69] [0; 1; 64] 2 3 = Some c /\
    c = sum_upto (Z.to_nat (Z.min 2 3))
          (fun i => member_spec (if 2 <? 3 then [3; 32] else [2; 6])
                      (if 2 <? 3 then [1; 69] else [0; 1; 64]).[i]) /\
    0 <= c <= Z.min 2 3.
Proof.
  assert (H1 : 0 <= 2 <= UINT32_MAX) by (unfold UINT32_MAX; lia).
  assert (H2 : 0 <= 3 <= UINT32_MAX) by (unfold UINT32_MAX; lia).
  assert (H3 : Z.min 2 3 <= INT_MAX) by (unfold INT_MAX; lia).
  assert (H4 : forall i, 0 <= i < Z.min 2 3 ->
                 0 <= (if 2 <? 3 then [1; 69] else [0; 1; 64]).[i] <= UINT32_MAX).
  { intros i Hi. assert (E : i = 0 \/ i = 1) by lia.
    destruct E as [->| ->]; vm_compute; split; discriminate. }
  split; [auto|].
  exact (intersect_bitmaps_scalar_list_members [2; 6] [3; 32] [1; 69] [0; 1; 64] 2 3
           H1 H2 H3 H4).
Defined.

(** X29. On bitmaps of at most one word with the lists of their set-bit
    positions, [intersect_bitmaps_scalar_list] returns the number of common
    set bits, the result of [intersect_bitmaps_scalar]. *)
Theorem intersect_bitmaps_scalar_list_single_word (A B : list Z) (W : Z) :
  0 <= W <= 1 ->
  intersect_bitmaps_scalar_list A B (set_bits A W) (set_bits B W)
    (Z.of_nat (length (set_bits A W))) (Z.of_nat (length (set_bits B W)))
  = Some (words_sum A B W) /\
  intersect_bitmaps_scalar_list A B (set_bits A W) (set_bits B W)
    (Z.of_nat (length (set_bits A W))) (Z.of_nat (length (set_bits B W)))
  = intersect_bitmaps_scalar A B W.
Proof.
  intros HW. rewrite intersect_bitmaps_scalar_list_one_word by assumption.
  split; [|reflexivity].
  apply intersect_bitmaps_scalar_words. unfold INT_MAX. lia.
Qed.

Lemma intersect_bitmaps_scalar_list_single_word_witness :
  0 <= 1 <= 1 /\
  intersect_bitmaps_scalar_list [34] [35] (set_bits [34] 1) (set_bits [35] 1)
    (Z.of_nat (length (set_bits [34] 1))) (Z.of_nat (length (set_bits [35] 1)))
  = Some (words_sum [34] [35] 1) /\
  intersect_bitmaps_scalar_list [34] [35] (set_bits [34] 1) (set_bits [35] 1)
    (Z.of_nat (length (set_bits [34] 1))) (Z.of_nat (length (set_bits [35] 1)))
  = intersect_bitmaps_scalar [34] [35] 1.
Proof.
  assert (H : 0 <= 1 <= 1) by lia.
  split; [exact H|]. exact (intersect_bitmaps_scalar_list_single_word [34] [35] 1 H).
Defined.

(** ** [intersect_list] on one-word vectors *)

Lemma intersect_bitmaps_scalar_list_ext b1 b2 l1 l2 l1' l2' n1 n2 :
  (forall i, 0 <= i < n1 -> l1.[i] = l1'.[i]) ->
  (forall i, 0 <= i < n2 -> l2.[i] = l2'.[i]) ->
  intersect_bitmaps_scalar_list b1 b2 l1 l2 n1 n2
  = intersect_bitmaps_scalar_list b1 b2 l1' l2' n1 n2.
Proof.
  intros H1 H2. unfold intersect_bitmaps_scalar_list.
  destruct (n1 <? n2); f_equal; apply for_range_ext; intros y t Hy; unfold probe_step;
    [rewrite H1 by lia|rewrite H2 by lia]; reflexivity.
Qed.

Lemma c_flwrapper_blocked_count (K : ftype) (data alt_pos : list Z) (N B : Z)
  (n_alts alt_offsets : list Z) (cutoff : Z) :
  (forall b1 b2, K b1 b2 1 = Some (words_sum b1 b2 1)) ->
  side_tables data N n_alts alt_pos alt_offsets ->
  0 <= N <= UINT32_MAX -> 0 <= B <= UINT32_MAX -> strips_in_range N B ->
  c_flwrapper_blocked N data 1 n_alts alt_pos alt_offsets K intersect_bitmaps_scalar_list
    cutoff B
  = Some (u64 (intersect_count data N 1)).
Proof.
  intros HK Htab HN HB Hwrap. unfold c_flwrapper_blocked, c_flwrapper_blocked_on.
  destruct (blocked_loops_visits
              (cutoff_site (run data alt_pos) 1 n_alts alt_offsets K
                 intersect_bitmaps_scalar_list cutoff) N 1 B (Some 0)
              HN HB Hwrap) as (vs & -> & _ & HP).
  cbn [obind]. unfold fold_pairs.
  rewrite (fold_left_ext_in _ (fun total p => tally total (Some (pair_count data 1 p)))).
  - change (Some 0) with (Some (u64 0)). rewrite fold_tally_sum. cbn [Z.add].
    unfold intersect_count.
    rewrite (sum_list_Permutation _ _ (Permutation_map (pair_count data 1) HP)).
    reflexivity.
  - intros t (a, b) Hab.
    apply (Permutation_in _ HP), all_pairs_In in Hab.
    unfold cutoff_site, run, run_call, pair_count. cbn [fst snd]. unfold UINT32_MAX in *.
    rewrite !u32_small by lia.
    change (ptr data (a * 1)) with (vector data 1 a).
    change (ptr data (b * 1)) with (vector data 1 b).
    destruct ((n_alts.[a] <? cutoff) || (n_alts.[b] <? cutoff)); [|rewrite HK; reflexivity].
    destruct (Htab a ltac:(lia)) as (Ea & Ha). destruct (Htab b ltac:(lia)) as (Eb & Hb).
    rewrite (intersect_bitmaps_scalar_list_ext _ _ _ _
               (set_bits (vector data 1 a) 1) (set_bits (vector data 1 b) 1) _ _ Ha Hb).
    rewrite Ea, Eb. rewrite intersect_bitmaps_scalar_list_one_word by lia.
    rewrite intersect_bitmaps_scalar_words by (unfold INT_MAX; lia). reflexivity.
Qed.

(** X30. On a bundle of one-word vectors whose side tables hold, for every
    vector, the number and the ascending positions of its set bits,
    [intersect_list] returns the number of common set bits summed over all
    pairs, modulo 2^64: the result of [intersect], whatever the cutoff. *)
Theorem intersect_list_single_word (cfg : build) (hw : host) (inf_block cpuid_ : Z)
  (data : list Z) (N : Z) (n_alts alt_pos alt_offsets : list Z) (cutoff : Z) :
  0 <= N <= INT_MAX -> side_tables data N n_alts alt_pos alt_offsets ->
  fst (intersect_list cfg hw inf_block cpuid_ data N 1 n_alts alt_pos alt_offsets cutoff)
  = Some (u64 (intersect_count data N 1)) /\
  fst (intersect_list cfg hw inf_block cpuid_ data N 1 n_alts alt_pos alt_offsets cutoff)
  = fst (intersect cfg hw inf_block cpuid_ data N 1).
Proof.
  intros HN Htab.
  assert (E : fst (intersect_list cfg hw inf_block cpuid_ data N 1
                     n_alts alt_pos alt_offsets cutoff)
              = Some (u64 (intersect_count data N 1))).
  { assert (HN' : 0 <= N <= UINT32_MAX) by (unfold INT_MAX, UINT32_MAX in *; lia).
    unfold intersect_list. destruct (cached_cpuid cfg hw cpuid_) as (cpuid, cpuid_').
    cbn [fst]. unfold intersect_list_on.
    replace (128 <=? 1) with false by reflexivity.
    replace (64 <=? 1) with false by reflexivity.
    replace (32 <=? 1) with false by reflexivity.
    rewrite !andb_false_r.
    apply c_flwrapper_blocked_count; try assumption.
    - intros b1 b2. apply intersect_bitmaps_scalar_words. unfold INT_MAX. lia.
    - rewrite default_block_value by (change (2 ^ 29) with 536870912; lia).
      unfold UINT32_MAX. cbn. lia.
    - apply strips_in_range_int. assumption. }
  split; [exact E|]. rewrite E. symmetry.
  unfold intersect. destruct (cached_cpuid cfg hw cpuid_) as (cpuid, cpuid_').
  cbn [fst]. unfold intersect_on.
  replace (128 <=? 1) with false by reflexivity.
  replace (64 <=? 1) with false by reflexivity.
  replace (32 <=? 1) with false by reflexivity.
  rewrite !andb_false_r.
  apply c_fwrapper_blocked_count.
  - intros b1 b2. apply intersect_bitmaps_scalar_words. unfold INT_MAX. lia.
  - unfold INT_MAX, UINT32_MAX in *. lia.
  - rewrite default_block_value by (change (2 ^ 29) with 536870912; lia).
    unfold UINT32_MAX. cbn. lia.
  - apply strips_in_range_int. assumption.
  - lia.
  - unfold INT_MAX, UINT32_MAX in *. lia.
Qed.

Lemma intersect_list_single_word_witness :
  (0 <= 3 <= INT_MAX /\
   side_tables [3; 5; 6] 3 [2; 2; 2] [0; 1; 0; 2; 1; 2] [0; 2; 4]) /\
  fst (intersect_list full_build plain_host 0 (-1) [3; 5; 6] 3 1
         [2; 2; 2] [0; 1; 0; 2; 1; 2] [0; 2; 4] 50)
  = Some (u64 (intersect_count [3; 5; 6] 3 1)) /\
  fst (intersect_list full_build plain_host 0 (-1) [3; 5; 6] 3 1
         [2; 2; 2] [0; 1; 0; 2; 1; 2] [0; 2; 4] 50)
  = fst (intersect full_build plain_host 0 (-1) [3; 5; 6] 3 1).
Proof.
  assert (H1 : 0 <= 3 <= INT_MAX) by (unfold INT_MAX; lia).
  assert (H2 : side_tables [3; 5; 6] 3 [2; 2; 2] [0; 1; 0; 2; 1; 2] [0; 2; 4]).
  { intros i Hi. assert (E : i = 0 \/ i = 1 \/ i = 2) by lia.
    destruct E as [->|[->| ->]]; (split; [reflexivity|]);
      intros k Hk; change ([2; 2; 2].[_]) with 2 in Hk;
      assert (E : k = 0 \/ k = 1) by lia; destruct E as [->| ->]; reflexivity. }
  split; [auto|].
  exact (intersect_list_single_word full_build plain_host 0 (-1) [3; 5; 6] 3
           [2; 2; 2] [0; 1; 0; 2; 1; 2] [0; 2; 4] 50 H1 H2).
Defined.
